(** * The field-tree document model of the JSON generator

    A shallow embedding of the TypeScript sources

    - [src/types/index.ts]                               ([JSONField]),
    - [src/utils/validation.ts]                          ([validationUtils]),
    - [src/utils/dragDrop.ts]                            ([dragDropUtils]),
    - [src/utils/json.ts]                                ([jsonUtils.parseJSON]),
    - [src/components/json-generator/JSONGenerator.tsx]  (tree operations, synthesis),
    - [src/components/json-generator/FieldInput.tsx]     (drop and retype handlers),

    followed by the properties of the tree operations, of the drag-and-drop
    engine, of the identifier validator and of JSON synthesis. *)

From Stdlib Require Import List ZArith NArith Bool Lia.
From Stdlib Require Import Strings.String Strings.Ascii.
From stdpp Require Import gmap.
Import ListNotations.

#[local] Set Warnings "-register-all,-clear-no-such-hyp".
#[local] Open Scope Z_scope.

(** ** JavaScript strings

    A JavaScript string is a sequence of UTF-16 code units.  Equality ([===]),
    [trim], [includes] and the two regular expressions of the validator (none
    of which carries the [u] flag) all work code unit by code unit, so a string
    is a list of code units. *)

Definition jstring : Type := list N.

(** The code units of a string literal of the development (all below 128). *)
Definition js (s : string) : jstring :=
  List.map N_of_ascii (list_ascii_of_string s).

(** [WhiteSpace] and [LineTerminator] of ECMA-262: what [trim] strips and what
    [Number] skips around a numeral. *)
Definition isStrWhiteSpaceChar (c : N) : bool :=
  ((9 <=? c) && (c <=? 13) || (c =? 32) || (c =? 160) || (c =? 5760)
   || (8192 <=? c) && (c <=? 8202) || (c =? 8232) || (c =? 8233)
   || (c =? 8239) || (c =? 8287) || (c =? 12288) || (c =? 65279))%N.

Fixpoint trimStart (s : jstring) : jstring :=
  match s with
  | c :: s' => if isStrWhiteSpaceChar c then trimStart s' else s
  | [] => []
  end.

Definition trimEnd (s : jstring) : jstring := rev (trimStart (rev s)).

(** [String.prototype.trim]. *)
Definition trim (s : jstring) : jstring := trimEnd (trimStart s).

(** [s.includes(' ')]. *)
Definition includes_space (s : jstring) : bool := existsb (N.eqb 32) s.

(** Truthiness of a string: the empty string is falsy. *)
Definition truthy (s : jstring) : bool :=
  match s with [] => false | _ :: _ => true end.

Definition isDigit (c : N) : bool := ((48 <=? c) && (c <=? 57))%N.
Definition isUpper (c : N) : bool := ((65 <=? c) && (c <=? 90))%N.
Definition isLower (c : N) : bool := ((97 <=? c) && (c <=? 122))%N.

(** The character class [[a-zA-Z_$]]. *)
Definition isIdentStart (c : N) : bool :=
  (isLower c || isUpper c || (c =? 95) || (c =? 36))%N.

(** The character class [[a-zA-Z0-9_$]]. *)
Definition isIdentPart (c : N) : bool := isIdentStart c || isDigit c.

(** [index.toString()] for an array index (array indices are below [2^32],
    where [toString] gives the plain decimal numeral). *)
Fixpoint uint_digits (d : Decimal.uint) : jstring :=
  match d with
  | Decimal.Nil => []
  | Decimal.D0 d' => 48%N :: uint_digits d'
  | Decimal.D1 d' => 49%N :: uint_digits d'
  | Decimal.D2 d' => 50%N :: uint_digits d'
  | Decimal.D3 d' => 51%N :: uint_digits d'
  | Decimal.D4 d' => 52%N :: uint_digits d'
  | Decimal.D5 d' => 53%N :: uint_digits d'
  | Decimal.D6 d' => 54%N :: uint_digits d'
  | Decimal.D7 d' => 55%N :: uint_digits d'
  | Decimal.D8 d' => 56%N :: uint_digits d'
  | Decimal.D9 d' => 57%N :: uint_digits d'
  end.

Definition N_toString (n : N) : jstring := uint_digits (N.to_uint n).
Definition index_toString (i : nat) : jstring := N_toString (N.of_nat i).

(** ** JavaScript numbers and JSON values

    A number is [NaN], an infinity, or a finite value written as a signed
    decimal [mantissa * 10 ^ exp10].  Rounding to binary64 is not modelled:
    the decimal is the numeral that was read. *)

Inductive JSNumber : Type :=
| NaN
| Infinity (negative : bool)
| Finite (negative : bool) (mantissa : N) (exp10 : Z).

(** [isNaN(x)] for a number [x]. *)
Definition isNaN (x : JSNumber) : bool :=
  match x with NaN => true | _ => false end.

Definition zero : JSNumber := Finite false 0 0.

(** The longest prefix of [s] whose code units satisfy [p], and the rest. *)
Fixpoint span (p : N -> bool) (s : jstring) : jstring * jstring :=
  match s with
  | c :: s' => if p c then let '(a, b) := span p s' in (c :: a, b) else ([], s)
  | [] => ([], [])
  end.

Definition digitValue (c : N) : N :=
  (if isDigit c then c - 48 else if isLower c then c - 87 else c - 55)%N.

Definition isDigitOf (base : N) (c : N) : bool :=
  ((isDigit c || (97 <=? c) && (c <=? 102) || (65 <=? c) && (c <=? 70))
   && (digitValue c <? base))%N.

Definition digitsValue (base : N) (s : jstring) : N :=
  fold_left (fun acc c => (acc * base + digitValue c)%N) s 0%N.

(** [[eE][+-]?[0-9]+], or nothing. *)
Definition exponentPart (s : jstring) : option Z :=
  match s with
  | [] => Some 0
  | c :: r =>
      if ((c =? 101) || (c =? 69))%N then
        let '(neg, ds) :=
          match r with
          | d :: r' => if (d =? 45)%N then (true, r')
                       else if (d =? 43)%N then (false, r') else (false, r)
          | [] => (false, r)
          end in
        match ds with
        | [] => None
        | _ :: _ =>
            if forallb isDigit ds
            then Some (if neg then - Z.of_N (digitsValue 10%N ds)
                       else Z.of_N (digitsValue 10%N ds))
            else None
        end
      else None
  end.

(** [StrUnsignedDecimalLiteral]: [Infinity], digits with an optional fraction,
    or a fraction alone, then an optional exponent. *)
Definition unsignedDecimal (neg : bool) (s : jstring) : JSNumber :=
  if decide (s = js "Infinity") then Infinity neg else
  let '(ip, r1) := span isDigit s in
  let '(fp, r2) :=
    match r1 with
    | c :: r => if (c =? 46)%N then span isDigit r else ([], r1)
    | [] => ([], r1)
    end in
  match ip ++ fp with
  | [] => NaN
  | ds =>
      match exponentPart r2 with
      | Some e => Finite neg (digitsValue 10%N ds) (e - Z.of_nat (length fp))
      | None => NaN
      end
  end.

(** [0x], [0o] and [0b] numerals (no sign). *)
Definition nonDecimal (s : jstring) : option JSNumber :=
  match s with
  | z :: b :: ds =>
      let base : N :=
        (if (b =? 120) || (b =? 88) then 16
         else if (b =? 111) || (b =? 79) then 8
         else if (b =? 98) || (b =? 66) then 2 else 0)%N in
      if ((z =? 48) && negb (base =? 0))%N then
        match ds with
        | [] => Some NaN
        | _ :: _ => Some (if forallb (isDigitOf base) ds
                          then Finite false (digitsValue base ds) 0 else NaN)
        end
      else None
  | _ => None
  end.

(** [StringToNumber] of ECMA-262: what [Number(s)] returns for a string. *)
Definition StringToNumber (s : jstring) : JSNumber :=
  match trim s with
  | [] => zero
  | (c :: r) as t =>
      match nonDecimal t with
      | Some x => x
      | None =>
          if (c =? 45)%N then unsignedDecimal true r
          else if (c =? 43)%N then unsignedDecimal false r
          else unsignedDecimal false t
      end
  end.

(** [Number::toString] (radix 10), on the decimal that stands for the number. *)
Definition NumberToString (x : JSNumber) : jstring :=
  match x with
  | NaN => js "NaN"
  | Infinity neg => (if neg then js "-" else []) ++ js "Infinity"
  | Finite neg m e =>
      if (m =? 0)%N then js "0" else
      let all := N_toString m in
      let ds := rev (snd (span (N.eqb 48) (rev all))) in
      let k := Z.of_nat (length ds) in
      let n := Z.of_nat (length all) + e in
      (if neg then js "-" else []) ++
      if (k <=? n) && (n <=? 21) then ds ++ repeat 48%N (Z.to_nat (n - k))
      else if (0 <? n) && (n <=? 21)
        then firstn (Z.to_nat n) ds ++ js "." ++ skipn (Z.to_nat n) ds
      else if (-6 <? n) && (n <=? 0)
        then js "0." ++ repeat 48%N (Z.to_nat (- n)) ++ ds
      else
        let etxt := (if n - 1 <? 0 then js "-" else js "+")
                      ++ N_toString (Z.abs_N (n - 1)) in
        match ds with
        | [d] => d :: js "e" ++ etxt
        | d :: rest => d :: js "." ++ rest ++ js "e" ++ etxt
        | [] => []
        end
  end.

(** A JSON-compatible JavaScript value.  The properties of an object are kept
    in creation order (JavaScript lists array-index keys first; that order
    plays no part below). *)
Inductive JSON : Type :=
| JNull
| JBool (b : bool)
| JNum (n : JSNumber)
| JStr (s : jstring)
| JArr (items : list JSON)
| JObj (props : list (jstring * JSON)).

(** [CreateDataProperty]: a property that exists keeps its place and takes the
    new value, a new one is added last. *)
Fixpoint defineProperty (k : jstring) (v : JSON) (o : list (jstring * JSON))
  : list (jstring * JSON) :=
  match o with
  | [] => [(k, v)]
  | (k', v') :: o' =>
      if decide (k' = k) then (k, v) :: o' else (k', v') :: defineProperty k v o'
  end.

(** [o[k] = v] on a plain object.  The key [__proto__] reaches the inherited
    setter and creates no property of the object's own. *)
Definition setProperty (k : jstring) (v : JSON) (o : list (jstring * JSON))
  : list (jstring * JSON) :=
  if decide (k = js "__proto__") then o else defineProperty k v o.

(** The own property [k] of an object. *)
Fixpoint getProperty (k : jstring) (o : list (jstring * JSON)) : option JSON :=
  match o with
  | [] => None
  | (k', v) :: o' => if decide (k' = k) then Some v else getProperty k o'
  end.

(** [a.join(sep)]. *)
Fixpoint join (sep : jstring) (parts : list jstring) : jstring :=
  match parts with
  | [] => []
  | [p] => p
  | p :: ps => p ++ sep ++ join sep ps
  end.

(** [String(v)]: an array joins its elements with commas ([null] elements
    give the empty string), a plain object gives [[object Object]]. *)
Fixpoint JSON_toString (v : JSON) : jstring :=
  match v with
  | JNull => js "null"
  | JBool b => if b then js "true" else js "false"
  | JNum n => NumberToString n
  | JStr s => s
  | JArr items =>
      join (js ",")
        (List.map (fun x => match x with JNull => [] | _ => JSON_toString x end) items)
  | JObj _ => js "[object Object]"
  end.

(** ** [JSON.parse] and [jsonUtils.parseJSON]

    A recursive-descent reader of the JSON grammar (ECMA-404).  The three
    functions recurse on a fuel; a call is made only after its caller has
    consumed a code unit or passed the fuel down once, and [JSON_parse] gives
    twice the length of the text. *)

Definition isJSONWhiteSpace (c : N) : bool :=
  ((c =? 32) || (c =? 9) || (c =? 10) || (c =? 13))%N.

Definition skipWS (s : jstring) : jstring := snd (span isJSONWhiteSpace s).

Fixpoint stripPrefix (p s : jstring) : option jstring :=
  match p, s with
  | [], _ => Some s
  | a :: p', b :: s' => if (a =? b)%N then stripPrefix p' s' else None
  | _ :: _, [] => None
  end.

(** The code unit of a one-letter escape. *)
Definition simpleEscape (e : N) : option N :=
  (if (e =? 34) || (e =? 92) || (e =? 47) then Some e
   else if e =? 98 then Some 8
   else if e =? 102 then Some 12
   else if e =? 110 then Some 10
   else if e =? 114 then Some 13
   else if e =? 116 then Some 9
   else None)%N.

(** The characters of a string literal after its opening quote. *)
Fixpoint parseStringBody (s acc : jstring) : option (jstring * jstring) :=
  match s with
  | [] => None
  | c :: r =>
      if (c =? 34)%N then Some (rev acc, r)
      else if (c =? 92)%N then
        match r with
        | e :: r' =>
            if (e =? 117)%N then
              match r' with
              | h1 :: h2 :: h3 :: h4 :: r'' =>
                  if forallb (isDigitOf 16) [h1; h2; h3; h4]
                  then parseStringBody r'' (digitsValue 16 [h1; h2; h3; h4] :: acc)
                  else None
              | _ => None
              end
            else
              match simpleEscape e with
              | Some u => parseStringBody r' (u :: acc)
              | None => None
              end
        | [] => None
        end
      else if (c <? 32)%N then None
      else parseStringBody r (c :: acc)
  end.

(** A JSON number: an optional minus sign, an integer part without a leading
    zero (or a single zero), an optional fraction and an optional exponent. *)
Definition parseNumber (s : jstring) : option (JSNumber * jstring) :=
  let '(neg, s1) :=
    match s with
    | c :: r => if (c =? 45)%N then (true, r) else (false, s)
    | [] => (false, s)
    end in
  let '(ip, r1) := span isDigit s1 in
  let intOk :=
    match ip with
    | [] => false
    | [_] => true
    | d :: _ => negb (d =? 48)%N
    end in
  let frac :=
    match r1 with
    | c :: r =>
        if (c =? 46)%N then
          let '(fp, r2) := span isDigit r in
          match fp with [] => None | _ :: _ => Some (fp, r2) end
        else Some ([], r1)
    | [] => Some ([], r1)
    end in
  match frac with
  | None => None
  | Some (fp, r2) =>
      let expo :=
        match r2 with
        | c :: r =>
            if ((c =? 101) || (c =? 69))%N then
              let '(eneg, r') :=
                match r with
                | d :: t => if (d =? 45)%N then (true, t)
                            else if (d =? 43)%N then (false, t) else (false, r)
                | [] => (false, r)
                end in
              let '(ed, r3) := span isDigit r' in
              match ed with
              | [] => None
              | _ :: _ =>
                  Some (if eneg then - Z.of_N (digitsValue 10 ed)
                        else Z.of_N (digitsValue 10 ed), r3)
              end
            else Some (0, r2)
        | [] => Some (0, r2)
        end in
      match expo with
      | Some (e, r3) =>
          if intOk
          then Some (Finite neg (digitsValue 10 (ip ++ fp)) (e - Z.of_nat (length fp)), r3)
          else None
      | None => None
      end
  end.

Fixpoint parseValue (fuel : nat) (s : jstring) {struct fuel} : option (JSON * jstring) :=
  match fuel with
  | O => None
  | S fuel' =>
      match skipWS s with
      | [] => None
      | c :: r =>
          if (c =? 123)%N then
            match skipWS r with
            | c' :: r' => if (c' =? 125)%N then Some (JObj [], r')
                          else parseMembers fuel' r []
            | [] => None
            end
          else if (c =? 91)%N then
            match skipWS r with
            | c' :: r' => if (c' =? 93)%N then Some (JArr [], r')
                          else parseElements fuel' r []
            | [] => None
            end
          else if (c =? 34)%N then
            match parseStringBody r [] with
            | Some (str, r') => Some (JStr str, r')
            | None => None
            end
          else if (c =? 110)%N then
            option_map (pair JNull) (stripPrefix (js "ull") r)
          else if (c =? 116)%N then
            option_map (pair (JBool true)) (stripPrefix (js "rue") r)
          else if (c =? 102)%N then
            option_map (pair (JBool false)) (stripPrefix (js "alse") r)
          else
            match parseNumber (c :: r) with
            | Some (n, r') => Some (JNum n, r')
            | None => None
            end
      end
  end
with parseElements (fuel : nat) (s : jstring) (acc : list JSON) {struct fuel}
  : option (JSON * jstring) :=
  match fuel with
  | O => None
  | S fuel' =>
      match parseValue fuel' s with
      | Some (v, r) =>
          match skipWS r with
          | c :: r' =>
              if (c =? 44)%N then parseElements fuel' r' (v :: acc)
              else if (c =? 93)%N then Some (JArr (rev (v :: acc)), r')
              else None
          | [] => None
          end
      | None => None
      end
  end
with parseMembers (fuel : nat) (s : jstring) (acc : list (jstring * JSON)) {struct fuel}
  : option (JSON * jstring) :=
  match fuel with
  | O => None
  | S fuel' =>
      match skipWS s with
      | q :: r =>
          if (q =? 34)%N then
            match parseStringBody r [] with
            | Some (k, r1) =>
                match skipWS r1 with
                | colon :: r2 =>
                    if (colon =? 58)%N then
                      match parseValue fuel' r2 with
                      | Some (v, r3) =>
                          match skipWS r3 with
                          | c :: r4 =>
                              if (c =? 44)%N
                              then parseMembers fuel' r4 (defineProperty k v acc)
                              else if (c =? 125)%N
                              then Some (JObj (defineProperty k v acc), r4)
                              else None
                          | [] => None
                          end
                      | None => None
                      end
                    else None
                | [] => None
                end
            | None => None
            end
          else None
      | [] => None
      end
  end.

(** [JSON.parse(str)]; [None] stands for the [SyntaxError] it throws. *)
Definition JSON_parse (str : jstring) : option JSON :=
  match parseValue (2 * length str + 2) str with
  | Some (v, r) => match skipWS r with [] => Some v | _ :: _ => None end
  | None => None
  end.

(** [jsonUtils.parseJSON]: the [data] of a successful parse; [None] when the
    result carries an [error]. *)
Definition parseJSON (str : jstring) : option JSON := JSON_parse str.

(** ** The field tree ([src/types/index.ts]) *)

Inductive FieldType : Type :=
| Tstring | Tnumber | Tboolean | Tnull | Tobject | Tarray.

#[global] Instance FieldType_eq_dec : EqDecision FieldType.
Proof. solve_decision. Defined.

(** [JSONField].  [value] is a string, a number, a boolean, [null] or
    structured data, that is, a JSON-compatible value; the properties marked
    [?] in the interface are optional. *)
Inductive JSONField : Type := mkField {
  id : jstring;
  key : jstring;
  value : JSON;
  type : FieldType;
  isEditing : option bool;
  children : option (list JSONField);
  isCollapsed : option bool;
  depth : option Z;
  parentId : option jstring
}.

(** [field.children || []]. *)
Definition childrenOrEmpty (field : JSONField) : list JSONField :=
  match children field with Some cs => cs | None => [] end.

(** [{ ...field, children: cs }] and [{ ...field, key: k }]. *)
Definition withChildren (field : JSONField) (cs : list JSONField) : JSONField :=
  mkField (id field) (key field) (value field) (type field) (isEditing field)
    (Some cs) (isCollapsed field) (depth field) (parentId field).

Definition withKey (field : JSONField) (k : jstring) : JSONField :=
  mkField (id field) k (value field) (type field) (isEditing field)
    (children field) (isCollapsed field) (depth field) (parentId field).

(** An optional string parameter is truthy when given and not empty. *)
Definition given (p : option jstring) : option jstring :=
  match p with
  | Some s => if truthy s then Some s else None
  | None => None
  end.

(** *** Loops over a list of fields

    The source walks field lists with [for] loops, [filter] and [map] whose
    bodies recurse into [field.children].  Each loop is a list combinator
    applied to the loop body; the body is the structurally recursive
    function. *)

(** A loop that returns the first result found. *)
Definition firstFound {A B : Type} (body : A -> option B) : list A -> option B :=
  fix loop (l : list A) : option B :=
    match l with
    | [] => None
    | a :: l' => match body a with Some b => Some b | None => loop l' end
    end.

(** [l.filter(keep).map(body)]. *)
Definition filterMap {A B : Type} (keep : A -> bool) (body : A -> B)
  : list A -> list B :=
  fix loop (l : list A) : list B :=
    match l with
    | [] => []
    | a :: l' => if keep a then body a :: loop l' else loop l'
    end.

(** [l.map((x, index) => body(index, x))], counting from [i]. *)
Fixpoint mapIndexFrom {A B : Type} (body : nat -> A -> B) (i : nat) (l : list A)
  : list B :=
  match l with
  | [] => []
  | a :: l' => body i a :: mapIndexFrom body (S i) l'
  end.

Definition mapIndex {A B : Type} (body : nat -> A -> B) (l : list A) : list B :=
  mapIndexFrom body 0 l.

(** [l.forEach(body)], the body updating the state [S] of the enclosing
    function. *)
Definition forEach {A S : Type} (body : A -> S -> S) : list A -> S -> S :=
  fix loop (l : list A) (s : S) : S :=
    match l with
    | [] => s
    | a :: l' => loop l' (body a s)
    end.

(** [l.map(body)] for a body that also updates the state [S]. *)
Definition mapState {A B S : Type} (body : A -> S -> B * S)
  : list A -> S -> list B * S :=
  fix loop (l : list A) (s : S) : list B * S :=
    match l with
    | [] => ([], s)
    | a :: l' =>
        let '(b, s1) := body a s in
        let '(bs, s2) := loop l' s1 in
        (b :: bs, s2)
    end.

(** A loop that pushes the items its body returns: [result.push(...body(x))]
    for each [x]. *)
Definition concatMap {A B : Type} (body : A -> list B) : list A -> list B :=
  fix loop (l : list A) : list B :=
    match l with
    | [] => []
    | a :: l' => body a ++ loop l'
    end.

(** [l.findIndex(p)]: [None] stands for [-1]. *)
Fixpoint findIndex {A : Type} (p : A -> bool) (l : list A) : option nat :=
  match l with
  | [] => None
  | a :: l' => if p a then Some O else option_map S (findIndex p l')
  end.

(** [copy = [...l]; copy.splice(start, 0, x)]: a negative [start] counts from
    the end, and [start] is clamped to the ends of the list. *)
Definition splice_insert {A : Type} (l : list A) (start : Z) (x : A) : list A :=
  let len := Z.of_nat (length l) in
  let at_ := if start <? 0 then Z.max (len + start) 0 else Z.min start len in
  firstn (Z.to_nat at_) l ++ x :: skipn (Z.to_nat at_) l.

(** ** The drag-and-drop engine ([src/utils/dragDrop.ts]) *)

Module dragDrop.

(** The body of the loop of [findField]: the field itself, then its
    children. *)
Fixpoint findField_in (target : jstring) (field : JSONField) : option JSONField :=
  if decide (id field = target) then Some field
  else match children field with
       | Some cs => firstFound (findField_in target) cs
       | None => None
       end.

Definition findField (fields : list JSONField) (target : jstring)
  : option JSONField :=
  firstFound (findField_in target) fields.

(** [findFieldWithPath]: the field and the ids of its ancestors. *)
Fixpoint findFieldWithPath_in (target : jstring) (path : list jstring)
  (field : JSONField) : option (JSONField * list jstring) :=
  if decide (id field = target) then Some (field, path)
  else match children field with
       | Some cs => firstFound (findFieldWithPath_in target (path ++ [id field])) cs
       | None => None
       end.

Definition findFieldWithPath (fields : list JSONField) (target : jstring)
  (path : list jstring) : option JSONField * list jstring :=
  match firstFound (findFieldWithPath_in target path) fields with
  | Some (field, parentPath) => (Some field, parentPath)
  | None => (None, [])
  end.

(** The body of the [map] of [removeField] (the helper of this file: it
    renumbers nothing and reinstates nothing). *)
Fixpoint removeField_in (target : jstring) (field : JSONField) : JSONField :=
  withChildren field
    match children field with
    | Some cs => filterMap (fun f => negb (bool_decide (id f = target)))
                   (removeField_in target) cs
    | None => []
    end.

Definition removeField (fields : list JSONField) (target : jstring) : list JSONField :=
  filterMap (fun f => negb (bool_decide (id f = target))) (removeField_in target) fields.

Definition findInsertIndex (fields : list JSONField) (referenceId : jstring)
  (parentId : option jstring) : nat :=
  match given parentId with
  | Some pid =>
      match findField fields pid with
      | Some parent =>
          match children parent with
          | Some cs =>
              match findIndex (fun f => bool_decide (id f = referenceId)) cs with
              | Some refIndex => refIndex
              | None => length cs
              end
          | None => O
          end
      | None => O
      end
  | None =>
      match findIndex (fun f => bool_decide (id f = referenceId)) fields with
      | Some refIndex => refIndex
      | None => length fields
      end
  end.

(** The body of the [map] of [insertField] when a parent id is given. *)
Fixpoint insertField_in (fieldToInsert : JSONField) (index : nat)
  (pid : jstring) (field : JSONField) : JSONField :=
  if decide (id field = pid)
  then withChildren field
         (splice_insert (childrenOrEmpty field) (Z.of_nat index) fieldToInsert)
  else match children field with
       | Some cs =>
           withChildren field (List.map (insertField_in fieldToInsert index pid) cs)
       | None => field
       end.

Definition insertField (fields : list JSONField) (fieldToInsert : JSONField)
  (index : nat) (parentId : option jstring) : list JSONField :=
  match given parentId with
  | Some pid => List.map (insertField_in fieldToInsert index pid) fields
  | None => splice_insert fields (Z.of_nat index) fieldToInsert
  end.

(** [dragDropUtils.moveField]. *)
Definition moveField (fields : list JSONField) (dragId hoverId : jstring)
  (hoverParentId : option jstring) : list JSONField :=
  match fst (findFieldWithPath fields dragId []),
        fst (findFieldWithPath fields hoverId []) with
  | Some dragField, Some hoverField =>
      let fieldsWithoutDrag := removeField fields dragId in
      let insertIndex := findInsertIndex fieldsWithoutDrag hoverId hoverParentId in
      insertField fieldsWithoutDrag dragField insertIndex hoverParentId
  | _, _ => fields
  end.

(** The body of the loop of [isDescendant]. *)
Fixpoint isDescendant (parentField : JSONField) (childId : jstring) : bool :=
  match children parentField with
  | None => false
  | Some cs =>
      existsb (fun child => bool_decide (id child = childId)
                            || isDescendant child childId) cs
  end.

(** [dragDropUtils.canDrop]. *)
Definition canDrop (dragId hoverId : jstring) (fields : list JSONField) : bool :=
  if decide (dragId = hoverId) then false
  else match findField fields dragId with
       | Some dragField => negb (isDescendant dragField hoverId)
       | None => true
       end.

End dragDrop.

(** ** The identifier validator ([src/utils/validation.ts]) *)

Module validation.

Record Result : Type := mkResult { isValid : bool; error : option jstring }.

(** [/^[a-zA-Z_$][a-zA-Z0-9_$]*$/.test(key)]. *)
Definition isIdentifier (k : jstring) : bool :=
  match k with
  | c :: r => isIdentStart c && forallb isIdentPart r
  | [] => false
  end.

Definition validateKeyValue (k : jstring) : Result :=
  if negb (truthy (trim k))
  then mkResult false (Some (js "Key cannot be empty"))
  else if includes_space k
  then mkResult false (Some (js "Key cannot contain spaces"))
  else if negb (isIdentifier k)
  then mkResult false (Some (js "Key must be a valid identifier"))
  else mkResult true None.

(** [keys.length !== new Set(keys).size], for the keys of [fields]. *)
Definition hasDuplicateKeys (fields : list JSONField) : bool :=
  let keys := List.map key fields in
  bool_decide (length keys ≠ size (list_to_set keys : gset jstring)).

(** [key.replace(/[^a-zA-Z0-9_$]/g, '_').replace(/^[0-9]/, '_$&')]. *)
Definition sanitizeKey (k : jstring) : jstring :=
  let replaced := List.map (fun c => if isIdentPart c then c else 95%N) k in
  match replaced with
  | c :: _ => if isDigit c then 95%N :: replaced else replaced
  | [] => replaced
  end.

End validation.

(** ** Partial updates ([Partial<JSONField>])

    A property is either absent from the update or present with a value of
    the property's type. *)

Module Partial.

Record t : Type := mk {
  id : option jstring;
  key : option jstring;
  value : option JSON;
  type : option FieldType;
  isEditing : option bool;
  children : option (list JSONField);
  isCollapsed : option bool;
  depth : option Z;
  parentId : option jstring
}.

(** The value of a property after [{ ...field, ...updates }]: the update's
    when it has the property, the field's otherwise. *)
Definition over {A : Type} (u : option A) (old : A) : A :=
  match u with Some v => v | None => old end.

Definition overOpt {A : Type} (u : option A) (old : option A) : option A :=
  match u with Some v => Some v | None => old end.

End Partial.

(** [{ ...field, ...updates }]. *)
Definition spread (field : JSONField) (updates : Partial.t) : JSONField :=
  mkField
    (Partial.over (Partial.id updates) (id field))
    (Partial.over (Partial.key updates) (key field))
    (Partial.over (Partial.value updates) (value field))
    (Partial.over (Partial.type updates) (type field))
    (Partial.overOpt (Partial.isEditing updates) (isEditing field))
    (Partial.overOpt (Partial.children updates) (children field))
    (Partial.overOpt (Partial.isCollapsed updates) (isCollapsed field))
    (Partial.overOpt (Partial.depth updates) (depth field))
    (Partial.overOpt (Partial.parentId updates) (parentId field)).

(** ** The generator ([src/components/json-generator/JSONGenerator.tsx]) *)

Module JSONGenerator.

(** The field every fresh tree starts from; [newId] is what
    [jsonUtils.generateId()] returned. *)
Definition blankField (newId : jstring) (parent : option jstring) : JSONField :=
  mkField newId [] (JStr []) Tstring None (Some []) (Some false) (Some 0) parent.

(** The body of the loop of [findInFields]. *)
Fixpoint findInFields_in (target : jstring) (field : JSONField) : option JSONField :=
  if decide (id field = target) then Some field
  else match children field with
       | Some (c :: cs) => firstFound (findInFields_in target) (c :: cs)
       | _ => None
       end.

Definition getFieldById (fields : list JSONField) (target : jstring)
  : option JSONField :=
  firstFound (findInFields_in target) fields.

(** *** Tree operations *)

(** The body of the [map] of [updateChildren] in [addField]. *)
Fixpoint updateChildren_in (newField : JSONField) (pid : jstring) (index : option Z)
  (field : JSONField) : JSONField :=
  if decide (id field = pid)
  then withChildren field
         match index with
         | Some i => splice_insert (childrenOrEmpty field) i newField
         | None => childrenOrEmpty field ++ [newField]
         end
  else match children field with
       | Some cs => withChildren field (List.map (updateChildren_in newField pid index) cs)
       | None => field
       end.

Definition addField (fields : list JSONField) (newId : jstring)
  (parentId : option jstring) (index : option Z) : list JSONField :=
  let newField := blankField newId parentId in
  match given parentId with
  | Some pid => List.map (updateChildren_in newField pid index) fields
  | None =>
      match index with
      | Some i => splice_insert fields i newField
      | None => fields ++ [newField]
      end
  end.

(** The body of the [map] of [removeFromFields]: remove below, then renumber
    the children of an array. *)
Fixpoint removeFromFields_in (target : jstring) (field : JSONField) : JSONField :=
  let updatedChildren :=
    match children field with
    | Some cs => filterMap (fun f => negb (bool_decide (id f = target)))
                   (removeFromFields_in target) cs
    | None => []
    end in
  if decide (type field = Tarray)
  then withChildren field
         (mapIndex (fun index child => withKey child (index_toString index))
            updatedChildren)
  else withChildren field updatedChildren.

Definition removeFromFields (fields : list JSONField) (target : jstring)
  : list JSONField :=
  filterMap (fun f => negb (bool_decide (id f = target)))
    (removeFromFields_in target) fields.

Definition removeField (fields : list JSONField) (target : jstring)
  (newId : jstring) : list JSONField :=
  match removeFromFields fields target with
  | [] => [blankField newId None]
  | newFields => newFields
  end.

(** The [updatedField] of [updateInFields]: the merge, with [children] set
    to the empty list when the update makes the field an object or an array
    and it has none. *)
Definition updatedField (field : JSONField) (updates : Partial.t) : JSONField :=
  let merged := spread field updates in
  match Partial.type updates, children merged with
  | Some Tobject, None | Some Tarray, None => withChildren merged []
  | _, _ => merged
  end.

(** The body of the [map] of [updateInFields]. *)
Fixpoint updateInFields_in (target : jstring) (updates : Partial.t)
  (field : JSONField) : JSONField :=
  if decide (id field = target) then updatedField field updates
  else match children field with
       | Some cs => withChildren field (List.map (updateInFields_in target updates) cs)
       | None => field
       end.

Definition updateField (fields : list JSONField) (target : jstring)
  (updates : Partial.t) : list JSONField :=
  List.map (updateInFields_in target updates) fields.

(** [!(field?.isCollapsed)]. *)
Definition notCollapsed (field : option JSONField) : bool :=
  match field with
  | Some f => match isCollapsed f with Some b => negb b | None => true end
  | None => true
  end.

Definition toggleCollapse (fields : list JSONField) (target : jstring)
  : list JSONField :=
  let field := getFieldById fields target in
  updateField fields target
    (Partial.mk None None None None None None (Some (notCollapsed field)) None None).

(** [moveField] of the component: the engine applied to the current tree. *)
Definition moveField (fields : list JSONField) (dragId hoverId : jstring)
  (hoverParentId : option jstring) : list JSONField :=
  dragDrop.moveField fields dragId hoverId hoverParentId.

(** *** Synthesis ([generateJSON])

    [newErrors] is the object the two passes write into, keyed by field id;
    it is threaded through them as state. *)

(** [newErrors[fieldId] = msg].  As in [setProperty], the key [__proto__]
    reaches the inherited setter, which ignores a string. *)
Definition recordError (fieldId msg : jstring) (newErrors : gmap jstring jstring)
  : gmap jstring jstring :=
  if decide (fieldId = js "__proto__") then newErrors
  else <[fieldId := msg]> newErrors.

(** [Number(v)]. *)
Definition ToNumber (v : JSON) : JSNumber :=
  match v with
  | JStr s => StringToNumber s
  | JNum n => n
  | JBool b => Finite false (if b then 1 else 0) 0
  | JNull => zero
  | JArr _ | JObj _ => StringToNumber (JSON_toString v)
  end.

(** [v === '' ? 0 : Number(v)]. *)
Definition numberOf (v : JSON) : JSNumber :=
  match v with
  | JStr [] => zero
  | _ => ToNumber v
  end.

(** [v === 'true' || v === true]. *)
Definition booleanOf (v : JSON) : bool :=
  match v with
  | JStr s => bool_decide (s = js "true")
  | JBool b => b
  | _ => false
  end.

(** [v && typeof v === 'string' && v.trim() && v !== empty]: the manual
    literal of an object or array field, when one is to be parsed. *)
Definition manualLiteral (v : JSON) (empty : jstring) : option jstring :=
  match v with
  | JStr s =>
      if truthy s && truthy (trim s) && negb (bool_decide (s = empty))
      then Some s else None
  | _ => None
  end.

(** The value of one child of an array field, as the callback of
    [field.children.map] computes it. *)
Definition arrayItem
  (buildObject : list JSONField -> gmap jstring jstring ->
                 list (jstring * JSON) * gmap jstring jstring)
  (child : JSONField) (newErrors : gmap jstring jstring)
  : JSON * gmap jstring jstring :=
  match type child with
  | Tnumber => (JNum (numberOf (value child)), newErrors)
  | Tboolean => (JBool (booleanOf (value child)), newErrors)
  | Tnull => (JNull, newErrors)
  | Tobject =>
      match children child with
      | Some (g :: gs) =>
          let '(nested, newErrors') := buildObject (g :: gs) newErrors in
          (JObj nested, newErrors')
      | _ =>
          match manualLiteral (value child) (js "{}") with
          | Some str =>
              match parseJSON str with
              | None => (JObj [], newErrors)
              | Some data => (data, newErrors)
              end
          | None => (JObj [], newErrors)
          end
      end
  | Tarray =>
      match children child with
      | Some (g :: gs) => (JArr (List.map value (g :: gs)), newErrors)
      | _ =>
          match manualLiteral (value child) (js "[]") with
          | Some str =>
              match parseJSON str with
              | None => (JArr [], newErrors)
              | Some data => (data, newErrors)
              end
          | None => (JArr [], newErrors)
          end
      end
  | Tstring => (JStr (JSON_toString (value child)), newErrors)
  end.

(** The body of the [forEach] of [buildObject], on the pair of [jsonObject]
    and [newErrors]; [buildObject] is the function itself, for the nested
    calls.  The [catch] branch of the source is not reached: none of the
    conversions throws on a JSON-compatible value. *)
Definition buildObject_body
  (buildObject : list JSONField -> gmap jstring jstring ->
                 list (jstring * JSON) * gmap jstring jstring)
  (field : JSONField) (st : list (jstring * JSON) * gmap jstring jstring)
  : list (jstring * JSON) * gmap jstring jstring :=
  let '(jsonObject, newErrors) := st in
  if negb (truthy (trim (key field))) then (jsonObject, newErrors)
  else
    let validation := validation.validateKeyValue (key field) in
    match validation.isValid validation, validation.error validation with
    | false, Some (c :: msg) =>
        (jsonObject, recordError (id field) (c :: msg) newErrors)
    | _, _ =>
        match type field with
        | Tnumber =>
            let processedValue := numberOf (value field) in
            if isNaN processedValue
            then (jsonObject, recordError (id field) (js "Invalid number") newErrors)
            else (setProperty (key field) (JNum processedValue) jsonObject, newErrors)
        | Tboolean =>
            (setProperty (key field) (JBool (booleanOf (value field))) jsonObject,
             newErrors)
        | Tnull => (setProperty (key field) JNull jsonObject, newErrors)
        | Tobject =>
            match children field with
            | Some (c :: cs) =>
                let '(nested, newErrors') := buildObject (c :: cs) newErrors in
                (setProperty (key field) (JObj nested) jsonObject, newErrors')
            | _ =>
                match manualLiteral (value field) (js "{}") with
                | Some str =>
                    match parseJSON str with
                    | None =>
                        (jsonObject,
                         recordError (id field) (js "Invalid JSON object") newErrors)
                    | Some data => (setProperty (key field) data jsonObject, newErrors)
                    end
                | None => (setProperty (key field) (JObj []) jsonObject, newErrors)
                end
            end
        | Tarray =>
            match children field with
            | Some (c :: cs) =>
                let '(items, newErrors') :=
                  mapState (arrayItem buildObject) (c :: cs) newErrors in
                (setProperty (key field) (JArr items) jsonObject, newErrors')
            | _ =>
                match manualLiteral (value field) (js "[]") with
                | Some str =>
                    match parseJSON str with
                    | Some (JArr data) =>
                        (setProperty (key field) (JArr data) jsonObject, newErrors)
                    | _ =>
                        (jsonObject,
                         recordError (id field) (js "Invalid JSON array") newErrors)
                    end
                | None => (setProperty (key field) (JArr []) jsonObject, newErrors)
                end
            end
        | Tstring =>
            (setProperty (key field) (JStr (JSON_toString (value field))) jsonObject,
             newErrors)
        end
    end.

Fixpoint buildObject_in (field : JSONField)
  (st : list (jstring * JSON) * gmap jstring jstring) {struct field}
  : list (jstring * JSON) * gmap jstring jstring :=
  buildObject_body
    (fun fieldList newErrors => forEach buildObject_in fieldList ([], newErrors))
    field st.

Definition buildObject (fieldList : list JSONField) (newErrors : gmap jstring jstring)
  : list (jstring * JSON) * gmap jstring jstring :=
  forEach buildObject_in fieldList ([], newErrors).

(** The first half of [checkDuplicates]: mark the fields of one sibling list
    whose key was seen before. *)
Definition markDuplicates (fieldList : list JSONField)
  (newErrors : gmap jstring jstring) : gmap jstring jstring :=
  let fieldsWithKeys := List.filter (fun f => truthy (trim (key f))) fieldList in
  if validation.hasDuplicateKeys fieldsWithKeys then
    let '(duplicateKeys, seenKeys) :=
      forEach
        (fun field '((duplicateKeys, seenKeys) : gset jstring * gset jstring) =>
           if bool_decide (key field ∈ seenKeys)
           then ({[key field]} ∪ duplicateKeys, seenKeys)
           else (duplicateKeys, {[key field]} ∪ seenKeys))
        fieldsWithKeys (∅, ∅) in
    forEach
      (fun field errs =>
         if bool_decide (key field ∈ duplicateKeys)
         then recordError (id field) (js "Duplicate key") errs else errs)
      fieldsWithKeys newErrors
  else newErrors.

(** The body of the recursive [forEach] of [checkDuplicates]. *)
Fixpoint checkDuplicates_in (field : JSONField) (newErrors : gmap jstring jstring)
  : gmap jstring jstring :=
  match children field with
  | Some (c :: cs) =>
      forEach checkDuplicates_in (c :: cs) (markDuplicates (c :: cs) newErrors)
  | _ => newErrors
  end.

Definition checkDuplicates (fieldList : list JSONField)
  (newErrors : gmap jstring jstring) : gmap jstring jstring :=
  forEach checkDuplicates_in fieldList (markDuplicates fieldList newErrors).

Record Generated : Type := mkGenerated {
  errors : gmap jstring jstring;
  json : list (jstring * JSON)
}.

Definition generateJSON (fields : list JSONField) : Generated :=
  let '(jsonObject, newErrors) := buildObject fields ∅ in
  mkGenerated (checkDuplicates fields newErrors) jsonObject.

(** *** Collapsing, parents and the flattened view *)

(** The body of the [map] of [updateCollapse] (in [collapseAll] and
    [expandAll]). *)
Fixpoint updateCollapse_in (collapsed : bool) (field : JSONField) : JSONField :=
  mkField (id field) (key field) (value field) (type field) (isEditing field)
    match children field with
    | Some cs => Some (List.map (updateCollapse_in collapsed) cs)
    | None => None
    end
    match type field with
    | Tobject | Tarray => Some collapsed
    | _ => isCollapsed field
    end
    (depth field) (parentId field).

Definition updateCollapse (fieldList : list JSONField) (collapsed : bool)
  : list JSONField :=
  List.map (updateCollapse_in collapsed) fieldList.

Definition collapseAll (fields : list JSONField) : list JSONField :=
  updateCollapse fields true.

Definition expandAll (fields : list JSONField) : list JSONField :=
  updateCollapse fields false.

(** The body of the loop of [findParentField]. *)
Fixpoint findParentField_in (childId : jstring) (field : JSONField)
  : option JSONField :=
  match children field with
  | Some cs =>
      if existsb (fun child => bool_decide (id child = childId)) cs
      then Some field
      else firstFound (findParentField_in childId) cs
  | None => None
  end.

Definition findParentField (childId : jstring) (fieldList : list JSONField)
  : option JSONField :=
  firstFound (findParentField_in childId) fieldList.

(** [{ ...field, depth }]. *)
Definition withDepth (field : JSONField) (d : Z) : JSONField :=
  mkField (id field) (key field) (value field) (type field) (isEditing field)
    (children field) (isCollapsed field) (Some d) (parentId field).

(** [field.isCollapsed] as a condition: absent counts as [false]. *)
Definition collapsed (field : JSONField) : bool :=
  match isCollapsed field with Some b => b | None => false end.

(** The body of the [forEach] of [flatten]: the field with its depth, then
    its children unless it is collapsed. *)
Fixpoint flatten_in (d : Z) (field : JSONField) : list JSONField :=
  withDepth field d ::
  match children field with
  | Some (c :: cs) =>
      if negb (collapsed field) then concatMap (flatten_in (d + 1)) (c :: cs)
      else []
  | _ => []
  end.

Definition flatten (fieldList : list JSONField) (d : Z) : list JSONField :=
  concatMap (flatten_in d) fieldList.

(** [flattenedFields]. *)
Definition flattenedFields (fields : list JSONField) : list JSONField :=
  flatten fields 0.

(** The fields restored from storage on mount: each root field gets the
    properties older versions did not store. *)
Definition enhancedFields (savedFields : list JSONField) : list JSONField :=
  List.map
    (fun field =>
       mkField (id field) (key field) (value field) (type field) (isEditing field)
         (Some (childrenOrEmpty field))
         (Some (match isCollapsed field with Some b => b | None => false end))
         (Some (match depth field with Some d => d | None => 0 end))
         (parentId field))
    savedFields.

End JSONGenerator.

(** ** The field editor ([src/components/json-generator/FieldInput.tsx]) *)

Module FieldInput.

Inductive DropZone : Type := before | after | inside.

(** [handleDrop] of the editor of [field], for the drag item [dragId] and the
    drop zone [dragOver]; [onMove] is the generator's [moveField]. *)
Definition handleDrop (allFields : list JSONField) (field : JSONField)
  (dragOver : option DropZone) (dragId : jstring) : list JSONField :=
  if decide (dragId = id field) then allFields
  else if negb (dragDrop.canDrop dragId (id field) allFields) then allFields
  else
    let isNestableType :=
      bool_decide (type field = Tobject) || bool_decide (type field = Tarray) in
    let targetParentId :=
      match dragOver with
      | Some inside => if isNestableType then Some (id field) else parentId field
      | _ => parentId field
      end in
    JSONGenerator.moveField allFields dragId (id field) targetParentId.

(** The value [handleTypeChange] stores for the new type. *)
Definition defaultValue (newType : FieldType) : jstring :=
  match newType with
  | Tboolean => js "false"
  | Tnumber => js "0"
  | Tnull => []
  | Tobject => js "{}"
  | Tarray => js "[]"
  | Tstring => []
  end.

(** [handleTypeChange] of the editor of the field [fieldId]; [onUpdate] is the
    generator's [updateField] at that id. *)
Definition handleTypeChange (fields : list JSONField) (fieldId : jstring)
  (newType : FieldType) : list JSONField :=
  JSONGenerator.updateField fields fieldId
    (Partial.mk None None (Some (JStr (defaultValue newType))) (Some newType)
       None None None None None).

End FieldInput.

(** ** The preview ([src/components/json-generator/JSONPreview.tsx]) *)

Module JSONPreview.

(** [countDepth(obj, currentDepth)]. *)
Fixpoint countDepth (obj : JSON) (currentDepth : Z) : Z :=
  match obj with
  | JArr items =>
      forEach (fun item maxDepth => Z.max maxDepth (countDepth item (currentDepth + 1)))
        items currentDepth
  | JObj props =>
      forEach (fun p maxDepth => Z.max maxDepth (countDepth (snd p) (currentDepth + 1)))
        props currentDepth
  | _ => currentDepth
  end.

(** [countProperties(obj)]. *)
Fixpoint countProperties (obj : JSON) : Z :=
  match obj with
  | JArr items =>
      forEach (fun item count => count + countProperties item) items
        (Z.of_nat (length items))
  | JObj props =>
      forEach (fun p count => count + countProperties (snd p)) props
        (Z.of_nat (length props))
  | _ => 0
  end.

End JSONPreview.

(** * The vocabulary of the properties *)

(** ** Positions and relations in the tree *)

(** [f] occurs in the forest [fields], at any depth. *)
Inductive InTree (f : JSONField) : list JSONField -> Prop :=
| InTree_here fields : In f fields -> InTree f fields
| InTree_below g fields :
    In g fields -> InTree f (childrenOrEmpty g) -> InTree f fields.

(** [x] is the id of a proper descendant of [f]. *)
Inductive Descendant (f : JSONField) (x : jstring) : Prop :=
| Descendant_child c :
    In c (childrenOrEmpty f) -> id c = x -> Descendant f x
| Descendant_deeper c :
    In c (childrenOrEmpty f) -> Descendant c x -> Descendant f x.

(** The field at a position of the tree: the path lists the index taken in
    each sibling list, from the root list down. *)
Fixpoint fieldAt (fields : list JSONField) (path : list nat) : option JSONField :=
  match path with
  | [] => None
  | i :: rest =>
      match nth_error fields i with
      | Some f =>
          match rest with
          | [] => Some f
          | _ :: _ => fieldAt (childrenOrEmpty f) rest
          end
      | None => None
      end
  end.

(** No field on the way to the position [path] is the target. *)
Fixpoint ancestorsDiffer (target : jstring) (fields : list JSONField)
  (path : list nat) : Prop :=
  match path with
  | [] => True
  | i :: rest =>
      match rest, nth_error fields i with
      | _ :: _, Some g =>
          id g <> target /\ ancestorsDiffer target (childrenOrEmpty g) rest
      | _, _ => True
      end
  end.

(** The children of [f] carry their positions as keys: ["0"], ["1"], ... *)
Definition positionalKeys (f : JSONField) : Prop :=
  List.map key (childrenOrEmpty f)
  = List.map index_toString (seq 0 (length (childrenOrEmpty f))).

(** ** Duplicate keys and converted values *)

(** [group] is a sibling list of the forest [fields]: the root list, or a
    sibling list of the subtree below one of its fields. *)
Inductive SiblingGroup : list JSONField -> list JSONField -> Prop :=
| SiblingGroup_root fields : SiblingGroup fields fields
| SiblingGroup_below fields f group :
    In f fields -> SiblingGroup (childrenOrEmpty f) group -> SiblingGroup fields group.

(** The number of fields of a sibling list that carry the key [k]. *)
Definition sameKeyCount (group : list JSONField) (k : jstring) : nat :=
  length (List.filter (fun g => bool_decide (key g = k)) group).

(** [f] has a non-blank key that another field of its sibling list shares. *)
Definition sharesKey (group : list JSONField) (f : JSONField) : Prop :=
  truthy (trim (key f)) = true /\ (2 <= sameKeyCount group (key f))%nat.

(** Some field with id [x] shares its key within its sibling list. *)
Definition DuplicateIn (fields : list JSONField) (x : jstring) : Prop :=
  exists group f, SiblingGroup fields group /\ In f group /\ id f = x /\
                  sharesKey group f.

(** [f.key.trim()] is truthy. *)
Definition nonblank (f : JSONField) : bool := truthy (trim (key f)).

(** The state [e'] holds [Duplicate key] under [x] only if [e] did. *)
Definition addsNoDuplicate (x : jstring) (e e' : gmap jstring jstring) : Prop :=
  e' !! x = Some (js "Duplicate key") -> e !! x = Some (js "Duplicate key").

(** The value synthesis gives a field: its entry in the synthesis of the tree
    that holds this field alone, if it has one. *)
Definition standaloneValue (f : JSONField) : option JSON :=
  getProperty (key f) (JSONGenerator.json (JSONGenerator.generateJSON [f])).

(** ** Sanitized code units and sample trees *)

(** What [sanitizeKey] puts in the place of a code unit. *)
Definition sanitizeChar (c : N) : N := if isIdentPart c then c else 95%N.

(** A field without children and a field with children, as [addField] and
    the editor build them (string value, [children] present). *)
Definition leaf (i k : string) (t : FieldType) (v : string) : JSONField :=
  mkField (js i) (js k) (JStr (js v)) t None (Some []) (Some false) (Some 0) None.

Definition branch (i k : string) (t : FieldType) (cs : list JSONField) : JSONField :=
  mkField (js i) (js k) (JStr []) t None (Some cs) (Some false) (Some 0) None.

(** ** Ids in depth-first order, and the data synthesis reads *)

(** The ids of a field and of the fields below it, parents first. *)
Fixpoint allIds_in (f : JSONField) : list jstring :=
  id f :: match children f with
          | Some cs => concatMap allIds_in cs
          | None => []
          end.

Definition allIds (fields : list JSONField) : list jstring :=
  concatMap allIds_in fields.

(** A field reduced to its id, key, value, type and children: the editing
    flag, the collapse state, the depth and the parent id are dropped, and
    absent children count as none. *)
Fixpoint dataOf (f : JSONField) : JSONField :=
  mkField (id f) (key f) (value f) (type f) None
    (Some match children f with
          | Some cs => List.map dataOf cs
          | None => []
          end)
    None None None.

(** The number of values in a JSON value, itself included. *)
Fixpoint valueCount (v : JSON) : nat :=
  match v with
  | JArr items => S (list_sum (List.map valueCount items))
  | JObj props => S (list_sum (List.map (fun p => valueCount (snd p)) props))
  | _ => 1
  end.

(** ** Ids under removal and insertion, levels and recorded messages *)

(** What the removal of [target] does to the ids of a forest. *)
Definition removalOfIds (target : jstring) (l : list JSONField) : Prop :=
  ~ In target (allIds (dragDrop.removeField l target)) /\
  incl (allIds (dragDrop.removeField l target)) (allIds l) /\
  (~ In target (allIds l) -> allIds (dragDrop.removeField l target) = allIds l).

(** With distinct ids, the ids of the tree are those of the field found under
    [target] and those of the tree without it. *)
Definition detaches (target : jstring) (l : list JSONField) : Prop :=
  forall found,
    NoDup (allIds l) -> dragDrop.findField l target = Some found ->
    Permutation (allIds l)
      (allIds_in found ++ allIds (dragDrop.removeField l target)).

(** With distinct ids, inserting under a parent id that the forest has adds
    the ids of the inserted field, once. *)
Definition attaches (x : JSONField) (index : nat) (pid : jstring)
  (l : list JSONField) : Prop :=
  NoDup (allIds l) -> In pid (allIds l) ->
  Permutation (allIds (List.map (dragDrop.insertField_in x index pid) l))
    (allIds_in x ++ allIds l).

(** The nesting levels of the fields of a forest, in the order of
    [allIds]. *)
Fixpoint levels_in (n : Z) (f : JSONField) : list Z :=
  n :: match children f with
       | Some cs => concatMap (levels_in (n + 1)) cs
       | None => []
       end.

Definition levels (fields : list JSONField) (n : Z) : list Z :=
  concatMap (levels_in n) fields.



(** * Properties *)

(** ** Reasoning principles for the field tree *)

(** Induction on a field with the property assumed for its children. *)
Lemma JSONField_tree_ind (P : JSONField -> Prop) :
  (forall field, Forall P (childrenOrEmpty field) -> P field) ->
  forall field, P field.
Proof.
  intros step. fix IH 1. intros [i k v t e cs c d p].
  apply step. unfold childrenOrEmpty; simpl.
  destruct cs as [cs|]; [|constructor].
  induction cs as [|child cs IHcs]; constructor; [apply IH | exact IHcs].
Qed.

Lemma children_childrenOrEmpty field cs :
  children field = Some cs -> childrenOrEmpty field = cs.
Proof. unfold childrenOrEmpty. now intros ->. Qed.

(** ** Unfolding the loops *)

Lemma firstFound_cons {A B} (body : A -> option B) a l :
  firstFound body (a :: l) =
  match body a with Some b => Some b | None => firstFound body l end.
Proof. reflexivity. Qed.

Lemma firstFound_Some {A B} (body : A -> option B) l b :
  firstFound body l = Some b -> exists a, In a l /\ body a = Some b.
Proof.
  induction l as [|a l IH]; simpl; [discriminate|].
  destruct (body a) eqn:E.
  - intros [= <-]. eauto.
  - intros H. destruct (IH H) as (a' & ? & ?). eauto.
Qed.

Lemma firstFound_None {A B} (body : A -> option B) l :
  firstFound body l = None <-> Forall (fun a => body a = None) l.
Proof.
  induction l as [|a l IH]; simpl.
  - split; [constructor | reflexivity].
  - destruct (body a) eqn:E.
    + split; [discriminate | inversion 1; congruence].
    + rewrite IH. split; [now constructor | now inversion 1].
Qed.

Lemma filterMap_spec {A B} (keep : A -> bool) (body : A -> B) l :
  filterMap keep body l = List.map body (List.filter keep l).
Proof.
  induction l as [|a l IH]; simpl; [reflexivity|].
  destruct (keep a); simpl; now rewrite IH.
Qed.

Lemma forEach_cons {A S} (body : A -> S -> S) a l s :
  forEach body (a :: l) s = forEach body l (body a s).
Proof. reflexivity. Qed.

Lemma forEach_app {A S} (body : A -> S -> S) l1 l2 s :
  forEach body (l1 ++ l2) s = forEach body l2 (forEach body l1 s).
Proof. revert s. induction l1 as [|a l1 IH]; simpl; intros; [reflexivity | apply IH]. Qed.

Lemma findField_in_unfold target field :
  dragDrop.findField_in target field =
  if decide (id field = target) then Some field
  else match children field with
       | Some cs => dragDrop.findField cs target
       | None => None
       end.
Proof. destruct field; reflexivity. Qed.

Lemma isDescendant_unfold parentField childId :
  dragDrop.isDescendant parentField childId =
  match children parentField with
  | None => false
  | Some cs =>
      existsb (fun child => bool_decide (id child = childId)
                            || dragDrop.isDescendant child childId) cs
  end.
Proof. destruct parentField; reflexivity. Qed.

(** ** The lookups of the drag-and-drop engine *)

Lemma findField_in_Some target :
  forall field f, dragDrop.findField_in target field = Some f ->
    id f = target /\ (f = field \/ InTree f (childrenOrEmpty field)).
Proof.
  induction field as [field IH] using JSONField_tree_ind. intros f.
  rewrite findField_in_unfold. destruct (decide (id field = target)) as [E|NE].
  - intros [= <-]. auto.
  - destruct (children field) as [cs|] eqn:Ecs; [|discriminate].
    rewrite (children_childrenOrEmpty _ _ Ecs) in *.
    intros H. apply firstFound_Some in H as (c & Hc & H).
    rewrite List.Forall_forall in IH.
    destruct (IH c Hc f H) as [Hid [-> | Hin]]; (split; [exact Hid|right]).
    + now constructor.
    + now apply InTree_below with (g := c).
Qed.

(** What [findField] finds is a field of the tree that carries the id. *)
Lemma findField_Some fields target f :
  dragDrop.findField fields target = Some f -> id f = target /\ InTree f fields.
Proof.
  intros H. apply firstFound_Some in H as (g & Hg & H).
  apply findField_in_Some in H as [Hid [-> | Hin]]; split; auto.
  - now constructor.
  - now apply InTree_below with (g := g).
Qed.

Lemma InTree_forest_ind (P : JSONField -> Prop) fields :
  Forall (fun g => P g /\ forall f, InTree f (childrenOrEmpty g) -> P f) fields ->
  forall f, InTree f fields -> P f.
Proof.
  rewrite List.Forall_forall. intros H f Hf.
  inversion Hf as [fs Hin | g fs Hg Hbelow]; subst.
  - now apply H.
  - now apply (H g Hg).
Qed.

Lemma findField_in_None target :
  forall field, dragDrop.findField_in target field = None ->
    id field <> target /\
    forall f, InTree f (childrenOrEmpty field) -> id f <> target.
Proof.
  induction field as [field IH] using JSONField_tree_ind.
  rewrite findField_in_unfold. destruct (decide (id field = target)) as [E|NE];
    [discriminate|].
  intros H. split; [exact NE|].
  destruct (children field) as [cs|] eqn:Ecs.
  - rewrite (children_childrenOrEmpty _ _ Ecs) in *.
    apply firstFound_None in H.
    apply InTree_forest_ind.
    rewrite List.Forall_forall in *. intros g Hg. now apply IH, H.
  - unfold childrenOrEmpty; rewrite Ecs. intros f Hf.
    inversion Hf; subst; simpl in *; tauto.
Qed.

(** [findField] fails only when no field of the tree carries the id. *)
Lemma findField_None fields target :
  dragDrop.findField fields target = None ->
  forall f, InTree f fields -> id f <> target.
Proof.
  intros H. apply firstFound_None in H. apply InTree_forest_ind.
  rewrite List.Forall_forall in *. intros g Hg. now apply findField_in_None, H.
Qed.

(** The boolean walk of [isDescendant] decides the descendant relation. *)
Lemma isDescendant_spec childId :
  forall parentField,
    dragDrop.isDescendant parentField childId = true <-> Descendant parentField childId.
Proof.
  induction parentField as [field IH] using JSONField_tree_ind.
  rewrite isDescendant_unfold. rewrite List.Forall_forall in IH.
  unfold childrenOrEmpty in IH.
  split.
  - destruct (children field) as [cs|] eqn:Ecs; [|discriminate].
    rewrite existsb_exists. intros (c & Hc & H).
    apply orb_true_iff in H as [H | H].
    + apply bool_decide_eq_true in H.
      apply Descendant_child with (c := c); [|exact H].
      now rewrite (children_childrenOrEmpty _ _ Ecs).
    + apply Descendant_deeper with (c := c).
      * now rewrite (children_childrenOrEmpty _ _ Ecs).
      * now apply IH.
  - intros H.
    destruct H as [c Hc Hid | c Hc Hd]; unfold childrenOrEmpty in Hc;
      (destruct (children field) as [cs|] eqn:Ecs; [|destruct Hc]);
      rewrite existsb_exists; exists c; (split; [exact Hc|]);
      apply orb_true_iff.
    + left. now apply bool_decide_eq_true.
    + right. now apply IH.
Qed.

Lemma canDrop_false (dragId hoverId : jstring) (fields : list JSONField) :
  dragDrop.canDrop dragId hoverId fields = false <->
  dragId = hoverId \/
  exists dragField, dragDrop.findField fields dragId = Some dragField /\
                    Descendant dragField hoverId.
Proof.
  unfold dragDrop.canDrop.
  destruct (decide (dragId = hoverId)) as [E|NE]; [tauto|].
  destruct (dragDrop.findField fields dragId) as [d|] eqn:Ef.
  - rewrite negb_false_iff, isDescendant_spec. split.
    + intros Hd. right. now exists d.
    + intros [E | (d' & [= <-] & Hd)]; [contradiction | exact Hd].
  - split; [discriminate|].
    intros [E | (d' & [=] & _)]. contradiction.
Qed.

(** A field found below [c] carries the id of a descendant of [c]. *)
Lemma InTree_Descendant f :
  forall fields, InTree f fields ->
  forall c, fields = childrenOrEmpty c -> Descendant c (id f).
Proof.
  induction 1 as [fields Hin | g fields Hg _ IH]; intros c ->.
  - now apply Descendant_child with (c := f).
  - apply Descendant_deeper with (c := g); [exact Hg | now apply IH].
Qed.

Lemma fst_findFieldWithPath_in target :
  forall field path,
    option_map fst (dragDrop.findFieldWithPath_in target path field) =
    dragDrop.findField_in target field.
Proof.
  induction field as [field IH] using JSONField_tree_ind. intros path.
  rewrite findField_in_unfold.
  replace (dragDrop.findFieldWithPath_in target path field) with
    (if decide (id field = target) then Some (field, path)
     else match children field with
          | Some cs => firstFound
                         (dragDrop.findFieldWithPath_in target (path ++ [id field])) cs
          | None => None
          end) by (destruct field; reflexivity).
  destruct (decide (id field = target)); [reflexivity|].
  destruct (children field) as [cs|] eqn:Ecs; [|reflexivity].
  rewrite (children_childrenOrEmpty _ _ Ecs) in IH. unfold dragDrop.findField.
  clear Ecs. induction IH as [|c cs Hc _ IHcs]; [reflexivity|].
  rewrite !firstFound_cons, <- (Hc (path ++ [id field])).
  destruct (dragDrop.findFieldWithPath_in target (path ++ [id field]) c);
    [reflexivity | exact IHcs].
Qed.

(** The field [findFieldWithPath] returns is the one [findField] returns. *)
Lemma fst_findFieldWithPath fields target path :
  fst (dragDrop.findFieldWithPath fields target path) =
  dragDrop.findField fields target.
Proof.
  unfold dragDrop.findFieldWithPath, dragDrop.findField.
  induction fields as [|f fields IH]; [reflexivity|].
  rewrite !firstFound_cons, <- (fst_findFieldWithPath_in target f path).
  destruct (dragDrop.findFieldWithPath_in target path f) as [[g p]|];
    [reflexivity | exact IH].
Qed.

Lemma moveField_unfold fields dragId hoverId hoverParentId :
  dragDrop.moveField fields dragId hoverId hoverParentId =
  match dragDrop.findField fields dragId, dragDrop.findField fields hoverId with
  | Some dragField, Some _ =>
      dragDrop.insertField (dragDrop.removeField fields dragId) dragField
        (dragDrop.findInsertIndex (dragDrop.removeField fields dragId)
           hoverId hoverParentId)
        hoverParentId
  | _, _ => fields
  end.
Proof.
  unfold dragDrop.moveField. now rewrite !fst_findFieldWithPath.
Qed.

(** ** The drag-and-drop engine *)

(** C9. [canDrop] returns [false] exactly when the two ids are equal, or when
    the field that [dragId] resolves to (the one [findField] returns, a field
    of the tree carrying that id) has [hoverId] among its descendants; in
    particular it returns [true] when the ids differ and [dragId] resolves to
    no field. *)
Theorem canDrop_false_iff (dragId hoverId : jstring) (fields : list JSONField) :
  (dragDrop.canDrop dragId hoverId fields = false <->
   dragId = hoverId \/
   exists dragField, dragDrop.findField fields dragId = Some dragField /\
                     id dragField = dragId /\ InTree dragField fields /\
                     Descendant dragField hoverId) /\
  (dragId <> hoverId -> dragDrop.findField fields dragId = None ->
   (forall f, InTree f fields -> id f <> dragId) /\
   dragDrop.canDrop dragId hoverId fields = true).
Proof.
  split.
  - rewrite canDrop_false. split.
    + intros [E | (d & Ef & Hd)]; [now left | right].
      exists d. destruct (findField_Some _ _ _ Ef). auto.
    + intros [E | (d & Ef & _ & _ & Hd)]; [now left | right]. now exists d.
  - intros NE Hnone. split; [now apply findField_None|].
    unfold dragDrop.canDrop.
    destruct (decide (dragId = hoverId)); [contradiction|]. now rewrite Hnone.
Qed.

(** C1, as the claim states it, fails: [moveField] called with the dragged id
    as drop target, or with a descendant of the dragged field as drop target,
    detaches the field and reinserts it, and the tree changes. *)
Lemma moveField_self_or_descendant_drop_moves :
  (dragDrop.moveField [leaf "a" "x" Tstring ""; leaf "b" "y" Tstring ""]
     (js "a") (js "a") None
   = [leaf "b" "y" Tstring ""; leaf "a" "x" Tstring ""] /\
   dragDrop.moveField [leaf "a" "x" Tstring ""; leaf "b" "y" Tstring ""]
     (js "a") (js "a") None
   <> [leaf "a" "x" Tstring ""; leaf "b" "y" Tstring ""]) /\
  (Descendant (branch "a" "x" Tobject [leaf "b" "y" Tstring ""]) (js "b") /\
   dragDrop.moveField
     [branch "a" "x" Tobject [leaf "b" "y" Tstring ""]; leaf "c" "z" Tstring ""]
     (js "a") (js "b") None
   = [leaf "c" "z" Tstring ""; branch "a" "x" Tobject [leaf "b" "y" Tstring ""]] /\
   dragDrop.moveField
     [branch "a" "x" Tobject [leaf "b" "y" Tstring ""]; leaf "c" "z" Tstring ""]
     (js "a") (js "b") None
   <> [branch "a" "x" Tobject [leaf "b" "y" Tstring ""]; leaf "c" "z" Tstring ""]).
Proof.
  split; [split; [reflexivity | discriminate]|].
  split; [|split; [reflexivity | discriminate]].
  apply Descendant_child with (c := leaf "b" "y" Tstring ""); [now left | reflexivity].
Qed.

(** C1, amended. The rejection lives in the drop handler: when the dragged id
    is the id of the drop target, or the drop target is a descendant of the
    dragged field, [handleDrop] (which asks [canDrop] before it calls
    [moveField]) returns the tree unchanged, whatever the drop zone. *)
Theorem handleDrop_rejects_self_and_descendants
  (allFields : list JSONField) (field : JSONField)
  (dragOver : option FieldInput.DropZone) (dragId : jstring) :
  dragId = id field \/
  (exists dragField, dragDrop.findField allFields dragId = Some dragField /\
                     Descendant dragField (id field)) ->
  FieldInput.handleDrop allFields field dragOver dragId = allFields.
Proof.
  intros H. unfold FieldInput.handleDrop.
  destruct (decide (dragId = id field)); [reflexivity|].
  apply canDrop_false in H. now rewrite H.
Qed.

(** An instance: dropping a field onto its own child changes nothing. *)
Lemma handleDrop_rejects_witness :
  Descendant (branch "a" "x" Tobject [leaf "b" "y" Tstring ""]) (js "b") /\
  FieldInput.handleDrop
    [branch "a" "x" Tobject [leaf "b" "y" Tstring ""]; leaf "c" "z" Tstring ""]
    (leaf "b" "y" Tstring "") (Some FieldInput.before) (js "a")
  = [branch "a" "x" Tobject [leaf "b" "y" Tstring ""]; leaf "c" "z" Tstring ""].
Proof.
  assert (Hd : Descendant (branch "a" "x" Tobject [leaf "b" "y" Tstring ""]) (js "b")).
  { apply Descendant_child with (c := leaf "b" "y" Tstring "");
      [now left | reflexivity]. }
  split; [exact Hd|].
  apply (handleDrop_rejects_self_and_descendants
           [branch "a" "x" Tobject [leaf "b" "y" Tstring ""]; leaf "c" "z" Tstring ""]
           (leaf "b" "y" Tstring "") (Some FieldInput.before) (js "a")).
  right. exists (branch "a" "x" Tobject [leaf "b" "y" Tstring ""]).
  split; [reflexivity | exact Hd].
Defined.

(** ** The root list never becomes empty *)

Lemma splice_insert_not_nil {A} (l : list A) start x : splice_insert l start x <> [].
Proof. unfold splice_insert. now destruct (firstn _ l). Qed.

Lemma map_not_nil {A B} (f : A -> B) l : l <> [] -> List.map f l <> [].
Proof. now destruct l. Qed.

Lemma insertField_not_nil fields fieldToInsert index parentId :
  fields <> [] -> dragDrop.insertField fields fieldToInsert index parentId <> [].
Proof.
  intros H. unfold dragDrop.insertField.
  destruct (given parentId); [now apply map_not_nil | apply splice_insert_not_nil].
Qed.

Lemma removeField_nil fields target :
  dragDrop.removeField fields target = [] ->
  Forall (fun f => id f = target) fields.
Proof.
  unfold dragDrop.removeField. rewrite filterMap_spec.
  induction fields as [|f fields IH]; simpl; [constructor|].
  destruct (bool_decide (id f = target)) eqn:E; simpl; [|discriminate].
  apply bool_decide_eq_true in E. intros H. constructor; [exact E | now apply IH].
Qed.

(** With distinct root ids, a drop that [canDrop] accepts leaves a root field
    behind when the dragged field is detached. *)
Lemma removeField_accepted_not_nil fields dragId hoverId hoverField :
  NoDup (List.map id fields) ->
  dragDrop.canDrop dragId hoverId fields = true ->
  dragDrop.findField fields hoverId = Some hoverField ->
  dragDrop.removeField fields dragId <> [].
Proof.
  intros Hnd Hcan Hhover Hnil. apply removeField_nil in Hnil.
  destruct fields as [|r rest]; [discriminate|].
  apply Forall_cons_1 in Hnil as [Hr Hrest].
  assert (rest = []) as ->.
  { destruct rest as [|r' rest]; [reflexivity|]. exfalso.
    apply Forall_cons_1 in Hrest as [Hr' _]. simpl in Hnd.
    apply NoDup_cons_1_1 in Hnd. apply Hnd. rewrite Hr, Hr'. now left. }
  unfold dragDrop.canDrop in Hcan.
  destruct (decide (dragId = hoverId)) as [|NE]; [discriminate|].
  unfold dragDrop.findField in Hcan, Hhover. rewrite firstFound_cons in Hcan, Hhover.
  rewrite findField_in_unfold in Hcan. destruct (decide (id r = dragId)); [|contradiction].
  apply negb_true_iff in Hcan.
  assert (Hd : Descendant r hoverId).
  { destruct (dragDrop.findField_in hoverId r) as [h|] eqn:Eh; [|discriminate].
    apply findField_in_Some in Eh as [Hid [-> | Hin]]; [congruence|].
    rewrite <- Hid. now apply InTree_Descendant with (fields := childrenOrEmpty r). }
  apply isDescendant_spec in Hd. congruence.
Qed.

(** C2, as the claim states it, fails for [moveField]: dropping the only root
    field onto its own child, with that root as new parent, detaches the root
    and finds no parent to reinsert it under; the result is the empty list. *)
Lemma moveField_can_empty_the_tree :
  [branch "a" "x" Tobject [leaf "b" "y" Tstring ""]] <> [] /\
  dragDrop.moveField [branch "a" "x" Tobject [leaf "b" "y" Tstring ""]]
    (js "a") (js "b") (Some (js "a")) = [].
Proof. split; [discriminate | reflexivity]. Qed.

(** C2, amended. From a non-empty root list, [addField], [removeField],
    [updateField] and [toggleCollapse] return a non-empty root list, and
    [removeField] reinstates one blank string field when nothing else is left;
    [moveField] returns a non-empty root list when the root ids are distinct
    and [canDrop] accepts the drop, the condition under which the drop handler
    calls it. *)
Theorem operations_keep_root_nonempty (fields : list JSONField) :
  fields <> [] ->
  (forall newId parentId index,
      JSONGenerator.addField fields newId parentId index <> []) /\
  (forall target newId,
      JSONGenerator.removeField fields target newId <> [] /\
      (JSONGenerator.removeFromFields fields target = [] ->
       JSONGenerator.removeField fields target newId
       = [mkField newId [] (JStr []) Tstring None (Some []) (Some false) (Some 0) None])) /\
  (forall target updates, JSONGenerator.updateField fields target updates <> []) /\
  (forall target, JSONGenerator.toggleCollapse fields target <> []) /\
  (forall dragId hoverId hoverParentId,
      NoDup (List.map id fields) ->
      dragDrop.canDrop dragId hoverId fields = true ->
      JSONGenerator.moveField fields dragId hoverId hoverParentId <> []).
Proof.
  intros Hne. split; [|split; [|split; [|split]]].
  - intros newId parentId index.
    unfold JSONGenerator.addField. destruct (given parentId).
    + now apply map_not_nil.
    + destruct index; [apply splice_insert_not_nil | now destruct fields].
  - intros target newId. unfold JSONGenerator.removeField. split.
    + now destruct (JSONGenerator.removeFromFields fields target).
    + now intros ->.
  - intros target updates. now apply map_not_nil.
  - intros target. now apply map_not_nil.
  - intros dragId hoverId hoverParentId Hnd Hcan.
    unfold JSONGenerator.moveField. rewrite moveField_unfold.
    destruct (dragDrop.findField fields dragId) as [d|]; [|exact Hne].
    destruct (dragDrop.findField fields hoverId) as [h|] eqn:Eh; [|exact Hne].
    apply insertField_not_nil. now apply removeField_accepted_not_nil with hoverId h.
Qed.

(** Instances: removing the only root field reinstates a blank one, and an
    accepted move between two root fields leaves a root field. *)
Lemma operations_keep_root_nonempty_witness :
  JSONGenerator.removeField [leaf "a" "x" Tstring "v"] (js "a") (js "n")
  = [mkField (js "n") [] (JStr []) Tstring None (Some []) (Some false) (Some 0) None]
  /\ JSONGenerator.moveField [leaf "a" "x" Tstring "v"; leaf "b" "y" Tstring "w"]
       (js "a") (js "b") None <> [].
Proof.
  split.
  - apply (operations_keep_root_nonempty [leaf "a" "x" Tstring "v"]);
      [discriminate | reflexivity].
  - apply (operations_keep_root_nonempty
             [leaf "a" "x" Tstring "v"; leaf "b" "y" Tstring "w"]);
      [discriminate | | reflexivity].
    compute_done.
Defined.

(** ** The identifier validator *)

Lemma isIdentPart_not_space c :
  isIdentPart c = true -> isStrWhiteSpaceChar c = false /\ N.eqb 32 c = false.
Proof.
  unfold isIdentPart, isIdentStart, isLower, isUpper, isDigit, isStrWhiteSpaceChar.
  intros H.
  repeat match type of H with
         | (_ || _) = true => apply orb_true_iff in H as [H|H]
         | (_ && _) = true => apply andb_true_iff in H as [? ?]
         end;
    repeat match goal with
           | H : (_ <=? _)%N = true |- _ => apply N.leb_le in H
           | H : (_ =? _)%N = true |- _ => apply N.eqb_eq in H
           end;
    (split;
     [ repeat (apply orb_false_iff; split);
       try (apply andb_false_iff;
            first [ left; apply N.leb_gt; lia | right; apply N.leb_gt; lia ]);
       apply N.eqb_neq; lia
     | apply N.eqb_neq; lia ]).
Qed.

Lemma trimStart_head c s :
  isStrWhiteSpaceChar c = false -> trimStart (c :: s) = c :: s.
Proof. simpl. now intros ->. Qed.

(** [trim] leaves alone a string that neither starts nor ends with white
    space. *)
Lemma trim_ident s : forallb isIdentPart s = true -> trim s = s.
Proof.
  intros H. unfold trim, trimEnd.
  assert (Hs : trimStart s = s).
  { destruct s as [|c s]; [reflexivity|]. simpl in H.
    apply andb_true_iff in H as [Hc _]. apply trimStart_head.
    now apply isIdentPart_not_space. }
  rewrite Hs.
  assert (Hr : trimStart (rev s) = rev s).
  { destruct (rev s) as [|c r] eqn:E; [reflexivity|].
    apply trimStart_head.
    assert (Hin : In c s) by (apply in_rev; rewrite E; now left).
    rewrite forallb_forall in H. now apply isIdentPart_not_space, H. }
  rewrite Hr. apply rev_involutive.
Qed.

Lemma sanitizeChar_part c : isIdentPart (sanitizeChar c) = true.
Proof. unfold sanitizeChar. destruct (isIdentPart c) eqn:E; [exact E | reflexivity]. Qed.

Lemma isIdentPart_cases c :
  isIdentPart c = true -> isDigit c = false -> isIdentStart c = true.
Proof. unfold isIdentPart. intros H Hd. now rewrite Hd, orb_false_r in H. Qed.

(** Every code unit of a sanitized key belongs to the identifier class, and
    the first one is no digit. *)
Lemma sanitizeKey_shape k :
  k <> [] ->
  exists c r, validation.sanitizeKey k = c :: r /\
              isIdentStart c = true /\ forallb isIdentPart r = true.
Proof.
  intros Hk. unfold validation.sanitizeKey.
  destruct k as [|c0 k]; [contradiction|]. simpl.
  fold (sanitizeChar c0).
  assert (Hall : forallb isIdentPart
                   (List.map (fun c => if isIdentPart c then c else 95%N) k) = true).
  { apply forallb_forall. intros c Hc. apply in_map_iff in Hc as (c' & <- & _).
    apply sanitizeChar_part. }
  destruct (isDigit (sanitizeChar c0)) eqn:Ed.
  - exists 95%N, (sanitizeChar c0 :: List.map (fun c => if isIdentPart c then c else 95%N) k).
    repeat split. simpl. now rewrite sanitizeChar_part.
  - exists (sanitizeChar c0), (List.map (fun c => if isIdentPart c then c else 95%N) k).
    repeat split; [|exact Hall].
    apply isIdentPart_cases; [apply sanitizeChar_part | exact Ed].
Qed.

(** C7, as the claim states it, fails on the empty string: [sanitizeKey]
    returns it as it is, and the validator rejects it as an empty key. *)
Lemma sanitizeKey_empty_is_rejected :
  validation.sanitizeKey [] = [] /\
  validation.validateKeyValue (validation.sanitizeKey [])
  = validation.mkResult false (Some (js "Key cannot be empty")).
Proof. split; reflexivity. Qed.

(** C7, amended. For every non-empty string, whatever its code units,
    [sanitizeKey] returns a string that [validateKeyValue] accepts. *)
Theorem sanitizeKey_valid (k : jstring) :
  k <> [] ->
  validation.validateKeyValue (validation.sanitizeKey k)
  = validation.mkResult true None.
Proof.
  intros Hk. destruct (sanitizeKey_shape k Hk) as (c & r & -> & Hc & Hr).
  assert (Hall : forallb isIdentPart (c :: r) = true).
  { simpl. rewrite Hr. unfold isIdentPart. now rewrite Hc. }
  unfold validation.validateKeyValue. rewrite (trim_ident _ Hall). simpl truthy.
  assert (Hsp : includes_space (c :: r) = false).
  { unfold includes_space. apply not_true_is_false. intros H.
    apply existsb_exists in H as (x & Hx & H).
    rewrite forallb_forall in Hall.
    destruct (isIdentPart_not_space x (Hall x Hx)). congruence. }
  rewrite Hsp. simpl. now rewrite Hc, Hr.
Qed.

(** An instance: a key that starts with a digit and holds a space and a mark. *)
Lemma sanitizeKey_valid_witness :
  validation.sanitizeKey (js "9 lives!") = js "_9_lives_" /\
  validation.validateKeyValue (validation.sanitizeKey (js "9 lives!"))
  = validation.mkResult true None.
Proof.
  split; [reflexivity|]. apply (sanitizeKey_valid (js "9 lives!")). discriminate.
Defined.

(** ** Renumbering of array children *)

Lemma removeFromFields_in_unfold target field :
  JSONGenerator.removeFromFields_in target field =
  let updatedChildren :=
    match children field with
    | Some cs => JSONGenerator.removeFromFields cs target
    | None => []
    end in
  if decide (type field = Tarray)
  then withChildren field
         (mapIndex (fun index child => withKey child (index_toString index))
            updatedChildren)
  else withChildren field updatedChildren.
Proof. destruct field; reflexivity. Qed.

Lemma mapIndexFrom_keys n l :
  List.map key (mapIndexFrom (fun index child => withKey child (index_toString index)) n l)
  = List.map index_toString (seq n (length l)).
Proof.
  revert n. induction l as [|c l IH]; intros n; simpl; [reflexivity|].
  now rewrite IH.
Qed.

Lemma mapIndexFrom_length {A B} (body : nat -> A -> B) n l :
  length (mapIndexFrom body n l) = length l.
Proof. revert n. induction l as [|a l IH]; intros n; simpl; [reflexivity | now rewrite IH]. Qed.

Lemma mapIndexFrom_In {A B} (body : nat -> A -> B) n l y :
  In y (mapIndexFrom body n l) -> exists i x, In x l /\ y = body i x.
Proof.
  revert n. induction l as [|a l IH]; intros n; simpl; [tauto|].
  intros [<- | H]; [now eauto|]. destruct (IH _ H) as (i & x & ? & ?). eauto.
Qed.

(** Every array field in the subtree that [removeFromFields] builds from one
    field has positional keys. *)
Lemma removeFromFields_in_positional target :
  forall field,
    let r := JSONGenerator.removeFromFields_in target field in
    (type r = Tarray -> positionalKeys r) /\
    (forall f, InTree f (childrenOrEmpty r) -> type f = Tarray -> positionalKeys f).
Proof.
  induction field as [field IH] using JSONField_tree_ind.
  rewrite removeFromFields_in_unfold.
  set (updatedChildren := match children field with
                          | Some cs => JSONGenerator.removeFromFields cs target
                          | None => []
                          end).
  assert (Hupd : Forall (fun g => (type g = Tarray -> positionalKeys g) /\
                                  forall f, InTree f (childrenOrEmpty g) ->
                                            type f = Tarray -> positionalKeys f)
                   updatedChildren).
  { subst updatedChildren. unfold childrenOrEmpty in IH.
    destruct (children field) as [cs|]; [|constructor].
    unfold JSONGenerator.removeFromFields. rewrite filterMap_spec.
    apply List.Forall_forall. intros g Hg.
    apply in_map_iff in Hg as (c & <- & Hc). apply filter_In in Hc as [Hc _].
    rewrite List.Forall_forall in IH. exact (IH c Hc). }
  cbv zeta. destruct (decide (type field = Tarray)) as [Ea|Na].
  - split.
    + intros _. unfold positionalKeys, childrenOrEmpty, withChildren; simpl.
      unfold mapIndex. now rewrite mapIndexFrom_keys, mapIndexFrom_length.
    + unfold childrenOrEmpty at 1, withChildren; simpl.
      apply (InTree_forest_ind (fun f => type f = Tarray -> positionalKeys f)).
      apply List.Forall_forall. intros g Hg.
      apply mapIndexFrom_In in Hg as (i & c & Hc & ->).
      rewrite List.Forall_forall in Hupd. exact (Hupd c Hc).
  - split.
    + intros Ht. simpl in Ht. contradiction.
    + unfold childrenOrEmpty at 1, withChildren; simpl.
      now apply (InTree_forest_ind (fun f => type f = Tarray -> positionalKeys f)).
Qed.

(** C8. After [removeField], every array field of the resulting tree --
    whether or not the removal touched its children -- has children whose
    keys are their zero-based positions, in order. *)
Theorem removeField_renumbers_every_array
  (fields : list JSONField) (target newId : jstring) (f : JSONField) :
  InTree f (JSONGenerator.removeField fields target newId) ->
  type f = Tarray ->
  List.map key (childrenOrEmpty f)
  = List.map index_toString (seq 0 (length (childrenOrEmpty f))).
Proof.
  revert f.
  apply (InTree_forest_ind (fun f => type f = Tarray -> positionalKeys f)).
  unfold JSONGenerator.removeField.
  destruct (JSONGenerator.removeFromFields fields target) as [|g gs] eqn:E.
  - constructor; [|constructor]. split; [discriminate|].
    intros f Hf. inversion Hf; subst; simpl in *; tauto.
  - rewrite <- E. unfold JSONGenerator.removeFromFields. rewrite filterMap_spec.
    apply List.Forall_forall. intros r Hr.
    apply in_map_iff in Hr as (c & <- & _).
    apply (removeFromFields_in_positional target c).
Qed.

(** An instance: the second array, which the removal does not touch, is
    renumbered as well. *)
Lemma removeField_renumbers_witness :
  JSONGenerator.removeField
    [branch "t" "tags" Tarray [leaf "x" "" Tstring "x"; leaf "y" "" Tstring "y"];
     branch "u" "other" Tarray [leaf "z" "stale" Tstring "z"]]
    (js "x") (js "n")
  = [branch "t" "tags" Tarray [leaf "y" "0" Tstring "y"];
     branch "u" "other" Tarray [leaf "z" "0" Tstring "z"]]
  /\ List.map key (childrenOrEmpty (branch "u" "other" Tarray [leaf "z" "0" Tstring "z"]))
     = List.map index_toString
         (seq 0 (length (childrenOrEmpty
                           (branch "u" "other" Tarray [leaf "z" "0" Tstring "z"])))).
Proof.
  split; [reflexivity|].
  apply (removeField_renumbers_every_array
           [branch "t" "tags" Tarray [leaf "x" "" Tstring "x"; leaf "y" "" Tstring "y"];
            branch "u" "other" Tarray [leaf "z" "stale" Tstring "z"]]
           (js "x") (js "n")).
  - apply InTree_here. right. left. reflexivity.
  - reflexivity.
Defined.

(** ** Updates *)

Lemma updateInFields_in_unfold target updates field :
  JSONGenerator.updateInFields_in target updates field =
  if decide (id field = target) then JSONGenerator.updatedField field updates
  else match children field with
       | Some cs => withChildren field (JSONGenerator.updateField cs target updates)
       | None => field
       end.
Proof. destruct field; reflexivity. Qed.

Lemma updatedField_children field updates :
  Partial.children updates = None ->
  childrenOrEmpty (JSONGenerator.updatedField field updates) = childrenOrEmpty field.
Proof.
  intros Hc. unfold JSONGenerator.updatedField, spread, childrenOrEmpty. rewrite Hc.
  simpl. destruct (Partial.type updates) as [[]|], (children field); reflexivity.
Qed.

Lemma updateInFields_in_children_other target updates field :
  id field <> target ->
  childrenOrEmpty (JSONGenerator.updateInFields_in target updates field)
  = JSONGenerator.updateField (childrenOrEmpty field) target updates.
Proof.
  intros Hid. rewrite updateInFields_in_unfold.
  destruct (decide (id field = target)); [contradiction|].
  unfold childrenOrEmpty.
  destruct (children field) as [cs|] eqn:E; simpl; rewrite ?E; reflexivity.
Qed.

(** The field at a position after an update: the field that was there, as it
    was or updated by the body of [updateInFields] -- provided the update
    carries no [children], or the position is not below the target. *)
Lemma fieldAt_updateField target updates :
  forall path fields,
    Partial.children updates = None \/ ancestorsDiffer target fields path ->
    match fieldAt fields path with
    | Some f =>
        fieldAt (JSONGenerator.updateField fields target updates) path = Some f \/
        fieldAt (JSONGenerator.updateField fields target updates) path
        = Some (JSONGenerator.updateInFields_in target updates f)
    | None => fieldAt (JSONGenerator.updateField fields target updates) path = None
    end.
Proof.
  induction path as [|i rest IH]; intros fields Hok; [reflexivity|].
  cbn [fieldAt].
  replace (nth_error (JSONGenerator.updateField fields target updates) i)
    with (option_map (JSONGenerator.updateInFields_in target updates)
            (nth_error fields i))
    by (symmetry; apply nth_error_map).
  cbn [ancestorsDiffer] in Hok.
  destruct (nth_error fields i) as [g|]; simpl; [|reflexivity].
  destruct rest as [|j rest]; [now right|].
  destruct (decide (id g = target)) as [E|NE].
  - destruct Hok as [Hc | [Hg _]]; [|contradiction].
    rewrite updateInFields_in_unfold. destruct (decide (id g = target)); [|contradiction].
    rewrite (updatedField_children _ _ Hc).
    destruct (fieldAt (childrenOrEmpty g) (j :: rest)); [now left | reflexivity].
  - rewrite (updateInFields_in_children_other _ _ _ NE).
    apply IH. destruct Hok as [Hc | [_ Hrest]]; [now left | now right].
Qed.

(** C10, as the claim states it, fails for an update that carries
    [children]: the children of the target are replaced, and a field below
    the target, whose id differs from the target's, is no longer in the
    tree. *)
Lemma updateField_children_update_drops_fields :
  fieldAt [branch "p" "x" Tobject [leaf "c" "y" Tstring "v"]] [O; O]
  = Some (leaf "c" "y" Tstring "v") /\
  id (leaf "c" "y" Tstring "v") <> js "p" /\
  fieldAt
    (JSONGenerator.updateField [branch "p" "x" Tobject [leaf "c" "y" Tstring "v"]]
       (js "p") (Partial.mk None None None None None (Some []) None None None))
    [O; O]
  = None.
Proof. split; [reflexivity|]. split; [discriminate | reflexivity]. Qed.

(** C10, amended. [updateField] leaves every field whose id differs from the
    target's at its position, with its id, key, value, type, collapse state
    and the other properties it had, and with as many children -- provided
    the update carries no [children], or the field does not lie below the
    target; and under the same proviso the tree has a field at a position
    after the update exactly when it had one before, so the sibling lists
    keep their lengths and their order. *)
Theorem updateField_frame
  (fields : list JSONField) (target : jstring) (updates : Partial.t)
  (path : list nat) :
  Partial.children updates = None \/ ancestorsDiffer target fields path ->
  (forall f,
      fieldAt fields path = Some f -> id f <> target ->
      exists f',
        fieldAt (JSONGenerator.updateField fields target updates) path = Some f' /\
        id f' = id f /\ key f' = key f /\ value f' = value f /\ type f' = type f /\
        isCollapsed f' = isCollapsed f /\ isEditing f' = isEditing f /\
        depth f' = depth f /\ parentId f' = parentId f /\
        length (childrenOrEmpty f') = length (childrenOrEmpty f)) /\
  (fieldAt (JSONGenerator.updateField fields target updates) path = None <->
   fieldAt fields path = None).
Proof.
  intros Hok.
  pose proof (fieldAt_updateField target updates path fields Hok) as H. split.
  - intros f Hf Hid. rewrite Hf in H. destruct H as [H|H].
    + exists f. repeat split; [exact H | reflexivity ..].
    + exists (JSONGenerator.updateInFields_in target updates f).
      split; [exact H|]. rewrite updateInFields_in_unfold.
      destruct (decide (id f = target)); [contradiction|].
      unfold childrenOrEmpty.
      destruct (children f) as [cs|] eqn:E; simpl; rewrite ?E;
        repeat split; try reflexivity.
      apply length_map.
  - destruct (fieldAt fields path) as [f|].
    + split; [|discriminate]. destruct H as [H|H]; rewrite H; discriminate.
    + now split.
Qed.

(** An instance: renaming the key of a child leaves its parent and the
    parent's sibling as they were. *)
Lemma updateField_frame_witness :
  fieldAt
    (JSONGenerator.updateField
       [branch "p" "x" Tobject [leaf "c" "y" Tstring "v"]; leaf "d" "z" Tnumber "1"]
       (js "c")
       (Partial.mk None (Some (js "renamed")) None None None None None None None))
    [1%nat]
  = Some (leaf "d" "z" Tnumber "1") /\
  exists f',
    fieldAt
      (JSONGenerator.updateField
         [branch "p" "x" Tobject [leaf "c" "y" Tstring "v"]; leaf "d" "z" Tnumber "1"]
         (js "c")
         (Partial.mk None (Some (js "renamed")) None None None None None None None))
      [O] = Some f' /\
    id f' = js "p" /\ key f' = js "x" /\ value f' = JStr [] /\ type f' = Tobject /\
    isCollapsed f' = Some false /\ isEditing f' = None /\
    depth f' = Some 0 /\ parentId f' = None /\
    length (childrenOrEmpty f') = 1%nat.
Proof.
  split; [reflexivity|].
  apply (proj1
           (updateField_frame
              [branch "p" "x" Tobject [leaf "c" "y" Tstring "v"];
               leaf "d" "z" Tnumber "1"]
              (js "c")
              (Partial.mk None (Some (js "renamed")) None None None None None None None)
              [O] (or_introl eq_refl))
           (branch "p" "x" Tobject [leaf "c" "y" Tstring "v"])).
  - reflexivity.
  - discriminate.
Defined.

(** ** Retyping a field *)

Lemma findInFields_in_unfold target field :
  JSONGenerator.findInFields_in target field =
  if decide (id field = target) then Some field
  else match children field with
       | Some (c :: cs) => JSONGenerator.getFieldById (c :: cs) target
       | _ => None
       end.
Proof. destruct field; reflexivity. Qed.

Lemma firstFound_map_commute {A B} (body : A -> option B) (g : A -> A) (h : B -> B) l :
  Forall (fun a => body (g a) = option_map h (body a)) l ->
  firstFound body (List.map g l) = option_map h (firstFound body l).
Proof.
  induction 1 as [|a l E _ IH]; [reflexivity|].
  cbn [List.map]. rewrite !firstFound_cons, E.
  destruct (body a); [reflexivity | exact IH].
Qed.

Lemma updatedField_id field updates :
  Partial.id updates = None -> id (JSONGenerator.updatedField field updates) = id field.
Proof.
  intros Hi. unfold JSONGenerator.updatedField, spread. rewrite Hi. simpl.
  destruct (Partial.type updates) as [[]|],
    (Partial.overOpt (Partial.children updates) (children field)); reflexivity.
Qed.

(** An update that keeps ids is seen by [getFieldById] where the field was. *)
Lemma findInFields_in_update target updates :
  Partial.id updates = None ->
  forall field,
    JSONGenerator.findInFields_in target
      (JSONGenerator.updateInFields_in target updates field)
    = option_map (fun f => JSONGenerator.updatedField f updates)
        (JSONGenerator.findInFields_in target field).
Proof.
  intros Hi. induction field as [field IH] using JSONField_tree_ind.
  rewrite updateInFields_in_unfold, (findInFields_in_unfold target field).
  destruct (decide (id field = target)) as [E|NE].
  - rewrite findInFields_in_unfold, (updatedField_id _ _ Hi).
    now destruct (decide (id field = target)).
  - unfold childrenOrEmpty in IH.
    destruct (children field) as [cs|] eqn:Ecs.
    + rewrite findInFields_in_unfold. cbn [withChildren id children].
      destruct (decide (id field = target)); [contradiction|].
      destruct cs as [|c cs]; [reflexivity|].
      unfold JSONGenerator.updateField. cbn [List.map].
      change (JSONGenerator.updateInFields_in target updates c
              :: List.map (JSONGenerator.updateInFields_in target updates) cs)
        with (List.map (JSONGenerator.updateInFields_in target updates) (c :: cs)).
      exact (firstFound_map_commute _ _ _ _ IH).
    + rewrite findInFields_in_unfold, Ecs.
      now destruct (decide (id field = target)).
Qed.

Lemma getFieldById_update fields target updates :
  Partial.id updates = None ->
  JSONGenerator.getFieldById (JSONGenerator.updateField fields target updates) target
  = option_map (fun f => JSONGenerator.updatedField f updates)
      (JSONGenerator.getFieldById fields target).
Proof.
  intros Hi. apply firstFound_map_commute, List.Forall_forall.
  intros f _. now apply findInFields_in_update.
Qed.

(** C6, as the claim states it, fails: [updateField] merges what the update
    holds and nothing else, so an update of the type alone leaves the value as
    it was. *)
Lemma updateField_type_only_keeps_value :
  JSONGenerator.updateField [leaf "f" "k" Tstring "hello"] (js "f")
    (Partial.mk None None None (Some Tnumber) None None None None None)
  = [leaf "f" "k" Tnumber "hello"].
Proof. reflexivity. Qed.

(** C6, amended. The reset is made by the editor: [handleTypeChange] sends
    [updateField] the new type together with the default value for it -- the
    strings [""] for string, ["0"] for number, ["false"] for boolean, [""]
    for null, ["{}"] for object and ["[]"] for array, whether or not the
    field has children -- and the field then carries both. *)
Theorem handleTypeChange_resets_value
  (fields : list JSONField) (fieldId : jstring) (newType : FieldType)
  (f : JSONField) :
  JSONGenerator.getFieldById fields fieldId = Some f ->
  exists f',
    JSONGenerator.getFieldById
      (FieldInput.handleTypeChange fields fieldId newType) fieldId = Some f' /\
    id f' = id f /\ key f' = key f /\ type f' = newType /\
    value f' = JStr match newType with
                    | Tstring => js ""
                    | Tnumber => js "0"
                    | Tboolean => js "false"
                    | Tnull => js ""
                    | Tobject => js "{}"
                    | Tarray => js "[]"
                    end.
Proof.
  intros Hf. unfold FieldInput.handleTypeChange.
  rewrite getFieldById_update by reflexivity. rewrite Hf. simpl.
  eexists. split; [reflexivity|].
  unfold JSONGenerator.updatedField, spread. simpl.
  destruct newType, (children f); repeat split; reflexivity.
Qed.

(** An instance: a string field retyped to number. *)
Lemma handleTypeChange_resets_value_witness :
  FieldInput.handleTypeChange [leaf "f" "k" Tstring "hello"] (js "f") Tnumber
  = [leaf "f" "k" Tnumber "0"] /\
  exists f',
    JSONGenerator.getFieldById
      (FieldInput.handleTypeChange [leaf "f" "k" Tstring "hello"] (js "f") Tnumber)
      (js "f") = Some f' /\
    id f' = js "f" /\ key f' = js "k" /\ type f' = Tnumber /\ value f' = JStr (js "0").
Proof.
  split; [reflexivity|].
  apply (handleTypeChange_resets_value
           [leaf "f" "k" Tstring "hello"] (js "f") Tnumber (leaf "f" "k" Tstring "hello")).
  reflexivity.
Defined.

(** ** Synthesis: duplicate keys *)

(** The two sets of [checkDuplicates] after a pass over [l]: the keys seen,
    and the keys seen more than once. *)
Lemma seen_and_duplicate_keys (k : jstring) :
  forall (l : list JSONField) (duplicateKeys seenKeys : gset jstring),
    let r := forEach
               (fun field '((duplicateKeys, seenKeys) : gset jstring * gset jstring) =>
                  if bool_decide (key field ∈ seenKeys)
                  then ({[key field]} ∪ duplicateKeys, seenKeys)
                  else (duplicateKeys, {[key field]} ∪ seenKeys))
               l (duplicateKeys, seenKeys) in
    (k ∈ r.2 <-> k ∈ seenKeys \/ (1 <= sameKeyCount l k)%nat) /\
    (k ∈ r.1 <-> k ∈ duplicateKeys \/
                 (k ∈ seenKeys /\ (1 <= sameKeyCount l k)%nat) \/
                 (2 <= sameKeyCount l k)%nat).
Proof.
  induction l as [|f l IH]; intros dups seen.
  - simpl. unfold sameKeyCount; simpl. intuition lia.
  - cbv zeta. rewrite forEach_cons.
    assert (Hcount : sameKeyCount (f :: l) k
                     = ((if bool_decide (key f = k) then 1 else 0) + sameKeyCount l k)%nat).
    { unfold sameKeyCount. simpl. now destruct (bool_decide (key f = k)). }
    rewrite Hcount. destruct (bool_decide (key f ∈ seen)) eqn:Es;
      [apply bool_decide_eq_true in Es | apply bool_decide_eq_false in Es].
    + destruct (IH ({[key f]} ∪ dups) seen) as [IH2 IH1]. cbv zeta in IH1, IH2.
      rewrite IH1, IH2. rewrite elem_of_union, elem_of_singleton.
      destruct (bool_decide (key f = k)) eqn:Ek;
        [apply bool_decide_eq_true in Ek; subst k
        | apply bool_decide_eq_false in Ek];
        intuition (first [lia | congruence]).
    + destruct (IH dups ({[key f]} ∪ seen)) as [IH2 IH1]. cbv zeta in IH1, IH2.
      rewrite IH1, IH2. rewrite elem_of_union, elem_of_singleton.
      destruct (bool_decide (key f = k)) eqn:Ek;
        [apply bool_decide_eq_true in Ek; subst k
        | apply bool_decide_eq_false in Ek];
        intuition (first [lia | congruence]).
Qed.

Lemma size_list_to_set_le (keys : list jstring) :
  (size (list_to_set keys : gset jstring) <= length keys)%nat.
Proof.
  induction keys as [|k keys IH].
  - rewrite list_to_set_nil, size_empty. reflexivity.
  - rewrite list_to_set_cons. cbn [length].
    destruct (decide (k ∈ (list_to_set keys : gset jstring))) as [Hin|Hout].
    + assert (E : {[k]} ∪ list_to_set keys = (list_to_set keys : gset jstring))
        by set_solver.
      rewrite E. lia.
    + rewrite size_union by set_solver. rewrite size_singleton. lia.
Qed.

(** [hasDuplicateKeys] answers [false] only for keys that are all different. *)
Lemma hasDuplicateKeys_false (fields : list JSONField) :
  validation.hasDuplicateKeys fields = false -> List.NoDup (List.map key fields).
Proof.
  unfold validation.hasDuplicateKeys. cbv zeta.
  generalize (List.map key fields). intros keys H.
  apply bool_decide_eq_false in H. apply dec_stable in H.
  induction keys as [|k keys IH]; [constructor|].
  rewrite list_to_set_cons in H. cbn [length] in H.
  destruct (decide (k ∈ (list_to_set keys : gset jstring))) as [Hin|Hout].
  - exfalso.
    assert (E : {[k]} ∪ list_to_set keys = (list_to_set keys : gset jstring))
      by set_solver.
    rewrite E in H. pose proof (size_list_to_set_le keys). lia.
  - rewrite size_union in H by set_solver. rewrite size_singleton in H.
    constructor.
    + intros Hk. apply Hout. apply elem_of_list_to_set. now apply list_elem_of_In.
    + apply IH. lia.
Qed.

Lemma sameKeyCount_NoDup (l : list JSONField) (k : jstring) :
  List.NoDup (List.map key l) -> (sameKeyCount l k <= 1)%nat.
Proof.
  unfold sameKeyCount. induction l as [|f l IH]; simpl; [lia|].
  intros H. apply List.NoDup_cons_iff in H as [Hf Hl].
  destruct (bool_decide (key f = k)) eqn:E; [|now apply IH].
  apply bool_decide_eq_true in E. simpl.
  assert (List.filter (fun g => bool_decide (key g = k)) l = []) as ->; [|simpl; lia].
  destruct (List.filter _ l) as [|g gs] eqn:Eg; [reflexivity|]. exfalso.
  assert (Hg : In g (List.filter (fun g => bool_decide (key g = k)) l))
    by (rewrite Eg; now left).
  apply filter_In in Hg as [Hg Hk]. apply bool_decide_eq_true in Hk.
  apply Hf. rewrite E, <- Hk. now apply in_map.
Qed.

(** Fields with a blank key do not count for a non-blank key. *)
Lemma sameKeyCount_nonblank (l : list JSONField) (k : jstring) :
  truthy (trim k) = true ->
  sameKeyCount (List.filter nonblank l) k = sameKeyCount l k.
Proof.
  intros Hk. unfold sameKeyCount. induction l as [|f l IH]; simpl; [reflexivity|].
  destruct (nonblank f) eqn:En; simpl.
  - destruct (bool_decide (key f = k)); simpl; now rewrite IH.
  - destruct (bool_decide (key f = k)) eqn:E; [|exact IH].
    apply bool_decide_eq_true in E. unfold nonblank in En. congruence.
Qed.

Lemma recordError_lookup (i m : jstring) (e : gmap jstring jstring) (x : jstring) :
  JSONGenerator.recordError i m e !! x
  = if decide (i = x /\ x <> js "__proto__") then Some m else e !! x.
Proof.
  unfold JSONGenerator.recordError.
  destruct (decide (i = js "__proto__")) as [Ep|Np].
  - destruct (decide (i = x /\ x <> js "__proto__")) as [[E N]|_];
      [congruence | reflexivity].
  - rewrite lookup_insert. destruct (decide (i = x)) as [E|N].
    + subst x. now destruct (decide (i = i /\ i <> js "__proto__")) as [|[]].
    + destruct (decide (i = x /\ x <> js "__proto__")) as [[E _]|_];
        [contradiction | reflexivity].
Qed.

(** The marking pass of [checkDuplicates]. *)
Lemma marking_lookup (D : gset jstring) (m : jstring) (x : jstring) :
  forall (l : list JSONField) (errs : gmap jstring jstring),
    forEach
      (fun field errs =>
         if bool_decide (key field ∈ D)
         then JSONGenerator.recordError (id field) m errs else errs)
      l errs !! x = Some m
    <-> errs !! x = Some m \/
        (x <> js "__proto__" /\ exists f, In f l /\ id f = x /\ key f ∈ D).
Proof.
  induction l as [|f l IH]; intros errs.
  - simpl. split; [now left | intros [H | (_ & f & [] & _)]; exact H].
  - rewrite forEach_cons, IH. simpl. split.
    + intros [H | (Hx & g & Hg & Hid & Hk)].
      * destruct (bool_decide (key f ∈ D)) eqn:E; [|now left].
        apply bool_decide_eq_true in E. rewrite recordError_lookup in H.
        destruct (decide (id f = x /\ x <> js "__proto__")) as [[Ex Nx]|_];
          [|now left].
        right. split; [exact Nx|]. exists f. auto.
      * right. split; [exact Hx|]. exists g. auto.
    + intros [H | (Hx & g & [<- | Hg] & Hid & Hk)].
      * left. destruct (bool_decide (key f ∈ D)); [|exact H].
        rewrite recordError_lookup.
        now destruct (decide (id f = x /\ x <> js "__proto__")).
      * left. rewrite (bool_decide_eq_true_2 _ Hk), recordError_lookup.
        now destruct (decide (id f = x /\ x <> js "__proto__")) as [|[]].
      * right. split; [exact Hx|]. exists g. auto.
Qed.

(** [markDuplicates] records [Duplicate key] for the fields of the sibling
    list that share their key, and for no other field. *)
Lemma markDuplicates_lookup (fieldList : list JSONField)
  (errs : gmap jstring jstring) (x : jstring) :
  JSONGenerator.markDuplicates fieldList errs !! x = Some (js "Duplicate key")
  <-> errs !! x = Some (js "Duplicate key") \/
      (x <> js "__proto__" /\
       exists f, In f fieldList /\ id f = x /\ sharesKey fieldList f).
Proof.
  unfold JSONGenerator.markDuplicates.
  change (fun f : JSONField => truthy (trim (key f))) with nonblank.
  destruct (validation.hasDuplicateKeys (List.filter nonblank fieldList)) eqn:Ed.
  - pose proof (fun k => seen_and_duplicate_keys k (List.filter nonblank fieldList) ∅ ∅)
      as Hsets. cbv zeta in Hsets.
    destruct (forEach _ (List.filter nonblank fieldList) (∅, ∅)) as [dups seen].
    rewrite marking_lookup. simpl in Hsets.
    split; (intros [H | (Hx & f & Hf & Hid & Hk)];
            [now left | right; split; [exact Hx|]; exists f]).
    + apply filter_In in Hf as [Hf Hn]. repeat split; auto.
      apply Hsets in Hk as [Hk | [[Hk _] | Hk]]; [set_solver | set_solver |].
      now rewrite sameKeyCount_nonblank in Hk.
    + destruct Hk as [Hn Hk]. repeat split; auto.
      * apply filter_In. auto.
      * apply Hsets. right. right. now rewrite sameKeyCount_nonblank.
  - split; [now left|].
    intros [H | (_ & f & Hf & Hid & Hn & Hk)]; [exact H|]. exfalso.
    apply hasDuplicateKeys_false in Ed.
    pose proof (sameKeyCount_NoDup _ (key f) Ed) as Hle.
    rewrite sameKeyCount_nonblank in Hle by exact Hn. lia.
Qed.

Lemma checkDuplicates_in_unfold field errs :
  JSONGenerator.checkDuplicates_in field errs =
  match children field with
  | Some (c :: cs) => JSONGenerator.checkDuplicates (c :: cs) errs
  | _ => errs
  end.
Proof. destruct field as [? ? ? ? ? [[|]|] ? ? ?]; reflexivity. Qed.

Lemma SiblingGroup_nil group x :
  ~ (exists f, SiblingGroup [] group /\ In f group /\ id f = x /\ sharesKey group f).
Proof.
  intros (f & Hg & Hf & _). inversion Hg; subst; simpl in *; tauto.
Qed.

Lemma DuplicateIn_cases fields x :
  DuplicateIn fields x <->
  (exists f, In f fields /\ id f = x /\ sharesKey fields f) \/
  (exists g, In g fields /\ DuplicateIn (childrenOrEmpty g) x).
Proof.
  unfold DuplicateIn. split.
  - intros (group & f & Hg & Hf & Hid & Hk).
    inversion Hg as [|fs g grp Hin Hbelow]; subst.
    + left. eauto.
    + right. exists g. split; [exact Hin|]. eauto 6.
  - intros [(f & Hf & Hid & Hk) | (g & Hg & group & f & Hgrp & Hf & Hid & Hk)].
    + exists fields, f. repeat split; auto; try constructor; apply Hk.
    + exists group, f. repeat split; auto; try apply Hk.
      now apply SiblingGroup_below with (f := g).
Qed.

(** A loop whose bodies add [Duplicate key] exactly for the ids in their own
    sets adds it exactly for the ids in the union of the sets. *)
Lemma forEach_lookup_union {A} (body : A -> gmap jstring jstring -> gmap jstring jstring)
  (D : A -> jstring -> Prop) (m x : jstring) (l : list A) :
  Forall (fun a => forall errs, body a errs !! x = Some m <->
                                errs !! x = Some m \/ D a x) l ->
  forall errs,
    forEach body l errs !! x = Some m <->
    errs !! x = Some m \/ exists a, In a l /\ D a x.
Proof.
  induction 1 as [|a l Ha _ IH]; intros errs.
  - simpl. split; [now left | intros [H | (a & [] & _)]; exact H].
  - rewrite forEach_cons, IH, Ha. simpl. split.
    + intros [[H|H] | (b & Hb & H)]; [now left | right; eauto | right; eauto].
    + intros [H | (b & [<- | Hb] & H)]; [tauto | tauto | right; eauto].
Qed.

(** [checkDuplicates] records [Duplicate key] exactly for the ids of the
    fields that share their key within their sibling list. *)
Lemma checkDuplicates_in_lookup (x : jstring) :
  forall field errs,
    JSONGenerator.checkDuplicates_in field errs !! x = Some (js "Duplicate key")
    <-> errs !! x = Some (js "Duplicate key") \/
        (x <> js "__proto__" /\ DuplicateIn (childrenOrEmpty field) x).
Proof.
  induction field as [field IH] using JSONField_tree_ind. intros errs.
  rewrite checkDuplicates_in_unfold. unfold childrenOrEmpty in *.
  destruct (children field) as [[|c cs]|].
  - split; [now left | intros [H | (_ & g & f & H)]; [exact H|]].
    exfalso. apply (SiblingGroup_nil g x). eauto.
  - unfold JSONGenerator.checkDuplicates.
    rewrite (forEach_lookup_union _
               (fun g y => y <> js "__proto__" /\ DuplicateIn (childrenOrEmpty g) y)
               _ _ _ IH).
    rewrite markDuplicates_lookup, DuplicateIn_cases.
    split.
    + intros [[H | [Hx H]] | (g & Hg & Hx & H)]; [now left | right .. ];
        (split; [exact Hx|]); [now left | right; eauto].
    + intros [H | [Hx [H | (g & Hg & H)]]];
        [now left; left | left; right; auto | right; eauto].
  - split; [now left | intros [H | (_ & g & f & H)]; [exact H|]].
    exfalso. apply (SiblingGroup_nil g x). eauto.
Qed.

Lemma checkDuplicates_lookup (fields : list JSONField)
  (errs : gmap jstring jstring) (x : jstring) :
  JSONGenerator.checkDuplicates fields errs !! x = Some (js "Duplicate key")
  <-> errs !! x = Some (js "Duplicate key") \/
      (x <> js "__proto__" /\ DuplicateIn fields x).
Proof.
  unfold JSONGenerator.checkDuplicates.
  rewrite (forEach_lookup_union _
             (fun g y => y <> js "__proto__" /\ DuplicateIn (childrenOrEmpty g) y)
             (js "Duplicate key") x fields).
  - rewrite markDuplicates_lookup, DuplicateIn_cases.
    split.
    + intros [[H | [Hx H]] | (g & Hg & Hx & H)]; [now left | right .. ];
        (split; [exact Hx|]); [now left | right; eauto].
    + intros [H | [Hx [H | (g & Hg & H)]]];
        [now left; left | left; right; auto | right; eauto].
  - apply List.Forall_forall. intros f _. apply checkDuplicates_in_lookup.
Qed.

(** Induction on a field with the property assumed for all the fields below
    it. *)
Lemma JSONField_subtree_ind (P : JSONField -> Prop) :
  (forall field, (forall g, InTree g (childrenOrEmpty field) -> P g) -> P field) ->
  forall field, P field.
Proof.
  intros step field.
  enough (H : P field /\ forall g, InTree g (childrenOrEmpty field) -> P g)
    by exact (proj1 H).
  induction field as [field IH] using JSONField_tree_ind.
  assert (Hbelow : forall g, InTree g (childrenOrEmpty field) -> P g)
    by now apply InTree_forest_ind.
  split; [now apply step | exact Hbelow].
Qed.

Lemma buildObject_in_unfold field st :
  JSONGenerator.buildObject_in field st
  = JSONGenerator.buildObject_body JSONGenerator.buildObject field st.
Proof. destruct field; reflexivity. Qed.

(** A property of the state that every body of a loop preserves is preserved
    by the loop. *)
Lemma forEach_preserves {A S} (R : S -> S -> Prop) (body : A -> S -> S) (l : list A) :
  (forall s, R s s) -> (forall s1 s2 s3, R s1 s2 -> R s2 s3 -> R s1 s3) ->
  Forall (fun a => forall s, R s (body a s)) l ->
  forall s, R s (forEach body l s).
Proof.
  intros Hrefl Htrans. induction 1 as [|a l Ha _ IH]; intros s; [apply Hrefl|].
  rewrite forEach_cons. eapply Htrans; [apply Ha | apply IH].
Qed.

Lemma mapState_preserves {A B S} (R : S -> S -> Prop) (body : A -> S -> B * S)
  (l : list A) :
  (forall s, R s s) -> (forall s1 s2 s3, R s1 s2 -> R s2 s3 -> R s1 s3) ->
  Forall (fun a => forall s, R s (body a s).2) l ->
  forall s, R s (mapState body l s).2.
Proof.
  intros Hrefl Htrans. induction 1 as [|a l Ha _ IH]; intros s; [apply Hrefl|].
  simpl. specialize (Ha s). destruct (body a s) as [b s1].
  specialize (IH s1). destruct (mapState body l s1) as [bs s2].
  simpl in *. eapply Htrans; eassumption.
Qed.

Lemma addsNoDuplicate_record (x i m : jstring) (e : gmap jstring jstring) :
  m <> js "Duplicate key" -> addsNoDuplicate x e (JSONGenerator.recordError i m e).
Proof.
  intros Hm. unfold addsNoDuplicate. rewrite recordError_lookup.
  destruct (decide (i = x /\ x <> js "__proto__")); [congruence | tauto].
Qed.

Lemma validateKeyValue_error k msg :
  validation.error (validation.validateKeyValue k) = Some msg ->
  msg <> js "Duplicate key".
Proof.
  unfold validation.validateKeyValue.
  destruct (negb (truthy (trim k))); [intros [= <-]; discriminate|].
  destruct (includes_space k); [intros [= <-]; discriminate|].
  destruct (negb (validation.isIdentifier k)); [intros [= <-]; discriminate|].
  discriminate.
Qed.

Lemma addsNoDuplicate_refl x e : addsNoDuplicate x e e.
Proof. unfold addsNoDuplicate. tauto. Qed.

Lemma addsNoDuplicate_trans x e1 e2 e3 :
  addsNoDuplicate x e1 e2 -> addsNoDuplicate x e2 e3 -> addsNoDuplicate x e1 e3.
Proof. unfold addsNoDuplicate. tauto. Qed.

Section FirstPass.

Variable x : jstring.
Variable buildObject :
  list JSONField -> gmap jstring jstring ->
  list (jstring * JSON) * gmap jstring jstring.

Lemma arrayItem_addsNoDuplicate child :
  (forall e, addsNoDuplicate x e (buildObject (childrenOrEmpty child) e).2) ->
  forall e, addsNoDuplicate x e (JSONGenerator.arrayItem buildObject child e).2.
Proof.
  intros HB e. unfold JSONGenerator.arrayItem.
  specialize (HB e). unfold childrenOrEmpty in HB.
  destruct (type child); try apply addsNoDuplicate_refl.
  - destruct (children child) as [[|g gs]|].
    + destruct (JSONGenerator.manualLiteral _ _); [destruct (parseJSON _)|];
        apply addsNoDuplicate_refl.
    + destruct (buildObject (g :: gs) e) as [nested e']. exact HB.
    + destruct (JSONGenerator.manualLiteral _ _); [destruct (parseJSON _)|];
        apply addsNoDuplicate_refl.
  - destruct (children child) as [[|g gs]|];
      try apply addsNoDuplicate_refl;
      (destruct (JSONGenerator.manualLiteral _ _); [destruct (parseJSON _)|];
       apply addsNoDuplicate_refl).
Qed.

Lemma buildObject_body_addsNoDuplicate field :
  (forall e, addsNoDuplicate x e (buildObject (childrenOrEmpty field) e).2) ->
  (forall c, In c (childrenOrEmpty field) ->
             forall e, addsNoDuplicate x e (buildObject (childrenOrEmpty c) e).2) ->
  forall st,
    addsNoDuplicate x st.2 (JSONGenerator.buildObject_body buildObject field st).2.
Proof.
  intros HB HBB [obj e]. unfold JSONGenerator.buildObject_body.
  destruct (negb (truthy (trim (key field)))); [apply addsNoDuplicate_refl|].
  destruct (validation.isValid (validation.validateKeyValue (key field))) eqn:Ev,
    (validation.error (validation.validateKeyValue (key field)))
      as [[|c msg]|] eqn:Ee;
    try (apply addsNoDuplicate_record;
         exact (validateKeyValue_error _ _ Ee)).
  all: unfold childrenOrEmpty in HB, HBB;
    destruct (type field); cbv beta iota;
    try apply addsNoDuplicate_refl;
    try (destruct (isNaN _);
         [apply addsNoDuplicate_record; discriminate | apply addsNoDuplicate_refl]).
  all: destruct (children field) as [[|c0 cs]|];
    try (destruct (JSONGenerator.manualLiteral _ _);
         [destruct (parseJSON _) as [[]|]|];
         first [apply addsNoDuplicate_refl
               | apply addsNoDuplicate_record; discriminate]).
  all: try (specialize (HB e); destruct (buildObject (c0 :: cs) e) as [nested e'];
            exact HB).
  all: pose proof (mapState_preserves (addsNoDuplicate x)
                     (JSONGenerator.arrayItem buildObject) (c0 :: cs)
                     (addsNoDuplicate_refl x) (addsNoDuplicate_trans x)) as Hmap;
    destruct (mapState (JSONGenerator.arrayItem buildObject) (c0 :: cs) e)
      as [items e'] eqn:Em;
    specialize (Hmap
      ltac:(apply List.Forall_forall; intros c1 Hc1;
            apply arrayItem_addsNoDuplicate; exact (HBB c1 Hc1)) e);
    rewrite Em in Hmap; exact Hmap.
Qed.

End FirstPass.

Lemma buildObject_list_addsNoDuplicate (x : jstring) (l : list JSONField) :
  (forall g, In g l ->
             forall st, addsNoDuplicate x st.2 (JSONGenerator.buildObject_in g st).2) ->
  forall e, addsNoDuplicate x e (JSONGenerator.buildObject l e).2.
Proof.
  intros H e. unfold JSONGenerator.buildObject.
  apply (forEach_preserves (fun s1 s2 => addsNoDuplicate x s1.2 s2.2)
           JSONGenerator.buildObject_in l).
  - intros s. apply addsNoDuplicate_refl.
  - intros s1 s2 s3. apply addsNoDuplicate_trans.
  - now apply List.Forall_forall.
Qed.

(** The first pass of synthesis never records [Duplicate key]. *)
Lemma buildObject_in_addsNoDuplicate (x : jstring) :
  forall field st,
    addsNoDuplicate x st.2 (JSONGenerator.buildObject_in field st).2.
Proof.
  induction field as [field IH] using JSONField_subtree_ind. intros st.
  rewrite buildObject_in_unfold. apply buildObject_body_addsNoDuplicate.
  - apply buildObject_list_addsNoDuplicate. intros g Hg. apply IH. now constructor.
  - intros c Hc. apply buildObject_list_addsNoDuplicate. intros g Hg. apply IH.
    apply InTree_below with (g := c); [exact Hc | now constructor].
Qed.

Lemma buildObject_no_duplicate_error (fields : list JSONField) (x : jstring) :
  (JSONGenerator.buildObject fields ∅).2 !! x <> Some (js "Duplicate key").
Proof.
  intros H.
  apply (buildObject_list_addsNoDuplicate x fields
           (fun g _ => buildObject_in_addsNoDuplicate x g)) in H.
  now rewrite lookup_empty in H.
Qed.

(** The [Duplicate key] entries of the error map of a synthesis. *)
Lemma generateJSON_duplicate_errors (fields : list JSONField) (x : jstring) :
  JSONGenerator.errors (JSONGenerator.generateJSON fields) !! x
  = Some (js "Duplicate key")
  <-> x <> js "__proto__" /\ DuplicateIn fields x.
Proof.
  unfold JSONGenerator.generateJSON.
  pose proof (buildObject_no_duplicate_error fields x) as Hno.
  destruct (JSONGenerator.buildObject fields ∅) as [jsonObject newErrors].
  simpl in *. rewrite checkDuplicates_lookup. tauto.
Qed.

(** ** Synthesis: the output object *)

(** The output of a loop over fields does not depend on the errors recorded
    so far when the output of its body does not. *)
Lemma forEach_output_independent {A O E} (body : A -> O * E -> O * E) (l : list A) :
  Forall (fun a => forall o e e', (body a (o, e)).1 = (body a (o, e')).1) l ->
  forall o e e', (forEach body l (o, e)).1 = (forEach body l (o, e')).1.
Proof.
  induction 1 as [|a l Ha _ IH]; intros o e e'; [reflexivity|].
  rewrite !forEach_cons. specialize (Ha o e e').
  destruct (body a (o, e)) as [o1 e1], (body a (o, e')) as [o1' e1'].
  simpl in Ha. subst o1'. apply IH.
Qed.

Lemma mapState_output_independent {A B E} (body : A -> E -> B * E) (l : list A) :
  Forall (fun a => forall e e', (body a e).1 = (body a e').1) l ->
  forall e e', (mapState body l e).1 = (mapState body l e').1.
Proof.
  induction 1 as [|a l Ha _ IH]; intros e e'; [reflexivity|].
  simpl. specialize (Ha e e').
  destruct (body a e) as [b e1], (body a e') as [b' e1'].
  specialize (IH e1 e1').
  destruct (mapState body l e1) as [bs e2], (mapState body l e1') as [bs' e2'].
  simpl in *. congruence.
Qed.

Section Output.

Variable buildObject :
  list JSONField -> gmap jstring jstring ->
  list (jstring * JSON) * gmap jstring jstring.

Lemma arrayItem_output_independent child :
  (forall e e', (buildObject (childrenOrEmpty child) e).1
                = (buildObject (childrenOrEmpty child) e').1) ->
  forall e e', (JSONGenerator.arrayItem buildObject child e).1
               = (JSONGenerator.arrayItem buildObject child e').1.
Proof.
  intros HB e e'. unfold JSONGenerator.arrayItem.
  specialize (HB e e'). unfold childrenOrEmpty in HB.
  destruct (type child); try reflexivity.
  - destruct (children child) as [[|g gs]|].
    + destruct (JSONGenerator.manualLiteral _ _); [destruct (parseJSON _)|];
        reflexivity.
    + destruct (buildObject (g :: gs) e) as [n1 e1],
        (buildObject (g :: gs) e') as [n2 e2]. simpl in *. congruence.
    + destruct (JSONGenerator.manualLiteral _ _); [destruct (parseJSON _)|];
        reflexivity.
  - destruct (children child) as [[|g gs]|]; try reflexivity;
      (destruct (JSONGenerator.manualLiteral _ _); [destruct (parseJSON _)|];
       reflexivity).
Qed.

(** The body of [buildObject] either leaves [jsonObject] as it is, or
    assigns the property [field.key] a value that depends on the field
    alone. *)
Lemma buildObject_body_output field :
  (forall e e', (buildObject (childrenOrEmpty field) e).1
                = (buildObject (childrenOrEmpty field) e').1) ->
  (forall c, In c (childrenOrEmpty field) ->
             forall e e', (buildObject (childrenOrEmpty c) e).1
                          = (buildObject (childrenOrEmpty c) e').1) ->
  (forall obj e, (JSONGenerator.buildObject_body buildObject field (obj, e)).1 = obj)
  \/ (exists v, forall obj e,
         (JSONGenerator.buildObject_body buildObject field (obj, e)).1
         = setProperty (key field) v obj).
Proof.
  intros HB HBB. unfold JSONGenerator.buildObject_body.
  destruct (negb (truthy (trim (key field)))); [now left|].
  destruct (validation.isValid (validation.validateKeyValue (key field))),
    (validation.error (validation.validateKeyValue (key field))) as [[|c msg]|];
    try (now left).
  all: unfold childrenOrEmpty in HB, HBB;
    destruct (type field); cbv beta iota;
    try (right; eexists; intros obj e; reflexivity);
    try (destruct (isNaN _);
         [now left | right; eexists; intros obj e; reflexivity]).
  all: destruct (children field) as [[|c0 cs]|];
    try (destruct (JSONGenerator.manualLiteral _ _);
         [destruct (parseJSON _) as [[]|]|];
         first [now left | right; eexists; intros obj e; reflexivity]).
  all: try (right; exists (JObj (buildObject (c0 :: cs) ∅).1); intros obj e;
            pose proof (HB e ∅) as Heq;
            destruct (buildObject (c0 :: cs) e) as [nested e1];
            simpl in *; now rewrite Heq).
  all: right;
    exists (JArr (mapState (JSONGenerator.arrayItem buildObject) (c0 :: cs) ∅).1);
    intros obj e;
    pose proof (mapState_output_independent
                  (JSONGenerator.arrayItem buildObject) (c0 :: cs)
                  ltac:(apply List.Forall_forall; intros c1 Hc1;
                        apply arrayItem_output_independent; exact (HBB c1 Hc1))
                  e ∅) as Heq;
    destruct (mapState (JSONGenerator.arrayItem buildObject) (c0 :: cs) e)
      as [items e1];
    simpl in *; now rewrite Heq.
Qed.

End Output.

(** The body of [buildObject], on every field: it leaves [jsonObject] alone or
    assigns [field.key] a value that depends on the field alone. *)
Lemma buildObject_in_output :
  forall field,
    (forall obj e, (JSONGenerator.buildObject_in field (obj, e)).1 = obj)
    \/ (exists v, forall obj e,
           (JSONGenerator.buildObject_in field (obj, e)).1
           = setProperty (key field) v obj).
Proof.
  induction field as [field IH] using JSONField_subtree_ind.
  assert (Hlist : forall l, (forall g, In g l -> InTree g (childrenOrEmpty field)) ->
            forall e e', (JSONGenerator.buildObject l e).1
                         = (JSONGenerator.buildObject l e').1).
  { intros l Hl e e'. unfold JSONGenerator.buildObject.
    apply forEach_output_independent, List.Forall_forall.
    intros g Hg o e1 e2.
    destruct (IH g (Hl g Hg)) as [Hskip | [v Hset]].
    - now rewrite !Hskip.
    - now rewrite !Hset. }
  destruct (buildObject_body_output JSONGenerator.buildObject field) as [H | [v H]].
  - apply Hlist. intros g Hg. now constructor.
  - intros c Hc. apply Hlist. intros g Hg.
    apply InTree_below with (g := c); [exact Hc | now constructor].
  - left. intros obj e. rewrite buildObject_in_unfold. apply H.
  - right. exists v. intros obj e. rewrite buildObject_in_unfold. apply H.
Qed.

Lemma getProperty_defineProperty k k' v o :
  getProperty k (defineProperty k' v o)
  = if decide (k' = k) then Some v else getProperty k o.
Proof.
  induction o as [|[k0 v0] o IH]; simpl.
  - destruct (decide (k' = k)); reflexivity.
  - destruct (decide (k0 = k')) as [E|NE]; simpl.
    + subst k0. destruct (decide (k' = k)); reflexivity.
    + destruct (decide (k0 = k)) as [E0|NE0].
      * subst k0. destruct (decide (k' = k)); [congruence | reflexivity].
      * exact IH.
Qed.

Lemma json_generateJSON fields :
  JSONGenerator.json (JSONGenerator.generateJSON fields)
  = (JSONGenerator.buildObject fields ∅).1.
Proof.
  unfold JSONGenerator.generateJSON.
  now destruct (JSONGenerator.buildObject fields ∅).
Qed.

(** One step of [buildObject], in terms of the value the field converts
    to. *)
Lemma buildObject_in_standalone field obj e :
  (JSONGenerator.buildObject_in field (obj, e)).1
  = match standaloneValue field with
    | Some v => setProperty (key field) v obj
    | None => obj
    end.
Proof.
  unfold standaloneValue. rewrite json_generateJSON.
  unfold JSONGenerator.buildObject. rewrite forEach_cons. cbn [forEach].
  destruct (buildObject_in_output field) as [Hskip | [v Hset]].
  - now rewrite !Hskip.
  - rewrite !Hset. unfold setProperty.
    destruct (decide (key field = js "__proto__")); [reflexivity|].
    rewrite getProperty_defineProperty.
    now destruct (decide (key field = key field)).
Qed.

Lemma standaloneValue_key field v :
  standaloneValue field = Some v -> key field <> js "__proto__".
Proof.
  unfold standaloneValue. rewrite json_generateJSON.
  unfold JSONGenerator.buildObject. rewrite forEach_cons. cbn [forEach].
  destruct (buildObject_in_output field) as [Hskip | [v' Hset]].
  - now rewrite Hskip.
  - rewrite Hset. unfold setProperty.
    now destruct (decide (key field = js "__proto__")).
Qed.

Lemma forEach_invariant {A S} (I : S -> Prop) (body : A -> S -> S) (l : list A) :
  (forall a, In a l -> forall s, I s -> I (body a s)) ->
  forall s, I s -> I (forEach body l s).
Proof.
  induction l as [|a l IH]; intros Hbody s Hs; [exact Hs|].
  rewrite forEach_cons. apply IH.
  - intros b Hb. apply Hbody. now right.
  - apply Hbody; [now left | exact Hs].
Qed.

(** Among the root fields, the last one that converts under a key decides the
    entry of the output under that key. *)
Lemma last_converted_field_wins pre f post v :
  standaloneValue f = Some v ->
  (forall g, In g post -> key g = key f -> standaloneValue g = None) ->
  getProperty (key f)
    (JSONGenerator.json (JSONGenerator.generateJSON (pre ++ f :: post)))
  = Some v.
Proof.
  intros Hv Hpost. rewrite json_generateJSON. unfold JSONGenerator.buildObject.
  rewrite forEach_app, forEach_cons.
  destruct (forEach JSONGenerator.buildObject_in pre ([], ∅)) as [o1 e1].
  apply (forEach_invariant (fun s => getProperty (key f) s.1 = Some v)).
  - intros g Hg [o e] Ho. rewrite buildObject_in_standalone. simpl in Ho.
    destruct (standaloneValue g) as [v'|] eqn:Eg; [|exact Ho].
    destruct (decide (key g = key f)) as [E|NE].
    + rewrite (Hpost g Hg E) in Eg. discriminate.
    + unfold setProperty. destruct (decide (key g = js "__proto__")); [exact Ho|].
      rewrite getProperty_defineProperty.
      now destruct (decide (key g = key f)).
  - rewrite buildObject_in_standalone, Hv. unfold setProperty.
    destruct (decide (key f = js "__proto__")) as [E|NE].
    + now apply standaloneValue_key in Hv.
    + rewrite getProperty_defineProperty. now destruct (decide (key f = key f)).
Qed.

Lemma valid_key_nonblank k :
  validation.isValid (validation.validateKeyValue k) = true ->
  negb (truthy (trim k)) = false.
Proof.
  unfold validation.validateKeyValue.
  destruct (negb (truthy (trim k))); [discriminate | reflexivity].
Qed.

(** A field with a valid key is converted by the [switch] on its type. *)
Lemma buildObject_in_valid_key field obj e :
  validation.isValid (validation.validateKeyValue (key field)) = true ->
  JSONGenerator.buildObject_in field (obj, e)
  = match type field with
    | Tnumber =>
        if isNaN (JSONGenerator.numberOf (value field))
        then (obj, JSONGenerator.recordError (id field) (js "Invalid number") e)
        else (setProperty (key field)
                (JNum (JSONGenerator.numberOf (value field))) obj, e)
    | Tboolean =>
        (setProperty (key field)
           (JBool (JSONGenerator.booleanOf (value field))) obj, e)
    | Tnull => (setProperty (key field) JNull obj, e)
    | Tstring =>
        (setProperty (key field) (JStr (JSON_toString (value field))) obj, e)
    | _ => JSONGenerator.buildObject_in field (obj, e)
    end.
Proof.
  intros Hv. destruct (type field) eqn:Et; try reflexivity;
    rewrite buildObject_in_unfold; unfold JSONGenerator.buildObject_body;
    rewrite (valid_key_nonblank _ Hv), Hv, Et; reflexivity.
Qed.

(** A string field with a valid key converts to its value as a string. *)
Lemma standaloneValue_string field :
  type field = Tstring ->
  validation.isValid (validation.validateKeyValue (key field)) = true ->
  key field <> js "__proto__" ->
  standaloneValue field = Some (JStr (JSON_toString (value field))).
Proof.
  intros Et Hv Hk. unfold standaloneValue. rewrite json_generateJSON.
  unfold JSONGenerator.buildObject. rewrite forEach_cons. cbn [forEach].
  rewrite (buildObject_in_valid_key _ _ _ Hv), Et. unfold setProperty.
  destruct (decide (key field = js "__proto__")); [contradiction|].
  simpl. now destruct (decide (key field = key field)).
Qed.

(** C3, as the claim states it, fails in its last part: both fields are
    reported, and the output still has an entry under the shared key, with
    the value of the second field. *)
Lemma duplicate_keys_stay_in_output :
  JSONGenerator.errors
    (JSONGenerator.generateJSON
       [leaf "1" "dup" Tstring "a"; leaf "2" "dup" Tstring "b"])
  = {[ js "1" := js "Duplicate key"; js "2" := js "Duplicate key" ]} /\
  JSONGenerator.json
    (JSONGenerator.generateJSON
       [leaf "1" "dup" Tstring "a"; leaf "2" "dup" Tstring "b"])
  = [(js "dup", JStr (js "b"))].
Proof. split; [vm_compute; reflexivity | reflexivity]. Qed.

(** C3, amended. Synthesis records [Duplicate key] for exactly the ids of the
    fields whose non-blank key is shared by another field of the same sibling
    list, at every depth (an id [__proto__] apart, under which the error
    object takes no entry).  The output is not filtered by that detection:
    under a key that several root fields share, it holds the value of the
    last of them that converts. *)
Theorem duplicate_keys_reported_not_omitted (fields : list JSONField) :
  (forall x,
      JSONGenerator.errors (JSONGenerator.generateJSON fields) !! x
      = Some (js "Duplicate key")
      <-> x <> js "__proto__" /\
          exists group f, SiblingGroup fields group /\ In f group /\ id f = x /\
                          truthy (trim (key f)) = true /\
                          (2 <= sameKeyCount group (key f))%nat) /\
  (forall pre f post v,
      fields = pre ++ f :: post ->
      standaloneValue f = Some v ->
      (forall g, In g post -> key g = key f -> standaloneValue g = None) ->
      getProperty (key f) (JSONGenerator.json (JSONGenerator.generateJSON fields))
      = Some v).
Proof.
  split.
  - intros x. apply generateJSON_duplicate_errors.
  - intros pre f post v -> Hv Hpost. now apply last_converted_field_wins.
Qed.

(** An instance: keys [a], [b], [a]; the first field is reported, and the
    output holds the value of the third under [a]. *)
Lemma duplicate_keys_reported_witness :
  JSONGenerator.errors
    (JSONGenerator.generateJSON
       [leaf "1" "a" Tstring "x"; leaf "2" "b" Tstring "y"; leaf "3" "a" Tstring "z"])
    !! js "1" = Some (js "Duplicate key") /\
  getProperty (js "a")
    (JSONGenerator.json
       (JSONGenerator.generateJSON
          [leaf "1" "a" Tstring "x"; leaf "2" "b" Tstring "y"; leaf "3" "a" Tstring "z"]))
  = Some (JStr (js "z")).
Proof.
  split.
  - apply (proj1 (duplicate_keys_reported_not_omitted
                    [leaf "1" "a" Tstring "x"; leaf "2" "b" Tstring "y";
                     leaf "3" "a" Tstring "z"])).
    split; [discriminate|].
    exists [leaf "1" "a" Tstring "x"; leaf "2" "b" Tstring "y"; leaf "3" "a" Tstring "z"],
      (leaf "1" "a" Tstring "x").
    split; [apply SiblingGroup_root|]. split; [now left|].
    split; [reflexivity|]. split; [reflexivity | vm_compute; lia].
  - apply (proj2 (duplicate_keys_reported_not_omitted
                    [leaf "1" "a" Tstring "x"; leaf "2" "b" Tstring "y";
                     leaf "3" "a" Tstring "z"])
             [leaf "1" "a" Tstring "x"; leaf "2" "b" Tstring "y"]
             (leaf "3" "a" Tstring "z") [] (JStr (js "z")));
      [reflexivity | reflexivity | intros g []].
Defined.

(** ** Synthesis: the children of an array *)

(** C4. The children of an array field are coerced by type, the children of
    an array that is itself the child of an array are not: the callback emits
    the stored [value] of each grandchild as it is.  A number and a boolean
    come out as the number [5] and [true] one level down, and as the strings
    ["5"] and ["true"] two levels down. *)
Theorem nested_array_grandchildren_emitted_raw :
  JSONGenerator.generateJSON
    [branch "a" "row" Tarray
       [leaf "n" "0" Tnumber "5"; leaf "b" "1" Tboolean "true"]]
  = JSONGenerator.mkGenerated ∅
      [(js "row", JArr [JNum (Finite false 5 0); JBool true])] /\
  JSONGenerator.generateJSON
    [branch "a" "grid" Tarray
       [branch "r" "0" Tarray
          [leaf "n" "0" Tnumber "5"; leaf "b" "1" Tboolean "true"]]]
  = JSONGenerator.mkGenerated ∅
      [(js "grid", JArr [JArr [JStr (js "5"); JStr (js "true")]])].
Proof. split; vm_compute; reflexivity. Qed.

(** C5. A number field that [buildObject] visits as a property is checked: an
    empty value gives [0], a value that is no numeral is reported as
    [Invalid number] and omitted.  A number field that is the child of an
    array is converted without the check: the value that is no numeral gives
    [NaN] in the output, and nothing is reported. *)
Theorem array_child_number_not_checked :
  JSONGenerator.generateJSON [leaf "n" "count" Tnumber ""]
  = JSONGenerator.mkGenerated ∅ [(js "count", JNum (Finite false 0 0))] /\
  JSONGenerator.generateJSON [leaf "n" "count" Tnumber "abc"]
  = JSONGenerator.mkGenerated {[ js "n" := js "Invalid number" ]} [] /\
  JSONGenerator.generateJSON
    [branch "a" "xs" Tarray [leaf "n" "0" Tnumber "abc"]]
  = JSONGenerator.mkGenerated ∅ [(js "xs", JArr [JNum NaN])].
Proof. repeat split; vm_compute; reflexivity. Qed.

(** ** The scenarios of the specification, and the builtins on small inputs *)

Example scenario_one_string_field :
  JSONGenerator.generateJSON [leaf "1" "name" Tstring "Ada"]
  = JSONGenerator.mkGenerated ∅ [(js "name", JStr (js "Ada"))].
Proof. vm_compute. reflexivity. Qed.

Example scenario_nested_object :
  JSONGenerator.generateJSON
    [branch "1" "user" Tobject [leaf "2" "age" Tnumber "36"]]
  = JSONGenerator.mkGenerated ∅
      [(js "user", JObj [(js "age", JNum (Finite false 36 0))])].
Proof. vm_compute. reflexivity. Qed.

Example scenario_array_then_removal :
  JSONGenerator.json
    (JSONGenerator.generateJSON
       [branch "1" "tags" Tarray [leaf "2" "" Tstring "x"; leaf "3" "" Tstring "y"]])
  = [(js "tags", JArr [JStr (js "x"); JStr (js "y")])] /\
  JSONGenerator.removeField
    [branch "1" "tags" Tarray [leaf "2" "" Tstring "x"; leaf "3" "" Tstring "y"]]
    (js "2") (js "n")
  = [branch "1" "tags" Tarray [leaf "3" "0" Tstring "y"]] /\
  JSONGenerator.json
    (JSONGenerator.generateJSON
       [branch "1" "tags" Tarray [leaf "3" "0" Tstring "y"]])
  = [(js "tags", JArr [JStr (js "y")])].
Proof. repeat split; reflexivity. Qed.

Example manual_array_literal :
  JSONGenerator.generateJSON
    [leaf "1" "xs" Tarray "[1, 2.5e1, [true, null]]"; leaf "2" "ys" Tarray "[1,";
     leaf "3" "zs" Tarray "[]"; leaf "4" "o" Tobject "7"]
  = JSONGenerator.mkGenerated {[ js "2" := js "Invalid JSON array" ]}
      [(js "xs", JArr [JNum (Finite false 1 0); JNum (Finite false 25 0);
                       JArr [JBool true; JNull]]);
       (js "zs", JArr []);
       (js "o", JNum (Finite false 7 0))].
Proof. vm_compute. reflexivity. Qed.

Example invalid_keys_are_reported :
  JSONGenerator.generateJSON
    [leaf "1" "first name" Tstring "Ada"; leaf "2" "9lives" Tstring "x";
     leaf "3" "  " Tstring "skipped"; leaf "4" "__proto__" Tstring "p"]
  = JSONGenerator.mkGenerated
      {[ js "1" := js "Key cannot contain spaces";
         js "2" := js "Key must be a valid identifier" ]} [].
Proof. vm_compute. reflexivity. Qed.

Example number_numerals :
  StringToNumber (js " 12.50e1 ") = Finite false 1250 (-1) /\
  StringToNumber (js "0x1F") = Finite false 31 0 /\
  StringToNumber (js "-.5") = Finite true 5 (-1) /\
  StringToNumber (js "-Infinity") = Infinity true /\
  StringToNumber (js "") = Finite false 0 0 /\
  StringToNumber (js "abc") = NaN /\
  StringToNumber (js "12px") = NaN /\
  StringToNumber (js "1 2") = NaN /\
  StringToNumber (js ".") = NaN.
Proof. repeat split; reflexivity. Qed.

Example number_texts :
  NumberToString (Finite false 1250 (-1)) = js "125" /\
  NumberToString (Finite true 5 (-1)) = js "-0.5" /\
  NumberToString (Finite false 1 21) = js "1e+21" /\
  NumberToString (Finite false 123 (-9)) = js "1.23e-7" /\
  JSON_toString (JArr [JNum zero; JNull; JArr [JStr (js "a"); JBool true]; JObj []])
  = js "0,,a,true,[object Object]".
Proof. repeat split; reflexivity. Qed.

Example validator_on_the_test_keys :
  validation.isValid (validation.validateKeyValue (js "user_id")) = true /\
  validation.validateKeyValue (js "") =
    validation.mkResult false (Some (js "Key cannot be empty")) /\
  validation.validateKeyValue (js "user name") =
    validation.mkResult false (Some (js "Key cannot contain spaces")) /\
  validation.validateKeyValue (js "123abc") =
    validation.mkResult false (Some (js "Key must be a valid identifier")) /\
  validation.sanitizeKey (js "123-user.name@domain") = js "_123_user_name_domain" /\
  validation.hasDuplicateKeys
    [leaf "1" "name" Tstring ""; leaf "2" "age" Tstring ""; leaf "3" "name" Tstring ""]
  = true.
Proof. repeat split; reflexivity. Qed.

(** * Further properties of the source *)

(** ** The identifier validator, beyond sanitized keys *)

Lemma isIdentifier_parts k :
  validation.isIdentifier k = true -> forallb isIdentPart k = true /\ k <> [].
Proof.
  destruct k as [|c r]; [discriminate|]. simpl.
  intros H. apply andb_true_iff in H as [Hc Hr].
  split; [|discriminate]. unfold isIdentPart at 1. now rewrite Hc, Hr.
Qed.

Lemma isValid_isIdentifier (k : jstring) :
  validation.isValid (validation.validateKeyValue k) = validation.isIdentifier k.
Proof.
  unfold validation.validateKeyValue.
  destruct (validation.isIdentifier k) eqn:Ei.
  - destruct (isIdentifier_parts k Ei) as [Hall Hne].
    rewrite (trim_ident _ Hall).
    assert (Hsp : includes_space k = false).
    { unfold includes_space. apply not_true_is_false. intros H.
      apply existsb_exists in H as (x & Hx & H).
      rewrite forallb_forall in Hall.
      destruct (isIdentPart_not_space x (Hall x Hx)). congruence. }
    rewrite Hsp. now destruct k.
  - destruct (negb (truthy (trim k))); [reflexivity|].
    now destruct (includes_space k).
Qed.

Lemma isIdentStart_not_digit c : isIdentStart c = true -> isDigit c = false.
Proof.
  unfold isIdentStart, isLower, isUpper, isDigit. intros H.
  repeat match type of H with
         | (_ || _) = true => apply orb_true_iff in H as [H|H]
         | (_ && _) = true => apply andb_true_iff in H as [? ?]
         end;
    repeat match goal with
           | H : (_ <=? _)%N = true |- _ => apply N.leb_le in H
           | H : (_ =? _)%N = true |- _ => apply N.eqb_eq in H
           end;
    apply andb_false_iff;
    first [ left; apply N.leb_gt; lia | right; apply N.leb_gt; lia ].
Qed.

(** X1. [validateKeyValue] accepts exactly the strings that match the
    identifier pattern: the two tests before the pattern reject nothing the
    pattern would accept, they only choose the message; and a result carries
    an error message exactly when it is not valid. *)
Theorem validateKeyValue_accepts_exactly_identifiers (k : jstring) :
  validation.isValid (validation.validateKeyValue k) = validation.isIdentifier k /\
  (validation.error (validation.validateKeyValue k) = None <->
   validation.isValid (validation.validateKeyValue k) = true).
Proof.
  split; [apply isValid_isIdentifier|].
  unfold validation.validateKeyValue.
  destruct (negb (truthy (trim k))); [simpl; split; discriminate|].
  destruct (includes_space k); [simpl; split; discriminate|].
  destruct (negb (validation.isIdentifier k)); simpl; split;
    first [discriminate | reflexivity].
Qed.

Lemma sanitize_map_fixed l :
  forallb isIdentPart l = true ->
  List.map (fun c => if isIdentPart c then c else 95%N) l = l.
Proof.
  induction l as [|c l IH]; simpl; [reflexivity|].
  intros H. apply andb_true_iff in H as [Hc Hl]. now rewrite Hc, IH.
Qed.

Lemma sanitize_map_parts k :
  forallb isIdentPart (List.map (fun c => if isIdentPart c then c else 95%N) k) = true.
Proof.
  apply forallb_forall. intros c Hc. apply in_map_iff in Hc as (c' & <- & _).
  apply sanitizeChar_part.
Qed.

(** X2. [sanitizeKey] is idempotent, it leaves alone every key the validator
    accepts, and it adds at most one code unit. *)
Theorem sanitizeKey_idempotent (k : jstring) :
  validation.sanitizeKey (validation.sanitizeKey k) = validation.sanitizeKey k /\
  (validation.isValid (validation.validateKeyValue k) = true ->
   validation.sanitizeKey k = k) /\
  (length k <= length (validation.sanitizeKey k) <= S (length k))%nat.
Proof.
  pose proof (sanitize_map_parts k) as Hparts.
  split; [|split].
  - unfold validation.sanitizeKey at 2 3.
    destruct (List.map _ k) as [|c r] eqn:Ek; [reflexivity|].
    destruct (isDigit c) eqn:Ed; unfold validation.sanitizeKey.
    + assert (H : forallb isIdentPart (95%N :: c :: r) = true)
        by (simpl in *; exact Hparts).
      rewrite (sanitize_map_fixed _ H). reflexivity.
    + rewrite (sanitize_map_fixed _ Hparts). now rewrite Ed.
  - intros Hv.
    rewrite isValid_isIdentifier in Hv.
    destruct (isIdentifier_parts k Hv) as [Hall _].
    unfold validation.sanitizeKey. rewrite (sanitize_map_fixed _ Hall).
    destruct k as [|c r]; [reflexivity|]. simpl in Hv.
    apply andb_true_iff in Hv as [Hc _]. now rewrite (isIdentStart_not_digit c Hc).
  - unfold validation.sanitizeKey.
    destruct (List.map _ k) as [|c r] eqn:Ek.
    + apply (f_equal (@length N)) in Ek. rewrite length_map in Ek. simpl in *. lia.
    + apply (f_equal (@length N)) in Ek. rewrite length_map in Ek.
      destruct (isDigit c); simpl in *; lia.
Qed.

Lemma sameKeyCount_cons f l k :
  sameKeyCount (f :: l) k
  = ((if bool_decide (key f = k) then 1 else 0) + sameKeyCount l k)%nat.
Proof. unfold sameKeyCount. simpl. now destruct (bool_decide (key f = k)). Qed.

Lemma sameKeyCount_In l k :
  In k (List.map key l) -> (1 <= sameKeyCount l k)%nat.
Proof.
  induction l as [|f l IH]; simpl; [tauto|]. rewrite sameKeyCount_cons.
  intros [E | H].
  - rewrite (bool_decide_eq_true_2 _ E). lia.
  - specialize (IH H). lia.
Qed.

Lemma keys_NoDup_or_shared (l : list JSONField) :
  List.NoDup (List.map key l) \/ exists k, (2 <= sameKeyCount l k)%nat.
Proof.
  induction l as [|f l [IH | [k IH]]].
  - left. constructor.
  - destruct (in_dec (fun a b : jstring => decide (a = b)) (key f) (List.map key l))
      as [Hin|Hout].
    + right. exists (key f). rewrite sameKeyCount_cons.
      rewrite (bool_decide_eq_true_2 _ eq_refl).
      pose proof (sameKeyCount_In _ _ Hin). lia.
    + left. simpl. now constructor.
  - right. exists k. rewrite sameKeyCount_cons. lia.
Qed.

(** X3. [hasDuplicateKeys] answers [true] exactly when two fields of the list
    carry the same key -- the keys compared as they are, blank ones
    included. *)
Theorem hasDuplicateKeys_iff_shared_key (fields : list JSONField) :
  validation.hasDuplicateKeys fields = true <->
  exists k, (2 <= sameKeyCount fields k)%nat.
Proof.
  split.
  - intros H. destruct (keys_NoDup_or_shared fields) as [Hnd | Hk]; [|exact Hk].
    exfalso. unfold validation.hasDuplicateKeys in H. cbv zeta in H.
    apply bool_decide_eq_true in H. apply H.
    symmetry. apply (size_list_to_set (C := gset jstring)).
    now apply NoDup_ListNoDup.
  - intros [k Hk]. destruct (validation.hasDuplicateKeys fields) eqn:E; [reflexivity|].
    apply hasDuplicateKeys_false in E.
    pose proof (sameKeyCount_NoDup _ k E). lia.
Qed.

(** ** The lookups *)

(** X4. [findField] resolves an id exactly when a field of the tree, at any
    depth, carries it, and what it returns is such a field. *)
Theorem findField_resolves_fields_of_the_tree
  (fields : list JSONField) (target : jstring) :
  (forall f, dragDrop.findField fields target = Some f ->
             id f = target /\ InTree f fields) /\
  (dragDrop.findField fields target = None <->
   forall f, InTree f fields -> id f <> target).
Proof.
  split; [intros f; apply findField_Some|].
  split; [apply findField_None|].
  intros H. destruct (dragDrop.findField fields target) as [f|] eqn:E; [|reflexivity].
  apply findField_Some in E as [Hid Hin]. now destruct (H f Hin).
Qed.

Lemma firstFound_ind_ext {A B} (f g : A -> option B) l :
  Forall (fun a => f a = g a) l -> firstFound f l = firstFound g l.
Proof.
  induction 1 as [|a l E _ IH]; [reflexivity|].
  rewrite !firstFound_cons, E, IH. reflexivity.
Qed.

Lemma findInFields_in_findField_in target :
  forall field,
    JSONGenerator.findInFields_in target field = dragDrop.findField_in target field.
Proof.
  induction field as [field IH] using JSONField_tree_ind.
  rewrite findInFields_in_unfold, findField_in_unfold.
  destruct (decide (id field = target)); [reflexivity|].
  unfold childrenOrEmpty in IH.
  destruct (children field) as [[|c cs]|]; [reflexivity | | reflexivity].
  unfold JSONGenerator.getFieldById, dragDrop.findField.
  apply firstFound_ind_ext. exact IH.
Qed.

Lemma getFieldById_findField fields target :
  JSONGenerator.getFieldById fields target = dragDrop.findField fields target.
Proof.
  apply firstFound_ind_ext, List.Forall_forall. intros f _.
  apply findInFields_in_findField_in.
Qed.

(** X5. The three lookups by id agree: [getFieldById] of the generator and
    the field of [findFieldWithPath] are the field [findField] returns,
    whatever path the search starts with. *)
Theorem lookups_by_id_agree
  (fields : list JSONField) (target : jstring) (path : list jstring) :
  JSONGenerator.getFieldById fields target = dragDrop.findField fields target /\
  fst (dragDrop.findFieldWithPath fields target path)
  = dragDrop.findField fields target.
Proof. split; [apply getFieldById_findField | apply fst_findFieldWithPath]. Qed.

Lemma findParentField_in_unfold childId field :
  JSONGenerator.findParentField_in childId field =
  match children field with
  | Some cs =>
      if existsb (fun child => bool_decide (id child = childId)) cs
      then Some field
      else JSONGenerator.findParentField childId cs
  | None => None
  end.
Proof. destruct field; reflexivity. Qed.

Lemma findParentField_in_Some childId :
  forall field p,
    JSONGenerator.findParentField_in childId field = Some p ->
    (p = field \/ InTree p (childrenOrEmpty field)) /\
    exists c, In c (childrenOrEmpty p) /\ id c = childId.
Proof.
  induction field as [field IH] using JSONField_tree_ind. intros p.
  rewrite findParentField_in_unfold. unfold childrenOrEmpty in IH |- * at 1.
  destruct (children field) as [cs|] eqn:Ecs; [|discriminate].
  destruct (existsb _ cs) eqn:Ex.
  - intros [= <-]. split; [now left|].
    apply existsb_exists in Ex as (c & Hc & Hid). apply bool_decide_eq_true in Hid.
    exists c. unfold childrenOrEmpty. rewrite Ecs. auto.
  - intros H. apply firstFound_Some in H as (g & Hg & H).
    rewrite List.Forall_forall in IH.
    destruct (IH g Hg p H) as [[-> | Hin] Hc]; (split; [right | exact Hc]).
    + now constructor.
    + now apply InTree_below with (g := g).
Qed.

Lemma findParentField_in_None childId :
  forall field,
    JSONGenerator.findParentField_in childId field = None ->
    (forall c, In c (childrenOrEmpty field) -> id c <> childId) /\
    (forall p, InTree p (childrenOrEmpty field) ->
               forall c, In c (childrenOrEmpty p) -> id c <> childId).
Proof.
  induction field as [field IH] using JSONField_tree_ind.
  rewrite findParentField_in_unfold. unfold childrenOrEmpty in IH |- * at 1 2.
  destruct (children field) as [cs|] eqn:Ecs.
  - destruct (existsb _ cs) eqn:Ex; [discriminate|]. intros H. split.
    + intros c Hc Hid.
      assert (existsb (fun child => bool_decide (id child = childId)) cs = true);
        [|congruence].
      apply existsb_exists. exists c. split; [exact Hc|].
      now apply bool_decide_eq_true.
    + apply firstFound_None in H.
      apply (InTree_forest_ind
               (fun p => forall c, In c (childrenOrEmpty p) -> id c <> childId)).
      rewrite List.Forall_forall in *. intros g Hg. exact (IH g Hg (H g Hg)).
  - intros _. split; [intros c []|].
    intros p Hp. inversion Hp; subst; simpl in *; tauto.
Qed.

(** X6. [findParentField] returns a field of the tree that has a child with
    the given id, and it returns nothing exactly when no field of the tree
    has such a child -- as for the id of a root field that occurs nowhere
    else. *)
Theorem findParentField_finds_a_parent
  (childId : jstring) (fieldList : list JSONField) :
  (forall p, JSONGenerator.findParentField childId fieldList = Some p ->
             InTree p fieldList /\
             exists c, In c (childrenOrEmpty p) /\ id c = childId) /\
  (JSONGenerator.findParentField childId fieldList = None <->
   forall p, InTree p fieldList ->
             forall c, In c (childrenOrEmpty p) -> id c <> childId).
Proof.
  assert (Hsome : forall p,
             JSONGenerator.findParentField childId fieldList = Some p ->
             InTree p fieldList /\
             exists c, In c (childrenOrEmpty p) /\ id c = childId).
  { intros p H. apply firstFound_Some in H as (g & Hg & H).
    apply findParentField_in_Some in H as [[-> | Hin] Hc]; (split; [|exact Hc]).
    - now constructor.
    - now apply InTree_below with (g := g). }
  split; [exact Hsome|]. split.
  - intros H. apply firstFound_None in H.
    apply (InTree_forest_ind
             (fun p => forall c, In c (childrenOrEmpty p) -> id c <> childId)).
    rewrite List.Forall_forall in *. intros g Hg.
    exact (findParentField_in_None childId g (H g Hg)).
  - intros H.
    destruct (JSONGenerator.findParentField childId fieldList) as [p|] eqn:E;
      [|reflexivity].
    destruct (Hsome p eq_refl) as [Hp (c & Hc & Hid)]. now destruct (H p Hp c Hc).
Qed.
(** ** The ids of the tree *)

Lemma InTree_cases f fields :
  InTree f fields <->
  exists g, In g fields /\ (f = g \/ InTree f (childrenOrEmpty g)).
Proof.
  split.
  - inversion 1; subst; eauto.
  - intros (g & Hg & [-> | H]);
      [now constructor | now apply InTree_below with (g := g)].
Qed.

Lemma allIds_in_unfold f : allIds_in f = id f :: allIds (childrenOrEmpty f).
Proof. destruct f as [? ? ? ? ? [cs|] ? ? ?]; reflexivity. Qed.

Lemma allIds_cons f l : allIds (f :: l) = allIds_in f ++ allIds l.
Proof. reflexivity. Qed.

Lemma allIds_app l1 l2 : allIds (l1 ++ l2) = allIds l1 ++ allIds l2.
Proof.
  induction l1 as [|f l1 IH]; [reflexivity|].
  rewrite <- app_comm_cons, !allIds_cons, IH. now rewrite app_assoc.
Qed.

Lemma In_allIds_step (x : jstring) (l : list JSONField) :
  Forall (fun g => In x (allIds (childrenOrEmpty g)) <->
                   exists f, InTree f (childrenOrEmpty g) /\ id f = x) l ->
  (In x (allIds l) <-> exists f, InTree f l /\ id f = x).
Proof.
  induction 1 as [|g l Hg _ IH].
  - split; [intros [] | intros (f & Hf & _)].
    apply InTree_cases in Hf as (g & [] & _).
  - rewrite allIds_cons, in_app_iff, allIds_in_unfold. simpl. rewrite Hg, IH.
    split.
    + intros [[E | (f & Hf & E)] | (f & Hf & E)].
      * exists g. split; [constructor; now left | exact E].
      * exists f. split; [|exact E].
        apply InTree_below with (g := g); [now left | exact Hf].
      * exists f. split; [|exact E].
        apply InTree_cases in Hf as (g' & Hg' & H').
        apply InTree_cases. exists g'. split; [now right | exact H'].
    + intros (f & Hf & E). apply InTree_cases in Hf as (g' & [<- | Hg'] & H').
      * left. destruct H' as [-> | H']; [now left | right; eauto].
      * right. exists f. split; [|exact E]. apply InTree_cases; eauto.
Qed.

(** The ids of [allIds] are the ids of the fields of the tree. *)
Lemma In_allIds (x : jstring) (fields : list JSONField) :
  In x (allIds fields) <-> exists f, InTree f fields /\ id f = x.
Proof.
  apply In_allIds_step, List.Forall_forall. intros g _. revert g.
  induction g as [g IH] using JSONField_tree_ind. now apply In_allIds_step.
Qed.

Lemma findField_None_allIds fields target :
  dragDrop.findField fields target = None <-> ~ In target (allIds fields).
Proof.
  rewrite In_allIds. split.
  - intros H (f & Hf & E). exact (findField_None _ _ H f Hf E).
  - intros H. destruct (dragDrop.findField fields target) as [f|] eqn:E; [|reflexivity].
    apply findField_Some in E as [E Hf]. destruct H. eauto.
Qed.

(** ** Moves that change nothing *)

(** X7. [moveField] returns the tree as it is when the dragged id or the
    hover id is carried by no field of the tree. *)
Theorem moveField_unresolved_id_changes_nothing
  (fields : list JSONField) (dragId hoverId : jstring)
  (hoverParentId : option jstring) :
  ~ In dragId (allIds fields) \/ ~ In hoverId (allIds fields) ->
  dragDrop.moveField fields dragId hoverId hoverParentId = fields.
Proof.
  rewrite moveField_unfold. intros [H | H]; apply findField_None_allIds in H.
  - now rewrite H.
  - rewrite H. now destruct (dragDrop.findField fields dragId).
Qed.

Lemma moveField_unresolved_id_witness :
  dragDrop.moveField [leaf "a" "x" Tstring "v"; leaf "b" "y" Tstring "w"]
    (js "a") (js "zz") None
  = [leaf "a" "x" Tstring "v"; leaf "b" "y" Tstring "w"].
Proof.
  apply moveField_unresolved_id_changes_nothing. right.
  apply findField_None_allIds. reflexivity.
Defined.

(** ** Removal *)

Lemma removeField_in_unfold target field :
  dragDrop.removeField_in target field =
  withChildren field (dragDrop.removeField (childrenOrEmpty field) target).
Proof. destruct field as [? ? ? ? ? [cs|] ? ? ?]; reflexivity. Qed.

Lemma removeField_cons f l target :
  dragDrop.removeField (f :: l) target =
  if decide (id f = target) then dragDrop.removeField l target
  else dragDrop.removeField_in target f :: dragDrop.removeField l target.
Proof.
  unfold dragDrop.removeField. cbn [filterMap].
  destruct (decide (id f = target)) as [E|NE].
  - now rewrite (bool_decide_eq_true_2 _ E).
  - now rewrite (bool_decide_eq_false_2 _ NE).
Qed.

Lemma allIds_in_withChildren f cs : allIds_in (withChildren f cs) = id f :: allIds cs.
Proof. reflexivity. Qed.

Lemma removalOfIds_step target l :
  Forall (fun f => removalOfIds target (childrenOrEmpty f)) l ->
  removalOfIds target l.
Proof.
  induction 1 as [|f l (Hf1 & Hf2 & Hf3) _ (IH1 & IH2 & IH3)].
  - split; [intros [] | split; [apply incl_refl | reflexivity]].
  - unfold removalOfIds.
    rewrite removeField_cons. destruct (decide (id f = target)) as [E|NE].
    + split; [exact IH1 | split].
      * rewrite allIds_cons. now apply incl_appr.
      * intros H. destruct H. rewrite allIds_cons, allIds_in_unfold. now left.
    + rewrite !allIds_cons, removeField_in_unfold, allIds_in_withChildren,
        allIds_in_unfold.
      split; [|split].
      * intros H. cbn [app] in H. destruct H as [H | H]; [contradiction|].
        apply in_app_iff in H as [H | H]; tauto.
      * apply incl_app; [apply incl_cons; [now left|]|now apply incl_appr].
        apply incl_appl, incl_tl, Hf2.
      * intros H. cbn [app] in *. f_equal. rewrite Hf3, IH3; [reflexivity | |];
          intros H'; apply H; right; apply in_app_iff; tauto.
Qed.

Lemma removalOfIds_all target : forall l, removalOfIds target l.
Proof.
  intros l. apply removalOfIds_step, List.Forall_forall. intros g _. revert g.
  induction g as [g IH] using JSONField_tree_ind. now apply removalOfIds_step.
Qed.

(** X8. After [removeField] of the engine no field carries the id, at any
    depth; the ids that remain were ids of the tree; and when no field
    carried the id the tree keeps all its ids, in their order. *)
Theorem removeField_leaves_no_field_with_the_id
  (fields : list JSONField) (target : jstring) :
  dragDrop.findField (dragDrop.removeField fields target) target = None /\
  incl (allIds (dragDrop.removeField fields target)) (allIds fields) /\
  (dragDrop.findField fields target = None ->
   allIds (dragDrop.removeField fields target) = allIds fields).
Proof.
  destruct (removalOfIds_all target fields) as (H1 & H2 & H3).
  rewrite !findField_None_allIds. auto.
Qed.

Lemma allIds_in_withKey f k : allIds_in (withKey f k) = allIds_in f.
Proof. destruct f as [? ? ? ? ? [cs|] ? ? ?]; reflexivity. Qed.

Lemma allIds_renumbered n l :
  allIds (mapIndexFrom (fun index child => withKey child (index_toString index)) n l)
  = allIds l.
Proof.
  revert n. induction l as [|f l IH]; intros n; [reflexivity|].
  cbn [mapIndexFrom]. now rewrite !allIds_cons, allIds_in_withKey, IH.
Qed.

Lemma removeFromFields_cons f l target :
  JSONGenerator.removeFromFields (f :: l) target =
  if decide (id f = target) then JSONGenerator.removeFromFields l target
  else JSONGenerator.removeFromFields_in target f
       :: JSONGenerator.removeFromFields l target.
Proof.
  unfold JSONGenerator.removeFromFields. cbn [filterMap].
  destruct (decide (id f = target)) as [E|NE].
  - now rewrite (bool_decide_eq_true_2 _ E).
  - now rewrite (bool_decide_eq_false_2 _ NE).
Qed.

Lemma removeFromFields_in_ids target field :
  allIds_in (JSONGenerator.removeFromFields_in target field)
  = id field :: allIds (JSONGenerator.removeFromFields (childrenOrEmpty field) target).
Proof.
  rewrite removeFromFields_in_unfold. cbv zeta.
  assert (E : match children field with
              | Some cs => JSONGenerator.removeFromFields cs target
              | None => []
              end = JSONGenerator.removeFromFields (childrenOrEmpty field) target)
    by (unfold childrenOrEmpty; now destruct (children field)).
  rewrite E. destruct (decide (type field = Tarray)).
  - rewrite allIds_in_withChildren. unfold mapIndex. now rewrite allIds_renumbered.
  - apply allIds_in_withChildren.
Qed.

Lemma removeFromFields_ids_step target l :
  Forall (fun f => allIds (JSONGenerator.removeFromFields (childrenOrEmpty f) target)
                   = allIds (dragDrop.removeField (childrenOrEmpty f) target)) l ->
  allIds (JSONGenerator.removeFromFields l target)
  = allIds (dragDrop.removeField l target).
Proof.
  induction 1 as [|f l Hf _ IH]; [reflexivity|].
  rewrite removeFromFields_cons, removeField_cons.
  destruct (decide (id f = target)); [exact IH|].
  rewrite !allIds_cons, removeFromFields_in_ids, removeField_in_unfold,
    allIds_in_withChildren, Hf, IH. reflexivity.
Qed.

(** The two removals, the generator's and the engine's, leave the same ids. *)
Lemma removeFromFields_ids target :
  forall l, allIds (JSONGenerator.removeFromFields l target)
            = allIds (dragDrop.removeField l target).
Proof.
  intros l. apply removeFromFields_ids_step, List.Forall_forall. intros g _. revert g.
  induction g as [g IH] using JSONField_tree_ind. now apply removeFromFields_ids_step.
Qed.

(** X9. [removeField] of the generator removes what [removeField] of the
    engine removes: the same ids remain, in the same order, unless nothing
    remains and the blank field is reinstated.  With a fresh id for that
    blank field, no field carries the removed id afterwards, and no id is
    new but the blank field's. *)
Theorem generator_removeField_leaves_no_field_with_the_id
  (fields : list JSONField) (target newId : jstring) :
  newId <> target ->
  JSONGenerator.getFieldById (JSONGenerator.removeField fields target newId) target
  = None /\
  incl (allIds (JSONGenerator.removeField fields target newId))
       (newId :: allIds fields) /\
  (dragDrop.removeField fields target <> [] ->
   allIds (JSONGenerator.removeField fields target newId)
   = allIds (dragDrop.removeField fields target)).
Proof.
  intros Hnew. rewrite getFieldById_findField, findField_None_allIds.
  destruct (removalOfIds_all target fields) as (H1 & H2 & _).
  pose proof (removeFromFields_ids target fields) as E.
  unfold JSONGenerator.removeField.
  destruct (JSONGenerator.removeFromFields fields target) as [|g gs] eqn:Er.
  - split; [|split].
    + intros [H | []]. now apply Hnew.
    + intros x [<- | []]. now left.
    + intros Hne. destruct (dragDrop.removeField fields target) as [|r rs];
        [now destruct Hne|].
      rewrite allIds_cons, allIds_in_unfold in E. discriminate.
  - rewrite E. split; [exact H1 | split; [now apply incl_tl | reflexivity]].
Qed.

Lemma generator_removeField_witness :
  JSONGenerator.getFieldById
    (JSONGenerator.removeField
       [branch "a" "xs" Tarray [leaf "b" "0" Tstring "v"; leaf "c" "1" Tstring "w"]]
       (js "b") (js "n"))
    (js "b") = None /\
  allIds (JSONGenerator.removeField
            [branch "a" "xs" Tarray [leaf "b" "0" Tstring "v"; leaf "c" "1" Tstring "w"]]
            (js "b") (js "n"))
  = [js "a"; js "c"].
Proof.
  pose proof (generator_removeField_leaves_no_field_with_the_id
                [branch "a" "xs" Tarray
                   [leaf "b" "0" Tstring "v"; leaf "c" "1" Tstring "w"]]
                (js "b") (js "n")) as H.
  split; [apply H; discriminate | reflexivity].
Defined.

(** ** Where a move puts the dragged field *)

Lemma splice_insert_nat {A} (l : list A) (i : nat) (x : A) :
  splice_insert l (Z.of_nat i) x = firstn i l ++ x :: skipn i l.
Proof.
  unfold splice_insert.
  destruct (Z.of_nat i <? 0) eqn:E; [apply Z.ltb_lt in E; lia|].
  destruct (Nat.le_gt_cases i (length l)) as [Hle | Hgt].
  - rewrite Z.min_l by lia. now rewrite Nat2Z.id.
  - rewrite Z.min_r by lia. rewrite Nat2Z.id.
    rewrite !firstn_all2 by lia. rewrite !skipn_all2 by lia. reflexivity.
Qed.

Lemma findIndex_None {A} (p : A -> bool) l :
  findIndex p l = None -> Forall (fun a => p a = false) l.
Proof.
  induction l as [|a l IH]; simpl; [constructor|].
  destruct (p a) eqn:E; [discriminate|].
  destruct (findIndex p l); [discriminate|]. intros _. constructor; auto.
Qed.

Lemma withChildren_children field cs :
  children field = Some cs -> withChildren field cs = field.
Proof. destruct field. simpl. now intros ->. Qed.

Lemma insertField_in_unfold fieldToInsert index pid field :
  dragDrop.insertField_in fieldToInsert index pid field =
  if decide (id field = pid)
  then withChildren field
         (splice_insert (childrenOrEmpty field) (Z.of_nat index) fieldToInsert)
  else match children field with
       | Some cs =>
           withChildren field
             (List.map (dragDrop.insertField_in fieldToInsert index pid) cs)
       | None => field
       end.
Proof. destruct field; reflexivity. Qed.

Lemma map_fixed {A} (g : A -> A) l : Forall (fun a => g a = a) l -> List.map g l = l.
Proof. induction 1 as [|a l E _ IH]; simpl; [reflexivity | now rewrite E, IH]. Qed.

(** Insertion under a parent id that no field carries changes nothing. *)
Lemma insertField_in_absent fieldToInsert index pid :
  forall field, ~ In pid (allIds_in field) ->
    dragDrop.insertField_in fieldToInsert index pid field = field.
Proof.
  induction field as [field IH] using JSONField_tree_ind.
  rewrite allIds_in_unfold, insertField_in_unfold. intros H.
  destruct (decide (id field = pid)) as [E|NE]; [destruct H; now left|].
  destruct (children field) as [cs|] eqn:Ecs; [|reflexivity].
  rewrite (children_childrenOrEmpty _ _ Ecs) in *.
  rewrite map_fixed; [now apply withChildren_children|].
  rewrite List.Forall_forall in *. intros c Hc. apply IH; [exact Hc|].
  intros Hin. apply H. right. unfold allIds.
  change (In pid (flat_map allIds_in cs)). apply in_flat_map. eauto.
Qed.

Lemma insertField_absent fields fieldToInsert index pid :
  ~ In pid (allIds fields) ->
  List.map (dragDrop.insertField_in fieldToInsert index pid) fields = fields.
Proof.
  intros H. apply map_fixed, List.Forall_forall. intros f Hf.
  apply insertField_in_absent. intros Hin. apply H.
  change (In pid (flat_map allIds_in fields)). apply in_flat_map. eauto.
Qed.

(** X10. A move whose new parent id is given but carried by no field of the
    tree without the dragged field loses the dragged field: the result is the
    tree without it. *)
Theorem moveField_under_unresolved_parent_loses_the_field
  (fields : list JSONField) (dragId hoverId pid : jstring) :
  In dragId (allIds fields) ->
  In hoverId (allIds fields) ->
  pid <> [] ->
  ~ In pid (allIds (dragDrop.removeField fields dragId)) ->
  dragDrop.moveField fields dragId hoverId (Some pid)
  = dragDrop.removeField fields dragId /\
  dragDrop.findField (dragDrop.moveField fields dragId hoverId (Some pid)) dragId
  = None.
Proof.
  intros Hd Hh Hpid Hp.
  assert (E : dragDrop.moveField fields dragId hoverId (Some pid)
              = dragDrop.removeField fields dragId).
  { rewrite moveField_unfold.
    destruct (dragDrop.findField fields dragId) as [df|] eqn:Ed;
      [|apply findField_None_allIds in Ed; contradiction].
    destruct (dragDrop.findField fields hoverId) as [hf|] eqn:Eh;
      [|apply findField_None_allIds in Eh; contradiction].
    unfold dragDrop.insertField.
    assert (given (Some pid) = Some pid) as ->
        by (destruct pid; [contradiction | reflexivity]).
    now apply insertField_absent. }
  split; [exact E|]. rewrite E.
  apply findField_None_allIds, (removalOfIds_all dragId fields).
Qed.

(** The tree of the scenario: [b] was created under a parent [a] that has
    since been removed, and still names it as its parent. *)
Lemma moveField_under_unresolved_parent_witness :
  dragDrop.moveField
    [mkField (js "b") (js "y") (JStr []) Tstring None (Some []) (Some false) (Some 0)
       (Some (js "a"));
     leaf "c" "z" Tstring "w"]
    (js "c") (js "b") (Some (js "a"))
  = [mkField (js "b") (js "y") (JStr []) Tstring None (Some []) (Some false) (Some 0)
       (Some (js "a"))].
Proof.
  apply (moveField_under_unresolved_parent_loses_the_field
           [mkField (js "b") (js "y") (JStr []) Tstring None (Some []) (Some false)
              (Some 0) (Some (js "a"));
            leaf "c" "z" Tstring "w"]
           (js "c") (js "b") (js "a")).
  - simpl. tauto.
  - simpl. tauto.
  - discriminate.
  - apply findField_None_allIds. reflexivity.
Defined.

(** The scenario behind X10, through the handlers of the editor: [b] is
    created under [a] and dragged to the root, [a] is removed, and a drop of
    [c] before [b] then asks for the parent [b] still names. *)
Example stale_parent_id_scenario :
  let b := mkField (js "b") (js "y") (JStr []) Tstring None (Some []) (Some false)
             (Some 0) (Some (js "a")) in
  let c := leaf "c" "z" Tstring "w" in
  let t0 := [branch "a" "o" Tobject [b]; c] in
  let t1 := FieldInput.handleDrop t0 c (Some FieldInput.before) (js "b") in
  let t2 := JSONGenerator.removeField t1 (js "a") (js "n") in
  t1 = [branch "a" "o" Tobject []; b; c] /\
  t2 = [b; c] /\
  FieldInput.handleDrop t2 b (Some FieldInput.before) (js "c") = [b].
Proof. repeat split; reflexivity. Qed.

Lemma In_firstn {A} (x : A) n l : In x (firstn n l) -> In x l.
Proof. intros H. rewrite <- (firstn_skipn n l). apply in_app_iff. now left. Qed.

Lemma firstFound_app_None {A B} (body : A -> option B) l1 l2 :
  Forall (fun a => body a = None) l1 ->
  firstFound body (l1 ++ l2) = firstFound body l2.
Proof.
  induction 1 as [|a l1 E _ IH]; [reflexivity|].
  rewrite <- app_comm_cons, firstFound_cons, E. exact IH.
Qed.

Lemma In_allIds_of_member x f l : In f l -> In x (allIds_in f) -> In x (allIds l).
Proof.
  intros Hf Hx. change (In x (flat_map allIds_in l)). apply in_flat_map. eauto.
Qed.

Lemma findField_in_None_allIds target field :
  dragDrop.findField_in target field = None <-> ~ In target (allIds_in field).
Proof.
  rewrite <- (app_nil_r (allIds_in field)).
  change (allIds_in field ++ []) with (allIds [field]).
  rewrite <- findField_None_allIds. unfold dragDrop.findField.
  rewrite firstFound_cons. now destruct (dragDrop.findField_in target field).
Qed.

Lemma findField_in_self field : dragDrop.findField_in (id field) field = Some field.
Proof. rewrite findField_in_unfold. now destruct (decide (id field = id field)). Qed.

Lemma found_after_insert_step df index pid l :
  Forall (fun f => ~ In (id df) (allIds_in f) -> In pid (allIds_in f) ->
                   dragDrop.findField_in (id df)
                     (dragDrop.insertField_in df index pid f) = Some df) l ->
  ~ In (id df) (allIds l) -> In pid (allIds l) ->
  dragDrop.findField (List.map (dragDrop.insertField_in df index pid) l) (id df)
  = Some df.
Proof.
  unfold dragDrop.findField.
  induction 1 as [|f l Hf _ IH]; [intros _ []|].
  rewrite allIds_cons. intros Hd Hp. cbn [List.map]. rewrite firstFound_cons.
  assert (Hdf : ~ In (id df) (allIds_in f)) by (rewrite in_app_iff in Hd; tauto).
  assert (Hdl : ~ In (id df) (allIds l)) by (rewrite in_app_iff in Hd; tauto).
  destruct (in_dec (fun a b : jstring => decide (a = b)) pid (allIds_in f))
    as [Hin | Hout].
  - now rewrite (Hf Hdf Hin).
  - rewrite (insertField_in_absent df index pid f Hout).
    rewrite (proj2 (findField_in_None_allIds _ _) Hdf).
    apply IH; [exact Hdl|]. apply in_app_iff in Hp. tauto.
Qed.

Lemma found_after_insert df index pid :
  forall field, ~ In (id df) (allIds_in field) -> In pid (allIds_in field) ->
    dragDrop.findField_in (id df) (dragDrop.insertField_in df index pid field)
    = Some df.
Proof.
  induction field as [field IH] using JSONField_tree_ind.
  rewrite allIds_in_unfold, insertField_in_unfold. intros Hd Hp.
  assert (Hne : id field <> id df) by (intros E; apply Hd; now left).
  assert (Hdc : ~ In (id df) (allIds (childrenOrEmpty field)))
    by (intros H; apply Hd; now right).
  destruct (decide (id field = pid)) as [E|NE].
  - rewrite findField_in_unfold. cbn [withChildren id children].
    destruct (decide (id field = id df)); [contradiction|].
    rewrite splice_insert_nat. unfold dragDrop.findField.
    rewrite firstFound_app_None.
    + now rewrite firstFound_cons, findField_in_self.
    + apply List.Forall_forall. intros c Hc. apply findField_in_None_allIds.
      intros Hin. apply Hdc.
      apply In_allIds_of_member with (f := c); [|exact Hin].
      now apply In_firstn in Hc.
  - destruct Hp as [Hp | Hp]; [contradiction|].
    unfold childrenOrEmpty in IH, Hdc, Hp.
    destruct (children field) as [cs|] eqn:Ecs; [|destruct Hp].
    rewrite findField_in_unfold. cbn [withChildren id children].
    destruct (decide (id field = id df)); [contradiction|].
    now apply found_after_insert_step.
Qed.

(** X11. Where a move reinserts the dragged field -- among the root fields,
    or under a parent that the tree without the dragged field has -- the
    field is found again under its id exactly as it was found before the
    move: key, value and children, and also the depth and the parent id it
    carried. *)
Theorem moveField_reinserts_the_field_as_found
  (fields : list JSONField) (dragId hoverId : jstring)
  (hoverParentId : option jstring) (dragField : JSONField) :
  dragDrop.findField fields dragId = Some dragField ->
  given hoverParentId = None \/
  (exists pid, given hoverParentId = Some pid /\
               In pid (allIds (dragDrop.removeField fields dragId))) ->
  dragDrop.findField (dragDrop.moveField fields dragId hoverId hoverParentId) dragId
  = Some dragField.
Proof.
  intros Hd Hp. rewrite moveField_unfold, Hd.
  destruct (dragDrop.findField fields hoverId) as [hf|]; [|exact Hd].
  apply findField_Some in Hd as [Hid _]. subst dragId.
  assert (Hgone : ~ In (id dragField)
                      (allIds (dragDrop.removeField fields (id dragField))))
    by apply (removalOfIds_all (id dragField) fields).
  unfold dragDrop.insertField. destruct Hp as [-> | (pid & -> & Hin)].
  - rewrite splice_insert_nat. unfold dragDrop.findField.
    rewrite firstFound_app_None.
    + now rewrite firstFound_cons, findField_in_self.
    + apply List.Forall_forall. intros c Hc. apply findField_in_None_allIds.
      intros Hin. apply Hgone.
      apply In_allIds_of_member with (f := c); [|exact Hin].
      now apply In_firstn in Hc.
  - apply found_after_insert_step; [|exact Hgone|exact Hin].
    apply List.Forall_forall. intros f _. apply found_after_insert.
Qed.

Lemma moveField_reinserts_witness :
  dragDrop.findField
    (dragDrop.moveField
       [branch "a" "o" Tobject
          [mkField (js "b") (js "y") (JStr []) Tstring None (Some []) (Some false)
             (Some 1) (Some (js "a"))];
        leaf "c" "z" Tstring "w"]
       (js "b") (js "c") None)
    (js "b")
  = Some (mkField (js "b") (js "y") (JStr []) Tstring None (Some []) (Some false)
            (Some 1) (Some (js "a"))).
Proof.
  apply moveField_reinserts_the_field_as_found; [reflexivity | now left].
Defined.

Lemma findIndex_split {A} (p : A -> bool) l i :
  findIndex p l = Some i ->
  exists pre x post, l = pre ++ x :: post /\ length pre = i /\
                     Forall (fun a => p a = false) pre /\ p x = true.
Proof.
  revert i. induction l as [|a l IH]; intros i; simpl; [discriminate|].
  destruct (p a) eqn:E.
  - intros [= <-]. exists [], a, l. repeat split; auto.
  - destruct (findIndex p l) as [j|]; [|discriminate].
    intros [= <-]. destruct (IH j eq_refl) as (pre & x & post & -> & <- & Hpre & Hx).
    exists (a :: pre), x, post. repeat split; auto.
Qed.

Lemma splice_insert_split {A} (pre post : list A) (x : A) :
  splice_insert (pre ++ post) (Z.of_nat (length pre)) x = pre ++ x :: post.
Proof.
  rewrite splice_insert_nat.
  rewrite firstn_app, Nat.sub_diag, firstn_all, firstn_O, app_nil_r.
  rewrite skipn_app, Nat.sub_diag, skipn_all. reflexivity.
Qed.

Lemma removeField_in_id target field : id (dragDrop.removeField_in target field) = id field.
Proof. now rewrite removeField_in_unfold. Qed.

Lemma removeField_root_In fields target f :
  In f fields -> id f <> target ->
  In (dragDrop.removeField_in target f) (dragDrop.removeField fields target).
Proof.
  intros Hf Hne. unfold dragDrop.removeField. rewrite filterMap_spec.
  apply in_map, filter_In. split; [exact Hf|].
  now rewrite (bool_decide_eq_false_2 _ Hne).
Qed.

(** X12. A move with no parent id puts the dragged field among the root
    fields, immediately before the first root field that carries the hover
    id; around it stands the tree without the dragged field.  When no root
    field carries the hover id -- it resolves to a nested field -- the
    dragged field goes to the end of the root list. *)
Theorem moveField_at_the_root_lands_before_the_hover_field
  (fields : list JSONField) (dragId hoverId : jstring)
  (hoverParentId : option jstring) (dragField : JSONField) :
  dragDrop.findField fields dragId = Some dragField ->
  In hoverId (allIds fields) ->
  given hoverParentId = None ->
  (forall hoverField,
      In hoverField fields -> id hoverField = hoverId -> hoverId <> dragId ->
      exists pre target post,
        dragDrop.removeField fields dragId = pre ++ target :: post /\
        Forall (fun f => id f <> hoverId) pre /\ id target = hoverId /\
        dragDrop.moveField fields dragId hoverId hoverParentId
        = pre ++ dragField :: target :: post) /\
  ((forall f, In f fields -> id f <> hoverId) ->
   dragDrop.moveField fields dragId hoverId hoverParentId
   = dragDrop.removeField fields dragId ++ [dragField]).
Proof.
  intros Hd Hh Hp. rewrite moveField_unfold, Hd.
  destruct (dragDrop.findField fields hoverId) as [hf|] eqn:Eh;
    [|apply findField_None_allIds in Eh; contradiction].
  unfold dragDrop.insertField, dragDrop.findInsertIndex. rewrite Hp.
  set (fw := dragDrop.removeField fields dragId).
  destruct (findIndex (fun f => bool_decide (id f = hoverId)) fw) as [i|] eqn:Ei.
  - apply findIndex_split in Ei as (pre & x & post & Efw & <- & Hpre & Hx).
    apply bool_decide_eq_true in Hx. split.
    + intros _ _ _ _. exists pre, x, post. rewrite Efw.
      split; [reflexivity|]. split; [|split; [exact Hx|]].
      * apply List.Forall_impl with (2 := Hpre). intros f Hf.
        now apply bool_decide_eq_false in Hf.
      * apply splice_insert_split.
    + intros Hnone. exfalso.
      assert (Hin : In x fw) by (rewrite Efw; apply in_app_iff; right; now left).
      unfold fw, dragDrop.removeField in Hin. rewrite filterMap_spec in Hin.
      apply in_map_iff in Hin as (f & <- & Hf). apply filter_In in Hf as [Hf _].
      rewrite removeField_in_id in Hx. exact (Hnone f Hf Hx).
  - apply findIndex_None in Ei. split.
    + intros hoverField Hin Hid Hne. exfalso.
      rewrite List.Forall_forall in Ei.
      specialize (Ei _ (removeField_root_In fields dragId hoverField Hin
                          ltac:(congruence))).
      apply bool_decide_eq_false in Ei. apply Ei.
      now rewrite removeField_in_id.
    + intros _. rewrite <- (app_nil_r fw) at 1.
      rewrite splice_insert_split. reflexivity.
Qed.

Lemma moveField_at_the_root_witness :
  exists pre target post,
    dragDrop.removeField
      [leaf "a" "x" Tstring "1"; leaf "b" "y" Tstring "2"; leaf "c" "z" Tstring "3"]
      (js "c") = pre ++ target :: post /\
    Forall (fun f => id f <> js "b") pre /\ id target = js "b" /\
    dragDrop.moveField
      [leaf "a" "x" Tstring "1"; leaf "b" "y" Tstring "2"; leaf "c" "z" Tstring "3"]
      (js "c") (js "b") None
    = pre ++ leaf "c" "z" Tstring "3" :: target :: post.
Proof.
  apply (proj1 (moveField_at_the_root_lands_before_the_hover_field
                  [leaf "a" "x" Tstring "1"; leaf "b" "y" Tstring "2";
                   leaf "c" "z" Tstring "3"]
                  (js "c") (js "b") None (leaf "c" "z" Tstring "3")
                  eq_refl ltac:(simpl; tauto) eq_refl)
          (leaf "b" "y" Tstring "2"));
    [simpl; tauto | reflexivity | discriminate].
Defined.

(** ** A move keeps the fields of the tree *)

Lemma findField_cons f l target :
  dragDrop.findField (f :: l) target =
  match dragDrop.findField_in target f with
  | Some g => Some g
  | None => dragDrop.findField l target
  end.
Proof. reflexivity. Qed.

Lemma findField_in_children target field :
  id field <> target ->
  dragDrop.findField_in target field
  = dragDrop.findField (childrenOrEmpty field) target.
Proof.
  intros NE. rewrite findField_in_unfold.
  destruct (decide (id field = target)); [contradiction|].
  unfold childrenOrEmpty. now destruct (children field).
Qed.

Lemma NoDup_allIds_cons f l :
  NoDup (allIds (f :: l)) ->
  ~ In (id f) (allIds (childrenOrEmpty f)) /\
  NoDup (allIds (childrenOrEmpty f)) /\ NoDup (allIds l) /\
  (forall x, In x (allIds_in f) -> ~ In x (allIds l)).
Proof.
  rewrite allIds_cons, allIds_in_unfold. intros H.
  apply NoDup_app in H as (Hf & Hdis & Hl).
  apply NoDup_cons in Hf as [Hid Hcs].
  split; [|split; [exact Hcs | split; [exact Hl|]]].
  - intros Hin. apply Hid. now apply list_elem_of_In.
  - intros x Hx Hx'. apply (Hdis x); now apply list_elem_of_In.
Qed.

Lemma detaches_step target l :
  Forall (fun f => detaches target (childrenOrEmpty f)) l -> detaches target l.
Proof.
  induction 1 as [|f l Hf _ IH]; intros found Hnd Hfound; [discriminate|].
  destruct (NoDup_allIds_cons _ _ Hnd) as (Hid & Hcs & Hl & Hdis).
  rewrite findField_cons in Hfound. rewrite removeField_cons.
  assert (Hkeep : In target (allIds_in f) ->
                  allIds (dragDrop.removeField l target) = allIds l).
  { intros Hin. apply (removalOfIds_all target l). now apply Hdis. }
  destruct (decide (id f = target)) as [E|NE].
  - rewrite findField_in_unfold in Hfound.
    destruct (decide (id f = target)); [|contradiction].
    injection Hfound as <-. rewrite Hkeep; [reflexivity|].
    rewrite allIds_in_unfold. now left.
  - rewrite (findField_in_children _ _ NE) in Hfound.
    rewrite !allIds_cons, removeField_in_unfold, allIds_in_withChildren,
      (allIds_in_unfold f).
    destruct (dragDrop.findField (childrenOrEmpty f) target) as [g|] eqn:Eg.
    + injection Hfound as ->.
      rewrite Hkeep.
      * rewrite (Hf found Hcs Eg) at 1.
        cbn [app]. rewrite <- !app_assoc. cbn [app].
        apply Permutation_middle.
      * rewrite allIds_in_unfold. right.
        apply findField_Some in Eg as [Eid Hin]. apply In_allIds. eauto.
    + apply findField_None_allIds in Eg.
      rewrite (proj2 (proj2 (removalOfIds_all target (childrenOrEmpty f))) Eg).
      rewrite (IH found Hl Hfound) at 1.
      rewrite app_assoc.
      rewrite (Permutation_app_comm (id f :: allIds (childrenOrEmpty f))
                 (allIds_in found)).
      now rewrite <- app_assoc.
Qed.

Lemma detaches_all target : forall l, detaches target l.
Proof.
  intros l. apply detaches_step, List.Forall_forall. intros g _. revert g.
  induction g as [g IH] using JSONField_tree_ind. now apply detaches_step.
Qed.

Lemma allIds_splice l (i : nat) (x : JSONField) :
  Permutation (allIds (splice_insert l (Z.of_nat i) x)) (allIds_in x ++ allIds l).
Proof.
  rewrite splice_insert_nat, allIds_app, allIds_cons.
  rewrite <- (firstn_skipn i l) at 3. rewrite allIds_app.
  rewrite app_assoc, (Permutation_app_comm (allIds (firstn i l)) (allIds_in x)).
  now rewrite <- app_assoc.
Qed.

Lemma attaches_step x index pid l :
  Forall (fun f => attaches x index pid (childrenOrEmpty f)) l ->
  attaches x index pid l.
Proof.
  induction 1 as [|f l Hf _ IH]; intros Hnd Hpid; [destruct Hpid|].
  destruct (NoDup_allIds_cons _ _ Hnd) as (Hid & Hcs & Hl & Hdis).
  cbn [List.map]. rewrite !allIds_cons.
  destruct (in_dec (fun a b : jstring => decide (a = b)) pid (allIds_in f))
    as [Hin | Hout].
  - rewrite (insertField_absent l x index pid (Hdis pid Hin)).
    rewrite app_assoc. apply Permutation_app_tail.
    rewrite insertField_in_unfold.
    destruct (decide (id f = pid)) as [E|NE].
    + rewrite allIds_in_withChildren, (allIds_in_unfold f), allIds_splice.
      apply Permutation_middle.
    + rewrite allIds_in_unfold in Hin. destruct Hin as [Hin | Hin]; [contradiction|].
      unfold attaches, childrenOrEmpty in Hf, Hin, Hcs.
      rewrite (allIds_in_unfold f). unfold childrenOrEmpty.
      destruct (children f) as [cs|]; [|destruct Hin].
      rewrite allIds_in_withChildren, (Hf Hcs Hin).
      apply Permutation_middle.
  - rewrite (insertField_in_absent x index pid f Hout).
    rewrite allIds_cons in Hpid. apply in_app_iff in Hpid as [Hp | Hp];
      [contradiction|].
    rewrite (IH Hl Hp), !app_assoc.
    apply Permutation_app_tail, Permutation_app_comm.
Qed.

Lemma attaches_all x index pid : forall l, attaches x index pid l.
Proof.
  intros l. apply attaches_step, List.Forall_forall. intros g _. revert g.
  induction g as [g IH] using JSONField_tree_ind. now apply attaches_step.
Qed.

Lemma moveField_keeps_ids fields dragId hoverId hoverParentId :
  NoDup (allIds fields) ->
  given hoverParentId = None \/
  (exists pid, given hoverParentId = Some pid /\
               In pid (allIds (dragDrop.removeField fields dragId))) ->
  Permutation (allIds (dragDrop.moveField fields dragId hoverId hoverParentId))
    (allIds fields).
Proof.
  intros Hnd Hp. rewrite moveField_unfold.
  destruct (dragDrop.findField fields dragId) as [df|] eqn:Ed; [|reflexivity].
  destruct (dragDrop.findField fields hoverId) as [hf|]; [|reflexivity].
  pose proof (detaches_all dragId fields df Hnd Ed) as Hperm.
  rewrite Hperm. unfold dragDrop.insertField.
  destruct Hp as [-> | (pid & -> & Hin)]; [apply allIds_splice|].
  apply attaches_all; [|exact Hin].
  rewrite Hperm in Hnd. now apply NoDup_app in Hnd as (_ & _ & Hnd).
Qed.

(** X13. With distinct ids, a move that reinserts the dragged field -- among
    the root fields, or under a parent that the tree without the dragged
    field has -- neither loses nor duplicates a field: the tree carries the
    same ids after it, still distinct. *)
Theorem moveField_keeps_every_field
  (fields : list JSONField) (dragId hoverId : jstring)
  (hoverParentId : option jstring) :
  NoDup (allIds fields) ->
  given hoverParentId = None \/
  (exists pid, given hoverParentId = Some pid /\
               In pid (allIds (dragDrop.removeField fields dragId))) ->
  Permutation (allIds (dragDrop.moveField fields dragId hoverId hoverParentId))
    (allIds fields) /\
  NoDup (allIds (dragDrop.moveField fields dragId hoverId hoverParentId)).
Proof.
  intros Hnd Hp.
  pose proof (moveField_keeps_ids fields dragId hoverId hoverParentId Hnd Hp) as H.
  split; [exact H | now rewrite H].
Qed.

Lemma moveField_keeps_every_field_witness :
  Permutation
    (allIds (dragDrop.moveField
               [branch "a" "o" Tobject [leaf "b" "y" Tstring "1"];
                leaf "c" "z" Tstring "2"]
               (js "c") (js "b") (Some (js "a"))))
    [js "a"; js "b"; js "c"].
Proof.
  apply (moveField_keeps_every_field
           [branch "a" "o" Tobject [leaf "b" "y" Tstring "1"];
            leaf "c" "z" Tstring "2"]
           (js "c") (js "b") (Some (js "a"))).
  - compute_done.
  - right. exists (js "a"). split; [reflexivity | simpl; tauto].
Defined.

(** ** Distinct ids *)

Lemma InTree_cons f c l :
  InTree f (c :: l) <-> f = c \/ InTree f (childrenOrEmpty c) \/ InTree f l.
Proof.
  rewrite (InTree_cases f (c :: l)). split.
  - intros (g & [<- | Hg] & H); [tauto|].
    right; right. apply InTree_cases. eauto.
  - intros [-> | [H | H]].
    + exists c. split; [now left | now left].
    + exists c. split; [now left | now right].
    + apply InTree_cases in H as (g & Hg & H). exists g. split; [now right | exact H].
Qed.

Lemma InTree_trans f g l :
  InTree g l -> InTree f (childrenOrEmpty g) -> InTree f l.
Proof.
  induction 1 as [l Hg | g0 l Hg0 _ IH]; intros Hf.
  - now apply InTree_below with (g := g).
  - apply InTree_below with (g := g0); [exact Hg0 | now apply IH].
Qed.

Lemma InTree_allIds f l : InTree f l -> In (id f) (allIds l).
Proof. intros H. apply In_allIds. eauto. Qed.

Lemma InTree_unique_step l :
  Forall (fun c => NoDup (allIds (childrenOrEmpty c)) ->
                   forall f g, InTree f (childrenOrEmpty c) ->
                               InTree g (childrenOrEmpty c) ->
                               id f = id g -> f = g) l ->
  NoDup (allIds l) ->
  forall f g, InTree f l -> InTree g l -> id f = id g -> f = g.
Proof.
  induction 1 as [|c l Hc _ IH]; intros Hnd f g Hf Hg E.
  - apply InTree_cases in Hf as (? & [] & _).
  - destruct (NoDup_allIds_cons _ _ Hnd) as (Hid & Hcs & Hl & Hdis).
    assert (Hdis' : forall x, id c = x \/ In x (allIds (childrenOrEmpty c)) ->
                              ~ In x (allIds l))
      by (intros x Hx; apply Hdis; now rewrite allIds_in_unfold).
    apply InTree_cons in Hf, Hg.
    destruct Hf as [-> | [Hf | Hf]], Hg as [-> | [Hg | Hg]];
      try (pose proof (InTree_allIds _ _ Hf) as Hf');
      try (pose proof (InTree_allIds _ _ Hg) as Hg').
    + reflexivity.
    + destruct Hid. now rewrite E.
    + destruct (Hdis' (id c)); [now left | now rewrite E].
    + destruct Hid. now rewrite <- E.
    + now apply Hc.
    + destruct (Hdis' (id f)); [now right | now rewrite E].
    + destruct (Hdis' (id c)); [now left | now rewrite <- E].
    + destruct (Hdis' (id g)); [now right | now rewrite <- E].
    + now apply IH.
Qed.

(** With distinct ids, a field of the tree is known by its id. *)
Lemma InTree_unique l :
  NoDup (allIds l) ->
  forall f g, InTree f l -> InTree g l -> id f = id g -> f = g.
Proof.
  apply InTree_unique_step, List.Forall_forall. intros c _. revert c.
  induction c as [c IH] using JSONField_tree_ind. now apply InTree_unique_step.
Qed.

Lemma findField_unique fields f :
  NoDup (allIds fields) -> InTree f fields ->
  dragDrop.findField fields (id f) = Some f.
Proof.
  intros Hnd Hf. destruct (dragDrop.findField fields (id f)) as [g|] eqn:E.
  - apply findField_Some in E as [E Hg]. f_equal. now apply (InTree_unique fields).
  - now destruct (findField_None _ _ E f Hf).
Qed.

(** X14. With distinct ids, the lookups by id return the field itself: for
    every field of the tree, at any depth, [findField] and [getFieldById]
    called with its id return that field. *)
Theorem lookup_by_id_returns_the_field
  (fields : list JSONField) (f : JSONField) :
  NoDup (allIds fields) -> InTree f fields ->
  dragDrop.findField fields (id f) = Some f /\
  JSONGenerator.getFieldById fields (id f) = Some f.
Proof.
  intros Hnd Hf. rewrite getFieldById_findField.
  split; now apply findField_unique.
Qed.

Lemma lookup_by_id_witness :
  JSONGenerator.getFieldById
    [branch "a" "o" Tobject [leaf "b" "y" Tstring "1"]; leaf "c" "z" Tstring "2"]
    (js "b")
  = Some (leaf "b" "y" Tstring "1").
Proof.
  apply (lookup_by_id_returns_the_field
           [branch "a" "o" Tobject [leaf "b" "y" Tstring "1"];
            leaf "c" "z" Tstring "2"]
           (leaf "b" "y" Tstring "1")).
  - compute_done.
  - apply InTree_below with (g := branch "a" "o" Tobject [leaf "b" "y" Tstring "1"]);
      [now left | constructor; now left].
Defined.

(** ** Drops through the editor *)

Lemma remains_after_removal fields dragId x :
  NoDup (allIds fields) -> In x (allIds fields) ->
  (forall dragField, dragDrop.findField fields dragId = Some dragField ->
                     ~ In x (allIds_in dragField)) ->
  In x (allIds (dragDrop.removeField fields dragId)).
Proof.
  intros Hnd Hx Hout.
  destruct (dragDrop.findField fields dragId) as [df|] eqn:Ed.
  - pose proof (detaches_all dragId fields df Hnd Ed) as Hperm.
    pose proof (Permutation_in x Hperm Hx) as Hx'.
    apply in_app_iff in Hx' as [Hx' | Hx']; [|exact Hx'].
    now destruct (Hout df eq_refl).
  - apply findField_None_allIds in Ed.
    now rewrite (proj2 (proj2 (removalOfIds_all dragId fields)) Ed).
Qed.

Lemma In_allIds_in_Descendant x f :
  In x (allIds_in f) -> id f = x \/ Descendant f x.
Proof.
  rewrite allIds_in_unfold. intros [E | H]; [now left|]. right.
  apply In_allIds in H as (g & Hg & <-).
  now apply InTree_Descendant with (fields := childrenOrEmpty f).
Qed.

(** X15. With distinct ids, a drop through the editor neither loses nor
    duplicates a field, whatever the drop zone, provided the parent id the
    target field carries -- when it carries one -- is the id of the field
    whose child it is. *)
Theorem handleDrop_keeps_every_field
  (allFields : list JSONField) (field : JSONField)
  (dragOver : option FieldInput.DropZone) (dragId : jstring) :
  NoDup (allIds allFields) ->
  InTree field allFields ->
  (forall pid, given (parentId field) = Some pid ->
     exists parent, InTree parent allFields /\ id parent = pid /\
                    In field (childrenOrEmpty parent)) ->
  Permutation (allIds (FieldInput.handleDrop allFields field dragOver dragId))
    (allIds allFields) /\
  NoDup (allIds (FieldInput.handleDrop allFields field dragOver dragId)).
Proof.
  intros Hnd Hf Hparent.
  enough (H : Permutation
                (allIds (FieldInput.handleDrop allFields field dragOver dragId))
                (allIds allFields))
    by (split; [exact H | now rewrite H]).
  unfold FieldInput.handleDrop.
  destruct (decide (dragId = id field)) as [E|NE]; [reflexivity|].
  destruct (dragDrop.canDrop dragId (id field) allFields) eqn:Ecan; [|reflexivity].
  cbn [negb]. cbv zeta. unfold JSONGenerator.moveField.
  assert (Hself : In (id field) (allIds (dragDrop.removeField allFields dragId))).
  { apply remains_after_removal; [exact Hnd | now apply InTree_allIds|].
    intros df Hdf Hin. apply In_allIds_in_Descendant in Hin as [Hin | Hin].
    - apply findField_Some in Hdf as [Hid _]. congruence.
    - assert (dragDrop.canDrop dragId (id field) allFields = false); [|congruence].
      apply canDrop_false. right. eauto. }
  assert (Hpar : forall pid, given (parentId field) = Some pid ->
                   In pid (allIds (dragDrop.removeField allFields dragId))).
  { intros pid Hpid. destruct (Hparent pid Hpid) as (parent & Hp & <- & Hchild).
    apply remains_after_removal; [exact Hnd | now apply InTree_allIds|].
    intros df Hdf Hin.
    assert (dragDrop.canDrop dragId (id field) allFields = false); [|congruence].
    apply canDrop_false. right. exists df. split; [exact Hdf|].
    pose proof (findField_Some _ _ _ Hdf) as [_ Hdft].
    rewrite allIds_in_unfold in Hin. destruct Hin as [Hin | Hin].
    - assert (df = parent) as -> by now apply (InTree_unique allFields).
      now apply Descendant_child with (c := field).
    - apply In_allIds in Hin as (g & Hg & Hid).
      assert (g = parent) as ->.
      { apply (InTree_unique allFields); auto. now apply InTree_trans with (g := df). }
      apply InTree_Descendant with (fields := childrenOrEmpty df); [|reflexivity].
      apply InTree_trans with (g := parent); [exact Hg | now constructor]. }
  apply moveField_keeps_ids; [exact Hnd|].
  assert (Hstored : given (parentId field) = None \/
                    (exists pid, given (parentId field) = Some pid /\
                       In pid (allIds (dragDrop.removeField allFields dragId)))).
  { destruct (given (parentId field)) as [pid|] eqn:Ep; [|now left].
    right. exists pid. split; [reflexivity | now apply Hpar]. }
  destruct dragOver as [[]|]; try exact Hstored.
  destruct (bool_decide (type field = Tobject) || bool_decide (type field = Tarray));
    [|exact Hstored].
  destruct (given (Some (id field))) as [pid|] eqn:Ep; [|now left].
  right. exists pid. split; [reflexivity|].
  unfold given in Ep. destruct (truthy (id field)); [|discriminate].
  now injection Ep as <-.
Qed.

Lemma handleDrop_keeps_every_field_witness :
  Permutation
    (allIds (FieldInput.handleDrop
               [branch "a" "o" Tobject
                  [mkField (js "b") (js "y") (JStr []) Tstring None (Some [])
                     (Some false) (Some 1) (Some (js "a"))];
                leaf "c" "z" Tstring "2"]
               (mkField (js "b") (js "y") (JStr []) Tstring None (Some [])
                  (Some false) (Some 1) (Some (js "a")))
               (Some FieldInput.after) (js "c")))
    [js "a"; js "b"; js "c"].
Proof.
  apply (handleDrop_keeps_every_field
           [branch "a" "o" Tobject
              [mkField (js "b") (js "y") (JStr []) Tstring None (Some [])
                 (Some false) (Some 1) (Some (js "a"))];
            leaf "c" "z" Tstring "2"]
           (mkField (js "b") (js "y") (JStr []) Tstring None (Some [])
              (Some false) (Some 1) (Some (js "a")))
           (Some FieldInput.after) (js "c")).
  - compute_done.
  - eapply InTree_below; [now left | constructor; now left].
  - intros pid [= <-]. eexists. split; [constructor; now left|].
    split; [reflexivity | now left].
Defined.

(** ** The operations by id *)

Lemma updateInFields_in_absent target updates :
  forall field, ~ In target (allIds_in field) ->
    JSONGenerator.updateInFields_in target updates field = field.
Proof.
  induction field as [field IH] using JSONField_tree_ind.
  rewrite allIds_in_unfold, updateInFields_in_unfold. intros H.
  destruct (decide (id field = target)) as [E|NE]; [destruct H; now left|].
  destruct (children field) as [cs|] eqn:Ecs; [|reflexivity].
  rewrite (children_childrenOrEmpty _ _ Ecs) in *.
  unfold JSONGenerator.updateField.
  rewrite map_fixed; [now apply withChildren_children|].
  rewrite List.Forall_forall in *. intros c Hc. apply IH; [exact Hc|].
  intros Hin. apply H. right. now apply In_allIds_of_member with (f := c).
Qed.

Lemma updateField_absent fields target updates :
  ~ In target (allIds fields) ->
  JSONGenerator.updateField fields target updates = fields.
Proof.
  intros H. apply map_fixed, List.Forall_forall. intros f Hf.
  apply updateInFields_in_absent. intros Hin. apply H.
  now apply In_allIds_of_member with (f := f).
Qed.

Lemma updateChildren_in_unfold newField pid index field :
  JSONGenerator.updateChildren_in newField pid index field =
  if decide (id field = pid)
  then withChildren field
         match index with
         | Some i => splice_insert (childrenOrEmpty field) i newField
         | None => childrenOrEmpty field ++ [newField]
         end
  else match children field with
       | Some cs =>
           withChildren field
             (List.map (JSONGenerator.updateChildren_in newField pid index) cs)
       | None => field
       end.
Proof. destruct field; reflexivity. Qed.

Lemma updateChildren_in_absent newField pid index :
  forall field, ~ In pid (allIds_in field) ->
    JSONGenerator.updateChildren_in newField pid index field = field.
Proof.
  induction field as [field IH] using JSONField_tree_ind.
  rewrite allIds_in_unfold, updateChildren_in_unfold. intros H.
  destruct (decide (id field = pid)) as [E|NE]; [destruct H; now left|].
  destruct (children field) as [cs|] eqn:Ecs; [|reflexivity].
  rewrite (children_childrenOrEmpty _ _ Ecs) in *.
  rewrite map_fixed; [now apply withChildren_children|].
  rewrite List.Forall_forall in *. intros c Hc. apply IH; [exact Hc|].
  intros Hin. apply H. right. now apply In_allIds_of_member with (f := c).
Qed.

(** X16. An operation addressed to an id that no field of the tree carries
    returns the tree as it is: [updateField], [toggleCollapse], the type
    change of the editor, and [addField] under such a parent id -- the new
    field is then not added anywhere. *)
Theorem operations_on_an_absent_id_change_nothing
  (fields : list JSONField) (target : jstring) :
  ~ In target (allIds fields) ->
  (forall updates, JSONGenerator.updateField fields target updates = fields) /\
  JSONGenerator.toggleCollapse fields target = fields /\
  (forall newType, FieldInput.handleTypeChange fields target newType = fields) /\
  (forall newId index,
      target <> [] ->
      JSONGenerator.addField fields newId (Some target) index = fields).
Proof.
  intros H. split; [|split; [|split]].
  - intros updates. now apply updateField_absent.
  - now apply updateField_absent.
  - intros newType. now apply updateField_absent.
  - intros newId index Hne. unfold JSONGenerator.addField.
    assert (given (Some target) = Some target) as ->
        by (destruct target; [contradiction | reflexivity]).
    apply map_fixed, List.Forall_forall. intros f Hf.
    apply updateChildren_in_absent. intros Hin. apply H.
    now apply In_allIds_of_member with (f := f).
Qed.

Lemma operations_on_an_absent_id_witness :
  JSONGenerator.addField [branch "a" "o" Tobject [leaf "b" "y" Tstring "1"]]
    (js "n") (Some (js "zz")) None
  = [branch "a" "o" Tobject [leaf "b" "y" Tstring "1"]].
Proof.
  apply (operations_on_an_absent_id_change_nothing
           [branch "a" "o" Tobject [leaf "b" "y" Tstring "1"]] (js "zz"));
    [apply findField_None_allIds; reflexivity | discriminate].
Defined.

Lemma findInFields_in_added newField pid index :
  forall field,
    JSONGenerator.findInFields_in pid
      (JSONGenerator.updateChildren_in newField pid index field)
    = option_map
        (fun p => withChildren p
                    match index with
                    | Some i => splice_insert (childrenOrEmpty p) i newField
                    | None => childrenOrEmpty p ++ [newField]
                    end)
        (JSONGenerator.findInFields_in pid field).
Proof.
  induction field as [field IH] using JSONField_tree_ind.
  rewrite updateChildren_in_unfold, (findInFields_in_unfold pid field).
  destruct (decide (id field = pid)) as [E|NE].
  - rewrite findInFields_in_unfold. cbn [withChildren id].
    now destruct (decide (id field = pid)).
  - unfold childrenOrEmpty in IH.
    destruct (children field) as [cs|] eqn:Ecs.
    + rewrite findInFields_in_unfold. cbn [withChildren id children].
      destruct (decide (id field = pid)); [contradiction|].
      destruct cs as [|c cs]; [reflexivity|].
      cbn [List.map].
      change (JSONGenerator.updateChildren_in newField pid index c
              :: List.map (JSONGenerator.updateChildren_in newField pid index) cs)
        with (List.map (JSONGenerator.updateChildren_in newField pid index) (c :: cs)).
      exact (firstFound_map_commute _ _ _ _ IH).
    + rewrite findInFields_in_unfold, Ecs.
      now destruct (decide (id field = pid)).
Qed.

(** X17. [addField] under a parent id that resolves: the field found under
    that id afterwards is the parent with the blank field added to its
    children -- last when no index is given, at the index otherwise -- and
    the blank field names that parent. *)
Theorem addField_adds_a_blank_child_to_the_parent
  (fields : list JSONField) (newId pid : jstring) (index : option Z)
  (parent : JSONField) :
  pid <> [] ->
  JSONGenerator.getFieldById fields pid = Some parent ->
  JSONGenerator.getFieldById
    (JSONGenerator.addField fields newId (Some pid) index) pid
  = Some (withChildren parent
            match index with
            | Some i =>
                splice_insert (childrenOrEmpty parent) i
                  (mkField newId [] (JStr []) Tstring None (Some []) (Some false)
                     (Some 0) (Some pid))
            | None =>
                childrenOrEmpty parent ++
                [mkField newId [] (JStr []) Tstring None (Some []) (Some false)
                   (Some 0) (Some pid)]
            end).
Proof.
  intros Hne Hp. unfold JSONGenerator.addField.
  assert (given (Some pid) = Some pid) as ->
      by (destruct pid; [contradiction | reflexivity]).
  unfold JSONGenerator.getFieldById in *.
  rewrite (firstFound_map_commute _ _
             (fun p => withChildren p
                         match index with
                         | Some i => splice_insert (childrenOrEmpty p) i
                                       (JSONGenerator.blankField newId (Some pid))
                         | None => childrenOrEmpty p ++
                                   [JSONGenerator.blankField newId (Some pid)]
                         end)).
  - now rewrite Hp.
  - apply List.Forall_forall. intros f _. apply findInFields_in_added.
Qed.

Lemma addField_adds_a_blank_child_witness :
  JSONGenerator.getFieldById
    (JSONGenerator.addField
       [branch "a" "o" Tobject [leaf "b" "y" Tstring "1"]] (js "n") (Some (js "a")) None)
    (js "a")
  = Some (branch "a" "o" Tobject
            [leaf "b" "y" Tstring "1";
             mkField (js "n") [] (JStr []) Tstring None (Some []) (Some false)
               (Some 0) (Some (js "a"))]).
Proof.
  apply (addField_adds_a_blank_child_to_the_parent
           [branch "a" "o" Tobject [leaf "b" "y" Tstring "1"]] (js "n") (js "a") None
           (branch "a" "o" Tobject [leaf "b" "y" Tstring "1"]));
    [discriminate | reflexivity].
Defined.

Lemma updateField_cons f l target updates :
  JSONGenerator.updateField (f :: l) target updates
  = JSONGenerator.updateInFields_in target updates f
    :: JSONGenerator.updateField l target updates.
Proof. reflexivity. Qed.

Lemma updateField_ids_step target updates l :
  Partial.id updates = None -> Partial.children updates = None ->
  Forall (fun f => allIds (JSONGenerator.updateField (childrenOrEmpty f) target updates)
                   = allIds (childrenOrEmpty f)) l ->
  allIds (JSONGenerator.updateField l target updates) = allIds l.
Proof.
  intros Hi Hc. induction 1 as [|f l Hf _ IH]; [reflexivity|].
  rewrite updateField_cons, !allIds_cons, IH. f_equal.
  rewrite (allIds_in_unfold f), allIds_in_unfold.
  destruct (decide (id f = target)) as [E|NE].
  - rewrite updateInFields_in_unfold.
    destruct (decide (id f = target)); [|contradiction].
    now rewrite updatedField_id, updatedField_children.
  - rewrite updateInFields_in_children_other by exact NE. rewrite Hf. f_equal.
    rewrite updateInFields_in_unfold.
    destruct (decide (id f = target)); [contradiction|].
    now destruct (children f).
Qed.

Lemma updateField_ids target updates :
  Partial.id updates = None -> Partial.children updates = None ->
  forall l, allIds (JSONGenerator.updateField l target updates) = allIds l.
Proof.
  intros Hi Hc l. apply updateField_ids_step; [exact Hi | exact Hc|].
  apply List.Forall_forall. intros g _. revert g.
  induction g as [g IH] using JSONField_tree_ind. now apply updateField_ids_step.
Qed.

(** X18. After [updateField] with an update that holds no id, the field
    found under the target id is the field that was found before, merged
    with the update; and an update that holds neither id nor children leaves
    the ids of the tree, and their order, as they were. *)
Theorem updateField_lookup_returns_the_merged_field
  (fields : list JSONField) (target : jstring) (updates : Partial.t) :
  Partial.id updates = None ->
  JSONGenerator.getFieldById (JSONGenerator.updateField fields target updates) target
  = option_map (fun f => JSONGenerator.updatedField f updates)
      (JSONGenerator.getFieldById fields target) /\
  (Partial.children updates = None ->
   allIds (JSONGenerator.updateField fields target updates) = allIds fields).
Proof.
  intros Hi. split; [now apply getFieldById_update|].
  intros Hc. now apply updateField_ids.
Qed.

Lemma updateField_lookup_witness :
  JSONGenerator.getFieldById
    (JSONGenerator.updateField
       [branch "a" "o" Tobject [leaf "b" "y" Tstring "1"]] (js "b")
       (Partial.mk None (Some (js "name")) None None None None None None None))
    (js "b")
  = Some (leaf "b" "name" Tstring "1").
Proof.
  apply (updateField_lookup_returns_the_merged_field
           [branch "a" "o" Tobject [leaf "b" "y" Tstring "1"]] (js "b")
           (Partial.mk None (Some (js "name")) None None None None None None None)).
  reflexivity.
Defined.

(** X19. [toggleCollapse] flips the collapse state of the field found under
    the id and leaves the rest of that field as it was, whatever its type; a
    second toggle gives the state back; and the ids of the tree stay as they
    were. *)
Theorem toggleCollapse_flips_the_collapse_state
  (fields : list JSONField) (target : jstring) (f : JSONField) :
  JSONGenerator.getFieldById fields target = Some f ->
  JSONGenerator.getFieldById (JSONGenerator.toggleCollapse fields target) target
  = Some (mkField (id f) (key f) (value f) (type f) (isEditing f) (children f)
            (Some (negb (JSONGenerator.collapsed f))) (depth f) (parentId f)) /\
  JSONGenerator.getFieldById
    (JSONGenerator.toggleCollapse (JSONGenerator.toggleCollapse fields target) target)
    target
  = Some (mkField (id f) (key f) (value f) (type f) (isEditing f) (children f)
            (Some (JSONGenerator.collapsed f)) (depth f) (parentId f)) /\
  allIds (JSONGenerator.toggleCollapse fields target) = allIds fields.
Proof.
  intros Hf.
  assert (H1 : JSONGenerator.getFieldById (JSONGenerator.toggleCollapse fields target)
                 target
               = Some (mkField (id f) (key f) (value f) (type f) (isEditing f)
                         (children f) (Some (negb (JSONGenerator.collapsed f)))
                         (depth f) (parentId f))).
  { unfold JSONGenerator.toggleCollapse.
    rewrite getFieldById_update by reflexivity. rewrite Hf. cbn [option_map].
    unfold JSONGenerator.updatedField, spread, JSONGenerator.notCollapsed,
      JSONGenerator.collapsed. simpl. now destruct (isCollapsed f) as [[]|]. }
  split; [exact H1 | split].
  - unfold JSONGenerator.toggleCollapse at 1.
    rewrite getFieldById_update by reflexivity. rewrite H1. cbn [option_map].
    unfold JSONGenerator.updatedField, spread, JSONGenerator.notCollapsed,
      JSONGenerator.collapsed. simpl. now destruct (isCollapsed f) as [[]|].
  - now apply updateField_ids.
Qed.

Lemma toggleCollapse_witness :
  JSONGenerator.getFieldById
    (JSONGenerator.toggleCollapse
       [branch "a" "o" Tobject [leaf "b" "y" Tstring "1"]] (js "a"))
    (js "a")
  = Some (mkField (js "a") (js "o") (JStr []) Tobject None
            (Some [leaf "b" "y" Tstring "1"]) (Some true) (Some 0) None).
Proof.
  apply (toggleCollapse_flips_the_collapse_state
           [branch "a" "o" Tobject [leaf "b" "y" Tstring "1"]] (js "a")
           (branch "a" "o" Tobject [leaf "b" "y" Tstring "1"])).
  reflexivity.
Defined.

(** ** What synthesis reads *)

Lemma forEach_map_ext {A S} (body : A -> S -> S) (g : A -> A) l :
  Forall (fun a => forall s, body (g a) s = body a s) l ->
  forall s, forEach body (List.map g l) s = forEach body l s.
Proof.
  induction 1 as [|a l E _ IH]; intros s; [reflexivity|].
  cbn [List.map]. rewrite !forEach_cons, E. apply IH.
Qed.

Lemma mapState_map_ext {A B S} (body : A -> S -> B * S) (g : A -> A) l :
  Forall (fun a => forall s, body (g a) s = body a s) l ->
  forall s, mapState body (List.map g l) s = mapState body l s.
Proof.
  induction 1 as [|a l E _ IH]; intros s; [reflexivity|].
  cbn [List.map mapState]. rewrite E. destruct (body a s) as [b s1].
  now rewrite IH.
Qed.

Lemma dataOf_unfold f :
  dataOf f = mkField (id f) (key f) (value f) (type f) None
               (Some (List.map dataOf (childrenOrEmpty f))) None None None.
Proof. destruct f as [? ? ? ? ? [cs|] ? ? ?]; reflexivity. Qed.

Section ReadByTheFirstPass.

Variable buildObject :
  list JSONField -> gmap jstring jstring ->
  list (jstring * JSON) * gmap jstring jstring.

Lemma arrayItem_dataOf child :
  (forall e, buildObject (List.map dataOf (childrenOrEmpty child)) e
             = buildObject (childrenOrEmpty child) e) ->
  forall e, JSONGenerator.arrayItem buildObject (dataOf child) e
            = JSONGenerator.arrayItem buildObject child e.
Proof.
  intros HB e. rewrite dataOf_unfold. unfold JSONGenerator.arrayItem.
  cbn [type value children]. unfold childrenOrEmpty in *.
  destruct (type child); try reflexivity;
    destruct (children child) as [[|g gs]|]; try reflexivity.
  - cbn [List.map] in *. now rewrite HB.
  - cbn [List.map]. do 2 f_equal. f_equal.
    + now rewrite dataOf_unfold.
    + rewrite map_map. apply map_ext. intros a. now rewrite dataOf_unfold.
Qed.

Lemma buildObject_body_dataOf field :
  (forall e, buildObject (List.map dataOf (childrenOrEmpty field)) e
             = buildObject (childrenOrEmpty field) e) ->
  (forall c, In c (childrenOrEmpty field) ->
             forall e, buildObject (List.map dataOf (childrenOrEmpty c)) e
                       = buildObject (childrenOrEmpty c) e) ->
  forall st, JSONGenerator.buildObject_body buildObject (dataOf field) st
             = JSONGenerator.buildObject_body buildObject field st.
Proof.
  intros HB HBB [obj e]. rewrite dataOf_unfold. unfold JSONGenerator.buildObject_body.
  cbn [id key type value children]. unfold childrenOrEmpty in *.
  destruct (negb (truthy (trim (key field)))); [reflexivity|].
  destruct (validation.isValid (validation.validateKeyValue (key field))),
    (validation.error (validation.validateKeyValue (key field))) as [[|c msg]|];
    try reflexivity.
  all: destruct (type field); try reflexivity;
    destruct (children field) as [[|c0 cs]|]; try reflexivity.
  all: try (cbn [List.map] in *; now rewrite HB).
  all: cbn [List.map];
    change (dataOf c0 :: List.map dataOf cs) with (List.map dataOf (c0 :: cs));
    rewrite (mapState_map_ext (JSONGenerator.arrayItem buildObject) dataOf (c0 :: cs));
    [reflexivity|];
    apply List.Forall_forall; intros c1 Hc1; apply arrayItem_dataOf;
    exact (HBB c1 Hc1).
Qed.

End ReadByTheFirstPass.

Lemma buildObject_dataOf_list (l : list JSONField) :
  (forall g, In g l ->
             forall st, JSONGenerator.buildObject_in (dataOf g) st
                        = JSONGenerator.buildObject_in g st) ->
  forall e, JSONGenerator.buildObject (List.map dataOf l) e
            = JSONGenerator.buildObject l e.
Proof.
  intros H e. unfold JSONGenerator.buildObject.
  apply forEach_map_ext, List.Forall_forall. exact H.
Qed.

Lemma buildObject_in_dataOf :
  forall field st,
    JSONGenerator.buildObject_in (dataOf field) st
    = JSONGenerator.buildObject_in field st.
Proof.
  induction field as [field IH] using JSONField_subtree_ind. intros st.
  rewrite !buildObject_in_unfold. apply buildObject_body_dataOf.
  - apply buildObject_dataOf_list. intros g Hg. apply IH. now constructor.
  - intros c Hc. apply buildObject_dataOf_list. intros g Hg. apply IH.
    apply InTree_below with (g := c); [exact Hc | now constructor].
Qed.

Lemma key_dataOf f : key (dataOf f) = key f.
Proof. now rewrite dataOf_unfold. Qed.

Lemma id_dataOf f : id (dataOf f) = id f.
Proof. now rewrite dataOf_unfold. Qed.

Lemma filter_map_dataOf (p : JSONField -> bool) l :
  (forall f, p (dataOf f) = p f) ->
  List.filter p (List.map dataOf l) = List.map dataOf (List.filter p l).
Proof.
  intros Hp. induction l as [|f l IH]; [reflexivity|].
  cbn [List.map List.filter]. rewrite Hp, IH. now destruct (p f).
Qed.

Lemma markDuplicates_dataOf l e :
  JSONGenerator.markDuplicates (List.map dataOf l) e = JSONGenerator.markDuplicates l e.
Proof.
  unfold JSONGenerator.markDuplicates. cbv zeta.
  rewrite filter_map_dataOf by (intros f; now rewrite key_dataOf).
  set (fw := List.filter (fun f => truthy (trim (key f))) l).
  assert (Hdup : validation.hasDuplicateKeys (List.map dataOf fw)
                 = validation.hasDuplicateKeys fw).
  { unfold validation.hasDuplicateKeys. cbv zeta.
    assert (List.map key (List.map dataOf fw) = List.map key fw) as ->; [|reflexivity].
    rewrite map_map. apply map_ext. apply key_dataOf. }
  rewrite Hdup. destruct (validation.hasDuplicateKeys fw); [|reflexivity].
  rewrite forEach_map_ext.
  - destruct (forEach _ fw (∅, ∅)) as [duplicateKeys seenKeys].
    apply forEach_map_ext, List.Forall_forall. intros f _ s.
    now rewrite key_dataOf, id_dataOf.
  - apply List.Forall_forall. intros f _ [duplicateKeys seenKeys].
    now rewrite key_dataOf.
Qed.

Lemma checkDuplicates_in_dataOf :
  forall field e,
    JSONGenerator.checkDuplicates_in (dataOf field) e
    = JSONGenerator.checkDuplicates_in field e.
Proof.
  induction field as [field IH] using JSONField_tree_ind. intros e.
  rewrite !checkDuplicates_in_unfold, dataOf_unfold. cbn [children].
  unfold childrenOrEmpty in *.
  destruct (children field) as [[|c cs]|]; try reflexivity.
  cbn [List.map].
  change (dataOf c :: List.map dataOf cs) with (List.map dataOf (c :: cs)).
  unfold JSONGenerator.checkDuplicates. rewrite markDuplicates_dataOf.
  apply forEach_map_ext. exact IH.
Qed.

(** Synthesis reads ids, keys, values, types and children, and nothing
    else. *)
Lemma generateJSON_dataOf fields :
  JSONGenerator.generateJSON (List.map dataOf fields) = JSONGenerator.generateJSON fields.
Proof.
  unfold JSONGenerator.generateJSON.
  rewrite buildObject_dataOf_list by (intros g _; apply buildObject_in_dataOf).
  destruct (JSONGenerator.buildObject fields ∅) as [obj e].
  unfold JSONGenerator.checkDuplicates. rewrite markDuplicates_dataOf.
  f_equal. apply forEach_map_ext, List.Forall_forall. intros f _.
  apply checkDuplicates_in_dataOf.
Qed.

(** ** Collapsing and the flattened view *)

Lemma updateCollapse_in_unfold b f :
  JSONGenerator.updateCollapse_in b f =
  mkField (id f) (key f) (value f) (type f) (isEditing f)
    match children f with
    | Some cs => Some (JSONGenerator.updateCollapse cs b)
    | None => None
    end
    match type f with
    | Tobject | Tarray => Some b
    | _ => isCollapsed f
    end
    (depth f) (parentId f).
Proof. destruct f; reflexivity. Qed.

Lemma updateCollapse_in_children b f :
  childrenOrEmpty (JSONGenerator.updateCollapse_in b f)
  = JSONGenerator.updateCollapse (childrenOrEmpty f) b.
Proof.
  rewrite updateCollapse_in_unfold. unfold childrenOrEmpty. cbn [children].
  now destruct (children f).
Qed.

Lemma map_ext_Forall {A B} (g h : A -> B) l :
  Forall (fun a => g a = h a) l -> List.map g l = List.map h l.
Proof. induction 1 as [|a l E _ IH]; simpl; [reflexivity | now rewrite E, IH]. Qed.

Lemma updateCollapse_in_absorbs a b :
  forall f, JSONGenerator.updateCollapse_in b (JSONGenerator.updateCollapse_in a f)
            = JSONGenerator.updateCollapse_in b f.
Proof.
  induction f as [f IH] using JSONField_tree_ind.
  rewrite (updateCollapse_in_unfold b), (updateCollapse_in_unfold a f).
  cbn [id key value type isEditing children isCollapsed depth parentId].
  rewrite (updateCollapse_in_unfold b f). unfold childrenOrEmpty in IH.
  f_equal.
  - destruct (children f) as [cs|]; [|reflexivity]. f_equal.
    unfold JSONGenerator.updateCollapse. rewrite map_map.
    now apply map_ext_Forall.
  - now destruct (type f).
Qed.

Lemma dataOf_updateCollapse_in b :
  forall f, dataOf (JSONGenerator.updateCollapse_in b f) = dataOf f.
Proof.
  induction f as [f IH] using JSONField_tree_ind.
  rewrite (dataOf_unfold f), dataOf_unfold, updateCollapse_in_children.
  rewrite updateCollapse_in_unfold. cbn [id key value type]. do 2 f_equal.
  unfold JSONGenerator.updateCollapse. rewrite map_map. now apply map_ext_Forall.
Qed.

Lemma allIds_dataOf_step l :
  Forall (fun f => allIds (List.map dataOf (childrenOrEmpty f))
                   = allIds (childrenOrEmpty f)) l ->
  allIds (List.map dataOf l) = allIds l.
Proof.
  induction 1 as [|f l Hf _ IH]; [reflexivity|].
  cbn [List.map]. rewrite !allIds_cons, IH. f_equal.
  rewrite dataOf_unfold, (allIds_in_unfold f). unfold allIds_in at 1.
  cbn [id children]. fold allIds_in. f_equal. exact Hf.
Qed.

(** The ids of a tree are those of its data. *)
Lemma allIds_dataOf : forall l, allIds (List.map dataOf l) = allIds l.
Proof.
  intros l. apply allIds_dataOf_step, List.Forall_forall. intros g _. revert g.
  induction g as [g IH] using JSONField_tree_ind. now apply allIds_dataOf_step.
Qed.

Lemma dataOf_updateCollapse b fields :
  List.map dataOf (JSONGenerator.updateCollapse fields b) = List.map dataOf fields.
Proof.
  unfold JSONGenerator.updateCollapse. rewrite map_map.
  apply map_ext. apply dataOf_updateCollapse_in.
Qed.

Lemma InTree_updateCollapse b g :
  forall forest, InTree g forest ->
  forall fields, forest = JSONGenerator.updateCollapse fields b ->
  exists f, InTree f fields /\ g = JSONGenerator.updateCollapse_in b f.
Proof.
  induction 1 as [forest Hin | g0 forest Hg0 _ IH]; intros fields ->.
  - apply in_map_iff in Hin as (f & <- & Hf). exists f. split; [now constructor | auto].
  - apply in_map_iff in Hg0 as (f0 & <- & Hf0).
    destruct (IH (childrenOrEmpty f0) (updateCollapse_in_children b f0))
      as (f & Hf & ->).
    exists f. split; [|reflexivity]. now apply InTree_below with (g := f0).
Qed.

(** X20. [collapseAll] and [expandAll] set the collapse state of every
    object and array field of the tree, at any depth, and of no other field;
    the later of two of them decides; and ids, keys, values, types and
    children stay as they were. *)
Theorem collapseAll_and_expandAll_set_every_container (fields : list JSONField) :
  (forall g, InTree g (JSONGenerator.collapseAll fields) ->
     exists f, InTree f fields /\ dataOf g = dataOf f /\
       isCollapsed g = match type f with
                       | Tobject | Tarray => Some true
                       | _ => isCollapsed f
                       end) /\
  (forall g, InTree g (JSONGenerator.expandAll fields) ->
     exists f, InTree f fields /\ dataOf g = dataOf f /\
       isCollapsed g = match type f with
                       | Tobject | Tarray => Some false
                       | _ => isCollapsed f
                       end) /\
  JSONGenerator.expandAll (JSONGenerator.collapseAll fields)
  = JSONGenerator.expandAll fields /\
  JSONGenerator.collapseAll (JSONGenerator.expandAll fields)
  = JSONGenerator.collapseAll fields /\
  allIds (JSONGenerator.collapseAll fields) = allIds fields /\
  allIds (JSONGenerator.expandAll fields) = allIds fields.
Proof.
  assert (Hset : forall b g, InTree g (JSONGenerator.updateCollapse fields b) ->
            exists f, InTree f fields /\ dataOf g = dataOf f /\
              isCollapsed g = match type f with
                              | Tobject | Tarray => Some b
                              | _ => isCollapsed f
                              end).
  { intros b g Hg.
    destruct (InTree_updateCollapse b g _ Hg fields eq_refl) as (f & Hf & ->).
    exists f. split; [exact Hf|]. split; [apply dataOf_updateCollapse_in|].
    now rewrite updateCollapse_in_unfold. }
  assert (Habs : forall a b,
            JSONGenerator.updateCollapse (JSONGenerator.updateCollapse fields a) b
            = JSONGenerator.updateCollapse fields b).
  { intros a b. unfold JSONGenerator.updateCollapse. rewrite map_map.
    apply map_ext. apply updateCollapse_in_absorbs. }
  assert (Hids : forall b, allIds (JSONGenerator.updateCollapse fields b)
                           = allIds fields).
  { intros b. now rewrite <- allIds_dataOf, dataOf_updateCollapse, allIds_dataOf. }
  repeat split; first [apply Hset | apply Habs | apply Hids].
Qed.

Lemma dataOf_spread_presentation f c :
  dataOf (spread f (Partial.mk None None None None None None c None None))
  = dataOf f.
Proof. now rewrite (dataOf_unfold f), dataOf_unfold. Qed.

Lemma dataOf_toggle target c :
  forall f,
    dataOf (JSONGenerator.updateInFields_in target
              (Partial.mk None None None None None None c None None) f)
    = dataOf f.
Proof.
  induction f as [f IH] using JSONField_tree_ind.
  rewrite updateInFields_in_unfold.
  destruct (decide (id f = target)); [apply dataOf_spread_presentation|].
  unfold childrenOrEmpty in IH.
  destruct (children f) as [cs|] eqn:Ecs; [|reflexivity].
  rewrite (dataOf_unfold f), dataOf_unfold.
  unfold childrenOrEmpty. rewrite Ecs. cbn [withChildren id key value type children].
  do 2 f_equal. unfold JSONGenerator.updateField. rewrite map_map.
  now apply map_ext_Forall.
Qed.

(** X21. What synthesis returns -- the output and the error map -- depends
    on ids, keys, values, types and children only: [collapseAll], [expandAll]
    and [toggleCollapse] leave it as it was, and so do the defaults given to
    the fields restored from storage. *)
Theorem generateJSON_ignores_the_presentation (fields : list JSONField) :
  JSONGenerator.generateJSON (List.map dataOf fields)
  = JSONGenerator.generateJSON fields /\
  JSONGenerator.generateJSON (JSONGenerator.collapseAll fields)
  = JSONGenerator.generateJSON fields /\
  JSONGenerator.generateJSON (JSONGenerator.expandAll fields)
  = JSONGenerator.generateJSON fields /\
  (forall target,
      JSONGenerator.generateJSON (JSONGenerator.toggleCollapse fields target)
      = JSONGenerator.generateJSON fields) /\
  JSONGenerator.generateJSON (JSONGenerator.enhancedFields fields)
  = JSONGenerator.generateJSON fields.
Proof.
  assert (H : forall fields',
             List.map dataOf fields' = List.map dataOf fields ->
             JSONGenerator.generateJSON fields' = JSONGenerator.generateJSON fields).
  { intros fields' E.
    now rewrite <- (generateJSON_dataOf fields'), E, generateJSON_dataOf. }
  split; [apply generateJSON_dataOf|].
  split; [apply H, dataOf_updateCollapse|].
  split; [apply H, dataOf_updateCollapse|].
  split.
  - intros target. apply H. unfold JSONGenerator.toggleCollapse,
      JSONGenerator.updateField. rewrite map_map. apply map_ext. apply dataOf_toggle.
  - apply H. unfold JSONGenerator.enhancedFields. rewrite map_map. apply map_ext.
    intros f. now rewrite (dataOf_unfold f), dataOf_unfold.
Qed.

Lemma flatten_in_unfold d f :
  JSONGenerator.flatten_in d f =
  JSONGenerator.withDepth f d ::
  match children f with
  | Some (c :: cs) =>
      if negb (JSONGenerator.collapsed f) then JSONGenerator.flatten (c :: cs) (d + 1)
      else []
  | _ => []
  end.
Proof. destruct f; reflexivity. Qed.

Lemma flatten_cons f l d :
  JSONGenerator.flatten (f :: l) d
  = JSONGenerator.flatten_in d f ++ JSONGenerator.flatten l d.
Proof. reflexivity. Qed.

Lemma flatten_ids_step l :
  Forall (fun f => forall d,
            (forall g, InTree g (childrenOrEmpty f) ->
                       JSONGenerator.collapsed g = false \/ childrenOrEmpty g = []) ->
            List.map id (JSONGenerator.flatten (childrenOrEmpty f) d)
            = allIds (childrenOrEmpty f)) l ->
  forall d,
    (forall g, InTree g l ->
               JSONGenerator.collapsed g = false \/ childrenOrEmpty g = []) ->
    List.map id (JSONGenerator.flatten l d) = allIds l.
Proof.
  induction 1 as [|f l Hf _ IH]; intros d Hopen; [reflexivity|].
  rewrite flatten_cons, map_app, allIds_cons, IH.
  - f_equal. rewrite flatten_in_unfold, allIds_in_unfold. cbn [List.map]. f_equal.
    assert (Hroot : InTree f (f :: l)) by (constructor; now left).
    assert (Hbelow : forall g, InTree g (childrenOrEmpty f) ->
                       JSONGenerator.collapsed g = false \/ childrenOrEmpty g = [])
      by (intros g Hg; apply Hopen; apply InTree_below with (g := f);
          [now left | exact Hg]).
    specialize (Hf (d + 1) Hbelow).
    destruct (children f) as [[|c cs]|] eqn:E;
      rewrite ?(children_childrenOrEmpty _ _ E) in *;
      try (unfold childrenOrEmpty; rewrite E; reflexivity); try reflexivity.
    destruct (Hopen f Hroot) as [Hc | Hc].
    + rewrite Hc. exact Hf.
    + rewrite (children_childrenOrEmpty _ _ E) in Hc. discriminate.
  - intros g Hg. apply Hopen. apply InTree_cons. tauto.
Qed.

Lemma flatten_ids :
  forall l d,
    (forall g, InTree g l ->
               JSONGenerator.collapsed g = false \/ childrenOrEmpty g = []) ->
    List.map id (JSONGenerator.flatten l d) = allIds l.
Proof.
  intros l. apply flatten_ids_step, List.Forall_forall. intros g _. revert g.
  induction g as [g IH] using JSONField_tree_ind. now apply flatten_ids_step.
Qed.

Lemma flatten_roots l d :
  Forall (fun f => JSONGenerator.collapsed f = true \/ childrenOrEmpty f = []) l ->
  JSONGenerator.flatten l d = List.map (fun f => JSONGenerator.withDepth f d) l.
Proof.
  induction 1 as [|f l Hf _ IH]; [reflexivity|].
  rewrite flatten_cons, IH, flatten_in_unfold. cbn [List.map app].
  unfold childrenOrEmpty in Hf.
  destruct (children f) as [[|c cs]|]; try reflexivity.
  destruct Hf as [-> | Hf]; [reflexivity | discriminate].
Qed.

Lemma levels_in_unfold n f : levels_in n f = n :: levels (childrenOrEmpty f) (n + 1).
Proof. destruct f as [? ? ? ? ? [cs|] ? ? ?]; reflexivity. Qed.

Lemma flatten_depths_step l :
  Forall (fun f => forall d,
            (forall g, InTree g (childrenOrEmpty f) ->
                       JSONGenerator.collapsed g = false \/ childrenOrEmpty g = []) ->
            List.map depth (JSONGenerator.flatten (childrenOrEmpty f) d)
            = List.map Some (levels (childrenOrEmpty f) d)) l ->
  forall d,
    (forall g, InTree g l ->
               JSONGenerator.collapsed g = false \/ childrenOrEmpty g = []) ->
    List.map depth (JSONGenerator.flatten l d) = List.map Some (levels l d).
Proof.
  induction 1 as [|f l Hf _ IH]; intros d Hopen; [reflexivity|].
  change (levels (f :: l) d) with (levels_in d f ++ levels l d).
  rewrite flatten_cons, !map_app, IH.
  - f_equal. rewrite flatten_in_unfold, levels_in_unfold. cbn [List.map]. f_equal.
    assert (Hroot : InTree f (f :: l)) by (constructor; now left).
    assert (Hbelow : forall g, InTree g (childrenOrEmpty f) ->
                       JSONGenerator.collapsed g = false \/ childrenOrEmpty g = [])
      by (intros g Hg; apply Hopen; apply InTree_below with (g := f);
          [now left | exact Hg]).
    specialize (Hf (d + 1) Hbelow).
    destruct (children f) as [[|c cs]|] eqn:E;
      rewrite ?(children_childrenOrEmpty _ _ E) in *;
      try (unfold childrenOrEmpty; rewrite E; reflexivity); try reflexivity.
    destruct (Hopen f Hroot) as [Hc | Hc].
    + rewrite Hc. exact Hf.
    + rewrite (children_childrenOrEmpty _ _ E) in Hc. discriminate.
  - intros g Hg. apply Hopen. apply InTree_cons. tauto.
Qed.

Lemma flatten_depths :
  forall l d,
    (forall g, InTree g l ->
               JSONGenerator.collapsed g = false \/ childrenOrEmpty g = []) ->
    List.map depth (JSONGenerator.flatten l d) = List.map Some (levels l d).
Proof.
  intros l. apply flatten_depths_step, List.Forall_forall. intros g _. revert g.
  induction g as [g IH] using JSONField_tree_ind. now apply flatten_depths_step.
Qed.

(** X22. When no field that has children is collapsed, the flattened view
    lists every field of the tree, the ids in depth-first order, parents
    first; and the depth it gives each one is the nesting level of the field,
    whatever depth the field had stored. *)
Theorem flattenedFields_lists_every_field_of_an_open_tree (fields : list JSONField) :
  (forall g, InTree g fields ->
             JSONGenerator.collapsed g = false \/ childrenOrEmpty g = []) ->
  List.map id (JSONGenerator.flattenedFields fields) = allIds fields /\
  List.map depth (JSONGenerator.flattenedFields fields)
  = List.map Some (levels fields 0).
Proof.
  intros H. split; [now apply flatten_ids | now apply flatten_depths].
Qed.

Lemma flattenedFields_open_tree_witness :
  List.map id
    (JSONGenerator.flattenedFields
       [branch "a" "o" Tobject [leaf "b" "y" Tstring "1"]; leaf "c" "z" Tstring "2"])
  = [js "a"; js "b"; js "c"] /\
  List.map depth
    (JSONGenerator.flattenedFields
       [branch "a" "o" Tobject [leaf "b" "y" Tstring "1"]; leaf "c" "z" Tstring "2"])
  = [Some 0; Some 1; Some 0].
Proof.
  apply (flattenedFields_lists_every_field_of_an_open_tree
           [branch "a" "o" Tobject [leaf "b" "y" Tstring "1"];
            leaf "c" "z" Tstring "2"]).
  intros g Hg. left. revert g Hg.
  apply InTree_forest_ind. repeat constructor.
  apply InTree_forest_ind. repeat constructor.
  - apply InTree_forest_ind. constructor.
  - apply InTree_forest_ind. constructor.
Defined.

(** X23. A collapsed field hides what is below it: when every root field
    that has children is collapsed, the flattened view is the root list, each
    field at depth 0.  After [collapseAll] that is the case whenever the root
    fields that have children are objects or arrays. *)
Theorem flattenedFields_of_collapsed_roots (fields : list JSONField) :
  Forall (fun f => type f = Tobject \/ type f = Tarray \/ childrenOrEmpty f = [])
    fields ->
  JSONGenerator.flattenedFields (JSONGenerator.collapseAll fields)
  = List.map (fun f => JSONGenerator.withDepth f 0) (JSONGenerator.collapseAll fields) /\
  List.map id (JSONGenerator.flattenedFields (JSONGenerator.collapseAll fields))
  = List.map id fields.
Proof.
  intros H.
  assert (E : JSONGenerator.flattenedFields (JSONGenerator.collapseAll fields)
              = List.map (fun f => JSONGenerator.withDepth f 0)
                  (JSONGenerator.collapseAll fields)).
  { apply flatten_roots. unfold JSONGenerator.collapseAll, JSONGenerator.updateCollapse.
    apply Forall_map. apply List.Forall_impl with (2 := H). intros f Hf.
    rewrite updateCollapse_in_children.
    unfold JSONGenerator.collapsed. rewrite updateCollapse_in_unfold.
    cbn [isCollapsed].
    destruct Hf as [-> | [-> | ->]]; [now left | now left | now right]. }
  split; [exact E|]. rewrite E.
  unfold JSONGenerator.collapseAll, JSONGenerator.updateCollapse.
  rewrite !map_map. apply map_ext. intros f. now rewrite updateCollapse_in_unfold.
Qed.

Lemma flattenedFields_of_collapsed_roots_witness :
  List.map id
    (JSONGenerator.flattenedFields
       (JSONGenerator.collapseAll
          [branch "a" "o" Tobject [leaf "b" "y" Tstring "1"]; leaf "c" "z" Tstring "2"]))
  = [js "a"; js "c"].
Proof.
  apply (flattenedFields_of_collapsed_roots
           [branch "a" "o" Tobject [leaf "b" "y" Tstring "1"];
            leaf "c" "z" Tstring "2"]).
  constructor; [now left | constructor; [right; right; reflexivity | constructor]].
Defined.

(** ** The entries of the error map *)





Section RecordedByTheFirstPass.

Variable ids : list jstring.
Variable buildObject :
  list JSONField -> gmap jstring jstring ->
  list (jstring * JSON) * gmap jstring jstring.



End RecordedByTheFirstPass.










(** ** The keys of the output *)





(** ** The statistics of the preview *)

Lemma JSON_tree_ind (P : JSON -> Prop) :
  P JNull -> (forall b, P (JBool b)) -> (forall n, P (JNum n)) ->
  (forall s, P (JStr s)) ->
  (forall items, Forall P items -> P (JArr items)) ->
  (forall props, Forall (fun p => P (snd p)) props -> P (JObj props)) ->
  forall v, P v.
Proof.
  intros Hnull Hbool Hnum Hstr Harr Hobj. fix IH 1.
  intros [ | b | n | s | items | props];
    [exact Hnull | apply Hbool | apply Hnum | apply Hstr | | ].
  - apply Harr. induction items as [|x items IHitems]; constructor;
      [apply IH | exact IHitems].
  - apply Hobj. induction props as [|[k x] props IHprops]; constructor;
      [apply IH | exact IHprops].
Qed.

Lemma countDepth_unfold obj d :
  JSONPreview.countDepth obj d =
  match obj with
  | JArr items =>
      forEach (fun item maxDepth =>
                 Z.max maxDepth (JSONPreview.countDepth item (d + 1))) items d
  | JObj props =>
      forEach (fun p maxDepth =>
                 Z.max maxDepth (JSONPreview.countDepth (snd p) (d + 1))) props d
  | _ => d
  end.
Proof. destruct obj; reflexivity. Qed.

Lemma countProperties_unfold obj :
  JSONPreview.countProperties obj =
  match obj with
  | JArr items =>
      forEach (fun item count => count + JSONPreview.countProperties item) items
        (Z.of_nat (length items))
  | JObj props =>
      forEach (fun p count => count + JSONPreview.countProperties (snd p)) props
        (Z.of_nat (length props))
  | _ => 0
  end.
Proof. destruct obj; reflexivity. Qed.

Lemma list_sum_cons_eq n l : list_sum (n :: l) = (n + list_sum l)%nat.
Proof. reflexivity. Qed.

Section Loops.

Context {A : Type}.
Variables (deep deep0 count : A -> Z) (values : A -> nat).

Lemma maxLoop_shift (d : Z) (l : list A) :
  Forall (fun a => deep a = d + deep0 a) l ->
  forall m, forEach (fun a maxDepth => Z.max maxDepth (deep a)) l (d + m)
            = d + forEach (fun a maxDepth => Z.max maxDepth (deep0 a)) l m.
Proof.
  induction 1 as [|a l E _ IH]; intros m; [reflexivity|].
  rewrite !forEach_cons, E, Z.add_max_distr_l. apply IH.
Qed.

Lemma maxLoop_bounds (l : list A) :
  Forall (fun a => 0 <= deep0 a <= count a) l ->
  forall m n, 0 <= m -> m + Z.of_nat (length l) <= n ->
    m <= forEach (fun a maxDepth => Z.max maxDepth (1 + deep0 a)) l m
      <= forEach (fun a c => c + count a) l n.
Proof.
  induction 1 as [|a l Ha _ IH]; intros m n Hm Hn; [simpl in *; lia|].
  rewrite !forEach_cons. cbn [length] in Hn.
  specialize (IH (Z.max m (1 + deep0 a)) (n + count a)). lia.
Qed.

Lemma sumLoop_values (l : list A) :
  Forall (fun a => count a = Z.of_nat (values a) - 1) l ->
  forall n, forEach (fun a c => c + count a) l n
            = n + Z.of_nat (list_sum (List.map values l)) - Z.of_nat (length l).
Proof.
  induction 1 as [|a l E _ IH]; intros n; [simpl; lia|].
  rewrite forEach_cons, IH, E. cbn [List.map length]. rewrite list_sum_cons_eq. lia.
Qed.

End Loops.

Lemma countDepth_shift :
  forall obj d, JSONPreview.countDepth obj d = d + JSONPreview.countDepth obj 0.
Proof.
  induction obj as [ | b | n | s | items IH | props IH] using JSON_tree_ind;
    intros d; rewrite (countDepth_unfold _ d), (countDepth_unfold _ 0);
    try lia.
  - pose proof (maxLoop_shift (fun item => JSONPreview.countDepth item (d + 1))
                  (fun item => JSONPreview.countDepth item (0 + 1)) d items) as E.
    rewrite <- E; [now rewrite Z.add_0_r|].
    apply List.Forall_impl with (2 := IH). intros item H.
    rewrite (H (d + 1)), (H (0 + 1)). lia.
  - pose proof (maxLoop_shift (fun p => JSONPreview.countDepth (snd p) (d + 1))
                  (fun p => JSONPreview.countDepth (snd p) (0 + 1)) d props) as E.
    rewrite <- E; [now rewrite Z.add_0_r|].
    apply List.Forall_impl with (2 := IH). intros p H.
    rewrite (H (d + 1)), (H (0 + 1)). lia.
Qed.

Lemma forEach_ext {A S} (body body' : A -> S -> S) l :
  (forall a s, body a s = body' a s) ->
  forall s, forEach body l s = forEach body' l s.
Proof.
  intros E. induction l as [|a l IH]; intros s; [reflexivity|].
  rewrite !forEach_cons, E. apply IH.
Qed.

Lemma countDepth_bounds :
  forall obj, 0 <= JSONPreview.countDepth obj 0 <= JSONPreview.countProperties obj.
Proof.
  induction obj as [ | b | n | s | items IH | props IH] using JSON_tree_ind;
    rewrite (countDepth_unfold _ 0), countProperties_unfold; try lia.
  - rewrite (forEach_ext _
               (fun item maxDepth =>
                  Z.max maxDepth (1 + JSONPreview.countDepth item 0)))
      by (intros item m; now rewrite countDepth_shift).
    apply (maxLoop_bounds (fun item => JSONPreview.countDepth item 0)
             JSONPreview.countProperties items IH); lia.
  - rewrite (forEach_ext _
               (fun p maxDepth =>
                  Z.max maxDepth (1 + JSONPreview.countDepth (snd p) 0)))
      by (intros p m; now rewrite countDepth_shift).
    apply (maxLoop_bounds (fun p => JSONPreview.countDepth (snd p) 0)
             (fun p => JSONPreview.countProperties (snd p)) props IH); lia.
Qed.

Lemma countProperties_values :
  forall obj, JSONPreview.countProperties obj = Z.of_nat (valueCount obj) - 1.
Proof.
  induction obj as [ | b | n | s | items IH | props IH] using JSON_tree_ind;
    rewrite countProperties_unfold; try reflexivity.
  - rewrite (sumLoop_values JSONPreview.countProperties valueCount items IH).
    cbn [valueCount]. lia.
  - rewrite (sumLoop_values (fun p => JSONPreview.countProperties (snd p))
               (fun p => valueCount (snd p)) props IH).
    cbn [valueCount]. lia.
Qed.

(** X26. The statistics of the preview: [countProperties] counts every value
    below the root, at any depth, the elements of arrays included;
    [countDepth] started at a depth gives that depth more than started at 0;
    and the depth is at least 0 and at most the number of values counted. *)
Theorem preview_counts_values_and_depth (obj : JSON) (currentDepth : Z) :
  JSONPreview.countProperties obj = Z.of_nat (valueCount obj) - 1 /\
  JSONPreview.countDepth obj currentDepth
  = currentDepth + JSONPreview.countDepth obj 0 /\
  0 <= JSONPreview.countDepth obj 0 <= JSONPreview.countProperties obj.
Proof.
  split; [apply countProperties_values|].
  split; [apply countDepth_shift | apply countDepth_bounds].
Qed.

(** ** A move under a parent *)

Lemma findField_in_inserted fieldToInsert index pid :
  forall field,
    dragDrop.findField_in pid (dragDrop.insertField_in fieldToInsert index pid field)
    = option_map
        (fun p => withChildren p
                    (splice_insert (childrenOrEmpty p) (Z.of_nat index) fieldToInsert))
        (dragDrop.findField_in pid field).
Proof.
  induction field as [field IH] using JSONField_tree_ind.
  rewrite insertField_in_unfold, (findField_in_unfold pid field).
  destruct (decide (id field = pid)) as [E|NE].
  - rewrite findField_in_unfold. cbn [withChildren id].
    now destruct (decide (id field = pid)).
  - unfold childrenOrEmpty in IH.
    destruct (children field) as [cs|] eqn:Ecs.
    + rewrite findField_in_unfold. cbn [withChildren id children].
      destruct (decide (id field = pid)); [contradiction|].
      exact (firstFound_map_commute _ _ _ _ IH).
    + rewrite findField_in_unfold, Ecs.
      now destruct (decide (id field = pid)).
Qed.

Lemma findIndex_at {A} (p : A -> bool) pre x post :
  Forall (fun a => p a = false) pre -> p x = true ->
  findIndex p (pre ++ x :: post) = Some (length pre).
Proof.
  induction 1 as [|a pre E _ IH]; intros Hx; simpl.
  - now rewrite Hx.
  - now rewrite E, IH.
Qed.

Lemma findIndex_absent {A} (p : A -> bool) l :
  Forall (fun a => p a = false) l -> findIndex p l = None.
Proof.
  induction 1 as [|a l E _ IH]; simpl; [reflexivity|]. now rewrite E, IH.
Qed.

(** X27. A move under a parent id that resolves in the tree without the
    dragged field: the field found under the parent id afterwards is that
    parent, with the dragged field among its children immediately before the
    first child that carries the hover id, or last when no child carries it
    -- as in a drop inside an object or an array, where the hover id is the
    parent's own. *)
Theorem moveField_under_a_parent_lands_before_the_hover_field
  (fields : list JSONField) (dragId hoverId pid : jstring)
  (dragField parent : JSONField) :
  dragDrop.findField fields dragId = Some dragField ->
  In hoverId (allIds fields) ->
  pid <> [] ->
  dragDrop.findField (dragDrop.removeField fields dragId) pid = Some parent ->
  (forall pre target post,
      childrenOrEmpty parent = pre ++ target :: post ->
      Forall (fun c => id c <> hoverId) pre -> id target = hoverId ->
      dragDrop.findField (dragDrop.moveField fields dragId hoverId (Some pid)) pid
      = Some (withChildren parent (pre ++ dragField :: target :: post))) /\
  (Forall (fun c => id c <> hoverId) (childrenOrEmpty parent) ->
   dragDrop.findField (dragDrop.moveField fields dragId hoverId (Some pid)) pid
   = Some (withChildren parent (childrenOrEmpty parent ++ [dragField]))).
Proof.
  intros Hd Hh Hpid Hp. rewrite moveField_unfold, Hd.
  destruct (dragDrop.findField fields hoverId) as [hf|] eqn:Eh;
    [|apply findField_None_allIds in Eh; contradiction].
  unfold dragDrop.insertField, dragDrop.findInsertIndex.
  assert (given (Some pid) = Some pid) as ->
      by (destruct pid; [contradiction | reflexivity]).
  rewrite Hp.
  set (fw := dragDrop.removeField fields dragId) in *.
  assert (Hfind : forall index,
            dragDrop.findField
              (List.map (dragDrop.insertField_in dragField index pid) fw) pid
            = Some (withChildren parent
                      (splice_insert (childrenOrEmpty parent) (Z.of_nat index)
                         dragField))).
  { intros index. unfold dragDrop.findField in *.
    rewrite (firstFound_map_commute _ _
               (fun p => withChildren p
                           (splice_insert (childrenOrEmpty p) (Z.of_nat index)
                              dragField))).
    - now rewrite Hp.
    - apply List.Forall_forall. intros f _. apply findField_in_inserted. }
  assert (Hfalse : forall l, Forall (fun c => id c <> hoverId) l ->
            Forall (fun c => bool_decide (id c = hoverId) = false) l).
  { intros l Hl. apply List.Forall_impl with (2 := Hl). intros c Hc.
    now apply bool_decide_eq_false. }
  split.
  - intros pre target post Ecs Hpre Htarget. rewrite Hfind.
    unfold childrenOrEmpty in Ecs |- *.
    destruct (children parent) as [cs|]; [|now destruct pre].
    subst cs. rewrite (findIndex_at _ pre target post (Hfalse _ Hpre))
      by now apply bool_decide_eq_true.
    now rewrite splice_insert_split.
  - intros Hnone. rewrite Hfind. unfold childrenOrEmpty in Hnone |- *.
    destruct (children parent) as [cs|]; [|reflexivity].
    rewrite (findIndex_absent _ cs (Hfalse _ Hnone)).
    rewrite <- (app_nil_r cs) at 1. now rewrite splice_insert_split.
Qed.

Lemma moveField_under_a_parent_witness :
  dragDrop.findField
    (dragDrop.moveField
       [branch "a" "o" Tobject [leaf "b" "y" Tstring "1"]; leaf "c" "z" Tstring "2"]
       (js "c") (js "a") (Some (js "a")))
    (js "a")
  = Some (branch "a" "o" Tobject [leaf "b" "y" Tstring "1"; leaf "c" "z" Tstring "2"]).
Proof.
  apply (proj2 (moveField_under_a_parent_lands_before_the_hover_field
                  [branch "a" "o" Tobject [leaf "b" "y" Tstring "1"];
                   leaf "c" "z" Tstring "2"]
                  (js "c") (js "a") (js "a") (leaf "c" "z" Tstring "2")
                  (branch "a" "o" Tobject [leaf "b" "y" Tstring "1"])
                  eq_refl ltac:(simpl; tauto) ltac:(discriminate) eq_refl)).
  repeat constructor. discriminate.
Defined.
